(** * speech_text: the normalisation stages and the chunker

    A shallow embedding of [src/speech_text.py].  A Python [str] is a
    sequence of Unicode code points and is embedded as a list of code
    points; a Python [int] is a [Z]; a call that may raise returns a
    [result]. *)

From Stdlib Require Import String Ascii.
From Stdlib Require Import List ZArith NArith Bool Lia Permutation.
Import ListNotations.

Local Open Scope N_scope.

(** ** Text *)

(** A code point. *)
Definition char := N.

(** A Python [str]. *)
Definition str := list char.

(** An ASCII literal of the source as a [str]. *)
Fixpoint lit (s : string) : str :=
  match s with
  | EmptyString => []
  | String a s' => N_of_ascii a :: lit s'
  end.

(** [len(s)] *)
Definition len (s : str) : Z := Z.of_nat (length s).

(** [==] on [str]. *)
Fixpoint str_eqb (a b : str) : bool :=
  match a, b with
  | [], [] => true
  | x :: a', y :: b' => N.eqb x y && str_eqb a' b'
  | _, _ => false
  end.

(** [sep.join(parts)] *)
Fixpoint join (sep : str) (parts : list str) : str :=
  match parts with
  | [] => []
  | [p] => p
  | p :: rest => p ++ sep ++ join sep rest
  end.

(** ** Outcomes of a call *)

Inductive exn := ValueError | IndexError | OverflowError.

(** What a call does: it returns a value, it raises, or the model's
    iteration budget was too small (never the case for the budgets used
    below). *)
Inductive result (A : Type) :=
| Ok (a : A)
| Raise (e : exn)
| OutOfFuel.
Arguments Ok {A} a.
Arguments Raise {A} e.
Arguments OutOfFuel {A}.

Definition bind {A B} (r : result A) (k : A -> result B) : result B :=
  match r with
  | Ok a => k a
  | Raise e => Raise e
  | OutOfFuel => OutOfFuel
  end.

Notation "x <- r ;; k" := (bind r (fun x => k))
  (at level 61, r at next level, right associativity).

(** [l[i]] on a list: negative indexes count from the end, an index out of
    range raises IndexError. *)
Definition py_index {A} (l : list A) (i : Z) : result A :=
  let n := Z.of_nat (length l) in
  let j := if (i <? 0)%Z then (i + n)%Z else i in
  if ((j <? 0) || (n <=? j))%Z then Raise IndexError
  else match nth_error l (Z.to_nat j) with
       | Some a => Ok a
       | None => Raise IndexError
       end.

(** ** The Python runtime *)

(** [str.isspace] of one code point, which is also what [\s] matches in a
    [str] pattern and what [str.strip()] removes: CPython's table of
    whitespace code points. *)
Definition isspace (c : char) : bool :=
  ((9 <=? c) && (c <=? 13)) || ((28 <=? c) && (c <=? 32))
  || (c =? 133) || (c =? 160) || (c =? 5760)
  || ((8192 <=? c) && (c <=? 8202))
  || (c =? 8232) || (c =? 8233) || (c =? 8239) || (c =? 8287)
  || (c =? 12288).

(** [s.lstrip()], [s.rstrip()], [s.strip()] *)
Fixpoint lstrip (s : str) : str :=
  match s with
  | [] => []
  | c :: s' => if isspace c then lstrip s' else s
  end.

Definition rstrip (s : str) : str := rev (lstrip (rev s)).

Definition strip (s : str) : str := rstrip (lstrip s).

(** [s.split(sep)] for a separator of one character. *)
Fixpoint split_on (sep : char) (s : str) : list str :=
  match s with
  | [] => [[]]
  | c :: s' =>
      if c =? sep then [] :: split_on sep s'
      else match split_on sep s' with
           | p :: ps => (c :: p) :: ps
           | [] => [[c]]
           end
  end.

(** [chr(i)]: ValueError outside [range(0x110000)], OverflowError when [i]
    does not fit a C int. *)
Definition py_chr (i : Z) : result char :=
  if ((0 <=? i) && (i <? 1114112))%Z then Ok (Z.to_N i)
  else if (2147483647 <? i)%Z then Raise OverflowError
  else Raise ValueError.

(** The tables of the interpreter the stages consult.  They are not part of
    the repository; the embedding takes them as an interface whose laws fix
    the ASCII range and the facts about other code points that the proofs
    use. *)
Definition ascii_alnum (c : char) : bool :=
  ((48 <=? c) && (c <=? 57)) || ((65 <=? c) && (c <=? 90))
  || ((97 <=? c) && (c <=? 122)).

Definition ascii_decimal (c : char) : option Z :=
  if (48 <=? c) && (c <=? 57) then Some (Z.of_N c - 48)%Z else None.

Definition ascii_isupper (c : char) : bool := (65 <=? c) && (c <=? 90).

Definition ascii_lower (c : char) : char :=
  if ascii_isupper c then c + 32 else c.

Class UnicodeDB := {
  (** [str.isalnum] of one code point; [\w] is this or an underscore *)
  isalnum : char -> bool;
  (** the value of a decimal digit (category Nd): what [\d] matches and
      [int] reads *)
  decimal : char -> option Z;
  (** [str.isupper] of one code point *)
  isupper : char -> bool;
  (** [str.lower] *)
  lower : str -> str;
  (** [sys.get_int_max_str_digits()]: the longest digit string [int]
      converts, 0 for no limit *)
  int_max_str_digits : Z;
  isalnum_ascii : forall c, c < 128 -> isalnum c = ascii_alnum c;
  decimal_ascii : forall c, c < 128 -> decimal c = ascii_decimal c;
  decimal_range : forall c d, decimal c = Some d -> (0 <= d <= 9)%Z;
  decimal_alnum : forall c d, decimal c = Some d -> isalnum c = true;
  isupper_ascii : forall c, c < 128 -> isupper c = ascii_isupper c;
  lower_ascii : forall s, Forall (fun c => c < 128) s ->
                          lower s = map ascii_lower s;
  (** the four letters outside ASCII that re.IGNORECASE equates with an
      ASCII letter are letters, not digits *)
  isalnum_caseless : isalnum 304 = true /\ isalnum 305 = true
                     /\ isalnum 383 = true /\ isalnum 8490 = true;
  decimal_caseless : decimal 304 = None /\ decimal 305 = None
                     /\ decimal 383 = None /\ decimal 8490 = None;
  (** the interpreter accepts no limit between 1 and 639 *)
  int_max_str_digits_range :
    (int_max_str_digits = 0 \/ 640 <= int_max_str_digits)%Z
}.

(** The tables cut down to ASCII and the four letters of
    [isalnum_caseless]; every other code point is classified as a caseless
    symbol.  It agrees with CPython on ASCII text and is what the examples
    on ASCII text are run with. *)
Definition basic_db : UnicodeDB.
Proof.
  refine {|
    isalnum c := ascii_alnum c || (c =? 304) || (c =? 305) || (c =? 383)
                 || (c =? 8490);
    decimal := ascii_decimal;
    isupper := ascii_isupper;
    lower := map ascii_lower;
    int_max_str_digits := 4300
  |}.
  - intros c H.
    assert (E : forall k, 128 <= k -> (c =? k) = false)
      by (intros k Hk; apply N.eqb_neq; lia).
    rewrite !E by lia. now rewrite !orb_false_r.
  - reflexivity.
  - intros c d. unfold ascii_decimal.
    destruct ((48 <=? c) && (c <=? 57)) eqn:E; [|discriminate].
    intros [= <-]. apply andb_prop in E as [E1 E2].
    apply N.leb_le in E1, E2. lia.
  - intros c d. unfold ascii_decimal, ascii_alnum.
    destruct ((48 <=? c) && (c <=? 57)); [reflexivity|discriminate].
  - reflexivity.
  - reflexivity.
  - repeat split.
  - repeat split.
  - right. discriminate.
Defined.

(** [int(s)] for a string of decimal digits, the only strings the stages
    pass to it; ValueError for any other string and for one longer than the
    interpreter's limit. *)
Fixpoint digits_value {U : UnicodeDB} (acc : Z) (s : str) : option Z :=
  match s with
  | [] => Some acc
  | c :: s' =>
      match decimal c with
      | Some d => digits_value (10 * acc + d)%Z s'
      | None => None
      end
  end.

Definition py_int {U : UnicodeDB} (s : str) : result Z :=
  if ((0 <? int_max_str_digits) && (int_max_str_digits <? len s))%Z
  then Raise ValueError
  else match s with
       | [] => Raise ValueError
       | _ => match digits_value 0 s with
              | Some n => Ok n
              | None => Raise ValueError
              end
       end.

Definition exn_eqb (a b : exn) : bool :=
  match a, b with
  | ValueError, ValueError | IndexError, IndexError
  | OverflowError, OverflowError => true
  | _, _ => false
  end.

(** [try: body except e: handler] *)
Definition try_except {A} (body : result A) (e : exn) (handler : result A)
  : result A :=
  match body with
  | Raise e' => if exn_eqb e e' then handler else Raise e'
  | r => r
  end.

(** ** The fragment of [re] the stages use *)

(** The length of the longest prefix of [t] whose characters satisfy [p]. *)
Fixpoint span_len (p : char -> bool) (t : str) : nat :=
  match t with
  | c :: t' => if p c then S (span_len p t') else 0%nat
  | [] => 0%nat
  end.

(** The characters a pattern character of the source (all of them are
    ASCII) matches under re.IGNORECASE: itself in both cases and, for i, s
    and k, the letters U+0130, U+0131, U+017F and U+212A. *)
Definition ci_eq (p c : char) : bool :=
  let lp := ascii_lower p in
  (ascii_lower c =? lp)
  || ((lp =? 105) && ((c =? 304) || (c =? 305)))
  || ((lp =? 115) && (c =? 383))
  || ((lp =? 107) && (c =? 8490)).

(** The items a pattern of the source is a sequence of. *)
Inductive item :=
| Lit (c : char)                     (* a literal character *)
| LitI (c : char)                    (* a literal under re.IGNORECASE *)
| Rep (p : char -> bool) (lo : nat) (hi : option nat) (capture : bool)
                                     (* [p]{lo,hi}, greedy; a group if [capture] *)
| Bnd                                (* \b *)
| Behind (p : char -> bool).         (* (?<=[p]) *)

Section Regex.
Context {U : UnicodeDB}.

(** [\w] and [\d] *)
Definition is_word (c : char) : bool := isalnum c || (c =? 95).

Definition is_digit (c : char) : bool :=
  match decimal c with Some _ => true | None => false end.

Definition opt_word (c : option char) : bool :=
  match c with Some x => is_word x | None => false end.

(** [\b] between the character [prev] and the text [t]. *)
Definition boundary (prev : option char) (t : str) : bool :=
  xorb (opt_word prev) (opt_word (hd_error t)).

(** The character before position [j] of [t], [prev] being the one before
    [t]. *)
Definition prev_at (prev : option char) (t : str) (j : nat) : option char :=
  match j with
  | O => prev
  | S j' => nth_error t j'
  end.

(** The lengths a greedy repetition tries, the longest first, from [j]
    down to [lo]; [rest j] is the match of what follows the repetition
    when it takes [j] characters. *)
Fixpoint try_lengths (rest : nat -> option (list str * nat)) (lo j : nat)
  : option (list str * nat) :=
  if (j <? lo)%nat then None
  else match rest j with
       | Some r => Some r
       | None => match j with
                 | O => None
                 | S j' => try_lengths rest lo j'
                 end
       end.

(** The matcher: the first way, in the order a backtracking engine tries
    them, in which [items] matches a prefix of [t]; it answers the groups
    and the number of characters matched. *)
Fixpoint run (items : list item) (prev : option char) (t : str)
  : option (list str * nat) :=
  match items with
  | [] => Some ([], 0%nat)
  | it :: items' =>
      let one (ok : char -> bool) :=
        match t with
        | x :: t' =>
            if ok x then
              match run items' (Some x) t' with
              | Some (caps, n) => Some (caps, S n)
              | None => None
              end
            else None
        | [] => None
        end in
      match it with
      | Lit c => one (N.eqb c)
      | LitI c => one (ci_eq c)
      | Bnd => if boundary prev t then run items' prev t else None
      | Behind p =>
          match prev with
          | Some x => if p x then run items' prev t else None
          | None => None
          end
      | Rep p lo hi capture =>
          let avail := span_len p t in
          let most := match hi with
                      | Some h => Nat.min h avail
                      | None => avail
                      end in
          try_lengths
            (fun j =>
               match run items' (prev_at prev t j) (skipn j t) with
               | Some (caps, n) =>
                   Some (if capture then firstn j t :: caps else caps,
                         (j + n)%nat)
               | None => None
               end)
            lo most
      end
  end.

(** [re.sub(pattern, repl, text)]: the leftmost match, then the leftmost
    one after it, and so on; [skip] counts the characters of the current
    match still to pass over.  No pattern of the stages matches the empty
    string. *)
Fixpoint sub_scan (pattern : list item) (repl : list str -> str)
         (skip : nat) (prev : option char) (t : str) : str :=
  match t with
  | [] => []
  | c :: t' =>
      match skip with
      | S k => sub_scan pattern repl k (Some c) t'
      | O =>
          match run pattern prev t with
          | Some (caps, S n) => repl caps ++ sub_scan pattern repl n (Some c) t'
          | _ => c :: sub_scan pattern repl 0 (Some c) t'
          end
      end
  end.

Definition re_sub (pattern : list item) (repl : list str -> str)
           (text : str) : str :=
  sub_scan pattern repl 0 None text.

(** [re.sub] with a function for [repl] that may raise. *)
Fixpoint sub_scan_m (pattern : list item) (repl : list str -> result str)
         (skip : nat) (prev : option char) (t : str) : result str :=
  match t with
  | [] => Ok []
  | c :: t' =>
      match skip with
      | S k => sub_scan_m pattern repl k (Some c) t'
      | O =>
          match run pattern prev t with
          | Some (caps, S n) =>
              r <- repl caps ;;
              rest <- sub_scan_m pattern repl n (Some c) t' ;;
              Ok (r ++ rest)
          | _ =>
              rest <- sub_scan_m pattern repl 0 (Some c) t' ;;
              Ok (c :: rest)
          end
      end
  end.

Definition re_sub_m (pattern : list item) (repl : list str -> result str)
           (text : str) : result str :=
  sub_scan_m pattern repl 0 None text.

(** [re.split(pattern, text)] for a pattern without groups. *)
Fixpoint split_scan (pattern : list item) (skip : nat)
         (prev : option char) (t : str) : list str :=
  match t with
  | [] => [[]]
  | c :: t' =>
      match skip with
      | S k => split_scan pattern k (Some c) t'
      | O =>
          match run pattern prev t with
          | Some (_, S n) => [] :: split_scan pattern n (Some c) t'
          | _ => match split_scan pattern 0 (Some c) t' with
                 | p :: ps => (c :: p) :: ps
                 | [] => [[c]]
                 end
          end
      end
  end.

Definition re_split (pattern : list item) (text : str) : list str :=
  split_scan pattern 0 None text.

(** [text.replace(old, new)] for a non-empty [old]: the same scan for the
    literal [old]. *)
Definition str_replace (old new text : str) : str :=
  re_sub (map Lit old) (fun _ => new) text.

End Regex.

(** ** Rule 1: strip HTML *)

Definition html_entities : list (str * str) :=
  [ (lit "&amp;", lit "&"); (lit "&lt;", lit "<"); (lit "&gt;", lit ">");
    (lit "&quot;", [34]); (lit "&apos;", lit "'"); (lit "&nbsp;", lit " ");
    (lit "&#39;", lit "'"); (lit "&mdash;", [8212]); (lit "&ndash;", [8211]);
    (lit "&hellip;", [8230]) ].

Section StripHtml.
Context {U : UnicodeDB}.

(** [<[^>]+>] *)
Definition html_tag : list item :=
  [Lit 60; Rep (fun c => negb (c =? 62)) 1 None false; Lit 62].

(** [&#(\d+);] *)
Definition numeric_entity : list item :=
  [Lit 38; Lit 35; Rep is_digit 1 None true; Lit 59].

(** [lambda m: chr(int(m.group(1)))] *)
Definition decode_entity (groups : list str) : result str :=
  n <- py_int (nth 0 groups []) ;;
  c <- py_chr n ;;
  Ok [c].

Definition strip_html (text : str) : result str :=
  let text := re_sub html_tag (fun _ => []) text in
  let text := fold_left (fun t ec => str_replace (fst ec) (snd ec) t)
                        html_entities text in
  re_sub_m numeric_entity decode_entity text.

End StripHtml.

(** ** Rule 2: normalize whitespace *)

Section NormalizeWhitespace.
Context {U : UnicodeDB}.

Definition LF : char := 10.
Definition CR : char := 13.
Definition TAB : char := 9.
Definition SPACE : char := 32.

(** [[^\S\n]+] *)
Definition blanks : list item :=
  [Rep (fun c => isspace c && negb (c =? LF)) 1 None false].

(** [\n{3,}] *)
Definition blank_lines : list item :=
  [Rep (fun c => c =? LF) 3 None false].

Definition normalize_whitespace (text : str) : str :=
  let text := str_replace [CR] [LF] (str_replace [CR; LF] [LF] text) in
  let text := str_replace [TAB] [SPACE] text in
  let text := re_sub blanks (fun _ => [SPACE]) text in
  let lines := map strip (split_on LF text) in
  let text := join [LF] lines in
  let text := re_sub blank_lines (fun _ => [LF; LF]) text in
  strip text.

End NormalizeWhitespace.

(** ** Rule 3: remove dangerous punctuation *)

Section DangerousPunctuation.
Context {U : UnicodeDB}.

(** The pattern of the square brackets, written with spaces between its
    parts: \[ ( [^\]]* ) \] *)
Definition bracketed : list item :=
  [Lit 91; Rep (fun c => negb (c =? 93)) 0 None true; Lit 93].

Definition remove_dangerous_punctuation (text : str) : str :=
  let text := str_replace (lit "}") [] (str_replace (lit "{") [] text) in
  let text := str_replace (lit ">") [] (str_replace (lit "<") [] text) in
  re_sub bracketed (fun groups => nth 0 groups []) text.

End DangerousPunctuation.

(** ** Rule 5: the numeral speller *)

Definition ONES : list str := map lit
  [ ""; "one"; "two"; "three"; "four"; "five"; "six"; "seven"; "eight"; "nine";
    "ten"; "eleven"; "twelve"; "thirteen"; "fourteen"; "fifteen"; "sixteen";
    "seventeen"; "eighteen"; "nineteen" ]%string.

Definition TENS : list str := map lit
  [ ""; ""; "twenty"; "thirty"; "forty"; "fifty"; "sixty"; "seventy"; "eighty";
    "ninety" ]%string.

Definition SCALES : list str := map lit
  [ ""; "thousand"; "million"; "billion"; "trillion" ]%string.

Section NumberToWords.
Open Scope Z_scope.

(** The [while n > 0] loop of [_number_to_words]; [rec] is the recursive
    call on a chunk, [loops] bounds the number of iterations. *)
Fixpoint scale_loop (loops : nat) (rec : Z -> result str)
         (n : Z) (parts : list str) (scale_idx : Z) : result (list str) :=
  match loops with
  | O => if n >? 0 then OutOfFuel else Ok parts
  | S loops' =>
      if n >? 0 then
        let chunk := n mod 1000 in
        let n := n / 1000 in
        if negb (chunk =? 0) then
          chunk_words <- rec chunk ;;
          if scale_idx >? 0 then
            scale <- py_index SCALES scale_idx ;;
            scale_loop loops' rec n
              (parts ++ [chunk_words ++ lit " " ++ scale]) (scale_idx + 1)
          else
            scale_loop loops' rec n (parts ++ [chunk_words]) (scale_idx + 1)
        else
          scale_loop loops' rec n parts (scale_idx + 1)
      else Ok parts
  end.

(** [_number_to_words], with [depth] bounding the nesting of the recursive
    calls. *)
Fixpoint number_to_words_rec (depth : nat) (n : Z) : result str :=
  match depth with
  | O => OutOfFuel
  | S depth' =>
      if n =? 0 then Ok (lit "zero")
      else if n <? 0 then
        w <- number_to_words_rec depth' (- n) ;;
        Ok (lit "negative " ++ w)
      else if n <? 20 then py_index ONES n
      else if n <? 100 then
        let tens := n / 10 in
        let ones := n mod 10 in
        if negb (ones =? 0) then
          t <- py_index TENS tens ;;
          o <- py_index ONES ones ;;
          Ok (t ++ lit "-" ++ o)
        else py_index TENS tens
      else if n <? 1000 then
        let hundreds := n / 100 in
        let remainder := n mod 100 in
        if negb (remainder =? 0) then
          h <- py_index ONES hundreds ;;
          r <- number_to_words_rec depth' remainder ;;
          Ok (h ++ lit " hundred " ++ r)
        else
          h <- py_index ONES hundreds ;;
          Ok (h ++ lit " hundred")
      else
        parts <- scale_loop (S (Z.to_nat (Z.log2 n)))
                   (number_to_words_rec depth') n [] 0 ;;
        Ok (join (lit " ") (rev parts))
  end.

(** The calls nest at most four deep: a negative number, a number of four
    digits or more, one of its chunks, the chunk's remainder. *)
Definition _number_to_words (n : Z) : result str :=
  number_to_words_rec 4 n.

End NumberToWords.

Definition ORDINALS : list (str * str) :=
  map (fun p => (lit (fst p), lit (snd p)))
  [ ("1st", "first"); ("2nd", "second"); ("3rd", "third"); ("4th", "fourth");
    ("5th", "fifth"); ("6th", "sixth"); ("7th", "seventh"); ("8th", "eighth");
    ("9th", "ninth"); ("10th", "tenth"); ("11th", "eleventh");
    ("12th", "twelfth"); ("13th", "thirteenth"); ("14th", "fourteenth");
    ("15th", "fifteenth"); ("16th", "sixteenth"); ("17th", "seventeenth");
    ("18th", "eighteenth"); ("19th", "nineteenth"); ("20th", "twentieth");
    ("21st", "twenty-first"); ("22nd", "twenty-second");
    ("23rd", "twenty-third"); ("24th", "twenty-fourth");
    ("25th", "twenty-fifth"); ("26th", "twenty-sixth");
    ("27th", "twenty-seventh"); ("28th", "twenty-eighth");
    ("29th", "twenty-ninth"); ("30th", "thirtieth");
    ("31st", "thirty-first") ]%string.

Section NormalizeNumbers.
Context {U : UnicodeDB}.
Open Scope Z_scope.

(** [\b{word}\b] with re.IGNORECASE, for a word of the tables. *)
Definition whole_word_i (word : str) : list item :=
  [Bnd] ++ map LitI word ++ [Bnd].

(** [\b(\d+)\b] *)
Definition number_token : list item :=
  [Bnd; Rep is_digit 1 None true; Bnd].

(** The pairs reading of a year, as [replace_number] and [format_year]
    both spell it out. *)
Definition year_pairs (num : Z) : result str :=
  let first_half := num / 100 in
  let second_half := num mod 100 in
  if second_half =? 0 then
    a <- _number_to_words first_half ;;
    Ok (a ++ lit " hundred")
  else if second_half <? 10 then
    a <- _number_to_words first_half ;;
    b <- _number_to_words second_half ;;
    Ok (a ++ lit " oh " ++ b)
  else
    a <- _number_to_words first_half ;;
    b <- _number_to_words second_half ;;
    Ok (a ++ lit " " ++ b).

Definition replace_number (groups : list str) : result str :=
  let num_str := nth 0 groups [] in
  try_except
    (num <- py_int num_str ;;
     if (1900 <=? num) && (num <=? 2099) && (len num_str =? 4)
     then year_pairs num
     else _number_to_words num)
    ValueError (Ok num_str).

Definition replace_ordinals (text : str) : str :=
  fold_left (fun t ow => re_sub (whole_word_i (fst ow)) (fun _ => snd ow) t)
            ORDINALS text.

Definition normalize_numbers (text : str) : result str :=
  let text := replace_ordinals text in
  re_sub_m number_token replace_number text.

End NormalizeNumbers.

(** ** Rule 6: normalize dates *)

Definition MONTHS : list (str * str) :=
  map (fun p => (lit (fst p), lit (snd p)))
  [ ("01", "January"); ("1", "January"); ("02", "February"); ("2", "February");
    ("03", "March"); ("3", "March"); ("04", "April"); ("4", "April");
    ("05", "May"); ("5", "May"); ("06", "June"); ("6", "June");
    ("07", "July"); ("7", "July"); ("08", "August"); ("8", "August");
    ("09", "September"); ("9", "September"); ("10", "October");
    ("11", "November"); ("12", "December") ]%string.

(** [d.get(key, default)] *)
Fixpoint dict_get (d : list (str * str)) (key default : str) : str :=
  match d with
  | [] => default
  | (k, v) :: d' => if str_eqb k key then v else dict_get d' key default
  end.

Section NormalizeDates.
Context {U : UnicodeDB}.
Open Scope Z_scope.

Definition format_year (year_str : str) : result str :=
  year <- py_int year_str ;;
  if (1900 <=? year) && (year <=? 2099) then year_pairs year
  else _number_to_words year.

Definition format_day (day_str : str) : result str :=
  day <- py_int day_str ;;
  _number_to_words day.

Definition spoken_date (month day year : str) : result str :=
  let month_name := dict_get MONTHS month month in
  d <- format_day day ;;
  y <- format_year year ;;
  Ok (month_name ++ lit " " ++ d ++ lit ", " ++ y).

Definition replace_us_date (groups : list str) : result str :=
  spoken_date (nth 0 groups []) (nth 1 groups []) (nth 2 groups []).

Definition replace_iso_date (groups : list str) : result str :=
  spoken_date (nth 1 groups []) (nth 2 groups []) (nth 0 groups []).

(** [\b(\d{1,2})/(\d{1,2})/(\d{4})\b] *)
Definition us_date : list item :=
  [Bnd; Rep is_digit 1 (Some 2%nat) true; Lit 47%N;
   Rep is_digit 1 (Some 2%nat) true; Lit 47%N;
   Rep is_digit 4 (Some 4%nat) true; Bnd].

(** [\b(\d{4})-(\d{2})-(\d{2})\b] *)
Definition iso_date : list item :=
  [Bnd; Rep is_digit 4 (Some 4%nat) true; Lit 45%N;
   Rep is_digit 2 (Some 2%nat) true; Lit 45%N;
   Rep is_digit 2 (Some 2%nat) true; Bnd].

Definition normalize_dates (text : str) : result str :=
  text <- re_sub_m us_date replace_us_date text ;;
  re_sub_m iso_date replace_iso_date text.

End NormalizeDates.

(** ** Rule 8: normalize acronyms *)

(** The set [LETTER_ACRONYMS], each member once, in the order the source
    lists them. *)
Definition LETTER_ACRONYMS : list str := map lit
  [ "FBI"; "CIA"; "NSA"; "USA"; "UK"; "EU"; "UN"; "NATO"; "CEO"; "CFO"; "CTO";
    "AI"; "ML"; "API"; "CPU"; "GPU"; "RAM"; "ROM"; "USB"; "HTML"; "CSS"; "URL";
    "PDF"; "FAQ"; "DIY"; "VP"; "HR"; "IT"; "PR"; "QA"; "R&D"; "ROI";
    "GDP"; "GPA"; "IQ"; "EQ"; "PhD"; "MBA"; "BA"; "BS"; "MS"; "MD"; "JD";
    "ASAP"; "FYI"; "BTW"; "IMO"; "TBD"; "TBA"; "ETA"; "RSVP";
    "GPS"; "ATM"; "PIN"; "ID"; "VIP"; "PS"; "TV"; "DVD"; "CD";
    "LLM"; "NLP"; "GPT"; "CNN"; "RNN"; "SaaS"; "IoT"; "VR"; "AR" ]%string.

Definition EXPANDED_ACRONYMS : list (str * str) :=
  map (fun p => (lit (fst p), lit (snd p)))
  [ ("etc", "et cetera"); ("vs", "versus"); ("ie", "that is");
    ("i.e", "that is"); ("eg", "for example"); ("e.g", "for example");
    ("approx", "approximately"); ("govt", "government");
    ("dept", "department"); ("inc", "incorporated"); ("corp", "corporation");
    ("ltd", "limited"); ("assn", "association");
    ("intl", "international") ]%string.

(** [s.upper()] for an ASCII string of the tables. *)
Definition ascii_upper (c : char) : char :=
  if (97 <=? c) && (c <=? 122) then c - 32 else c.

(** [' '.join(acronym.upper())] *)
Definition spaced (acronym : str) : str :=
  join (lit " ") (map (fun c => [ascii_upper c]) acronym).

Section NormalizeAcronyms.
Context {U : UnicodeDB}.

(** [\b{escaped}\.] with re.IGNORECASE *)
Definition word_dot_i (word : str) : list item :=
  [Bnd] ++ map LitI word ++ [Lit 46].

Definition expand_acronyms (text : str) : str :=
  fold_left
    (fun t ae =>
       let t := re_sub (word_dot_i (fst ae)) (fun _ => snd ae) t in
       re_sub (whole_word_i (fst ae)) (fun _ => snd ae) t)
    EXPANDED_ACRONYMS text.

(** The loop over the set [LETTER_ACRONYMS]; [order] is the order in which
    the interpreter iterates the set, which the source does not fix. *)
Definition spell_acronyms (order : list str) (text : str) : str :=
  fold_left
    (fun t acronym => re_sub (whole_word_i acronym) (fun _ => spaced acronym) t)
    order text.

Definition normalize_acronyms (order : list str) (text : str) : str :=
  spell_acronyms order (expand_acronyms text).

End NormalizeAcronyms.

(** ** Rule 9: flatten lists *)

Definition ordinals : list str := map lit
  [ "Firstly"; "Secondly"; "Thirdly"; "Fourthly"; "Fifthly"; "Sixthly";
    "Seventhly"; "Eighthly"; "Ninthly"; "Tenthly" ]%string.

Section ListToProse.
Context {U : UnicodeDB}.

(** [item.lower() if item[0].isupper() and not item[1:2].isupper() else
    item]; [item[0]] raises IndexError on an empty item. *)
Definition prose_item (item : str) : result str :=
  match item with
  | [] => Raise IndexError
  | c0 :: rest =>
      let second_upper := match rest with
                          | c1 :: _ => isupper c1
                          | [] => false
                          end in
      if isupper c0 && negb second_upper then Ok (lower item) else Ok item
  end.

(** The [for i, item in enumerate(items)] loop. *)
Fixpoint prose_parts (i : nat) (items : list str) : result (list str) :=
  match items with
  | [] => Ok []
  | item :: items' =>
      body <- prose_item item ;;
      let connector := if (i <? length ordinals)%nat
                       then nth i ordinals []
                       else lit "Additionally" in
      rest <- prose_parts (S i) items' ;;
      Ok ((connector ++ lit ", " ++ body) :: rest)
  end.

Definition _list_to_prose (items : list str) : result str :=
  match items with
  | [item] => Ok item
  | _ => parts <- prose_parts 0 items ;;
         Ok (join (lit " ") parts)
  end.

End ListToProse.

(** ** Rule 10: chunk text *)

(** The three variables of the loop of [chunk_text]. *)
Record chunker := {
  chunks : list str;
  current_chunk : list str;
  current_length : Z
}.

Section ChunkText.
Context {U : UnicodeDB}.
Open Scope Z_scope.

(** [(?<=[.!?])\s+] *)
Definition sentence_gap : list item :=
  [Behind (fun c => (c =? 46) || (c =? 33) || (c =? 63))%N;
   Rep isspace 1 None false].

Definition nonempty {A} (l : list A) : bool :=
  match l with [] => false | _ => true end.

(** One turn of [for sentence in sentences]. *)
Definition chunk_step (max_chars : Z) (st : chunker) (sentence : str)
  : chunker :=
  let sentence := strip sentence in
  if negb (nonempty sentence) then st
  else
    let sentence_len := len sentence in
    if sentence_len >? max_chars then
      let st :=
        if nonempty (current_chunk st)
        then {| chunks := chunks st ++ [join (lit " ") (current_chunk st)];
                current_chunk := [];
                current_length := 0 |}
        else st in
      {| chunks := chunks st ++ [sentence];
         current_chunk := current_chunk st;
         current_length := current_length st |}
    else
      let space_needed := if nonempty (current_chunk st) then 1 else 0 in
      if current_length st + space_needed + sentence_len >? max_chars then
        {| chunks := if nonempty (current_chunk st)
                     then chunks st ++ [join (lit " ") (current_chunk st)]
                     else chunks st;
           current_chunk := [sentence];
           current_length := sentence_len |}
      else
        {| chunks := chunks st;
           current_chunk := current_chunk st ++ [sentence];
           current_length := current_length st + space_needed + sentence_len |}.

Definition chunk_text (text : str) (max_chars : Z) : list str :=
  let sentences := re_split sentence_gap text in
  let st := fold_left (chunk_step max_chars) sentences
              {| chunks := []; current_chunk := []; current_length := 0 |} in
  if nonempty (current_chunk st)
  then chunks st ++ [join (lit " ") (current_chunk st)]
  else chunks st.

End ChunkText.

(** ** The converter *)

Record SpeechTextConverter := { chunk_size : Z }.

(** [SpeechTextConverter.__init__] *)
Definition SpeechTextConverter_init (chunk_size : Z) : SpeechTextConverter :=
  {| chunk_size := chunk_size |}.

Section Converter.
Context {U : UnicodeDB}.

(** The stages whose bodies are not embedded, and the iteration order of
    the acronym set. *)
Variable strip_markdown strip_control_characters remove_emojis
         replace_special_unicode flatten_lists : str -> str.
Variable normalize_symbols : str -> result str.
Variable acronym_order : list str.

Definition convert (text : str) : result str :=
  text <- strip_html text ;;
  let text := strip_markdown text in
  let text := normalize_whitespace text in
  let text := remove_dangerous_punctuation text in
  let text := strip_control_characters text in
  let text := remove_emojis text in
  let text := replace_special_unicode text in
  text <- normalize_dates text ;;
  text <- normalize_symbols text ;;
  text <- normalize_numbers text ;;
  let text := normalize_acronyms acronym_order text in
  let text := flatten_lists text in
  Ok (normalize_whitespace text).

Definition convert_and_chunk (self : SpeechTextConverter) (text : str)
  : result (list str) :=
  text <- convert text ;;
  Ok (chunk_text text (chunk_size self)).

End Converter.

(** ** The reference definition of the numeral speller

    A second definition of the speller, written from the specification's
    words instead of from the source. *)
Module Reference.
Local Open Scope Z_scope.

(** The word of a number from 1 to 19, by lookup. *)
Definition ones_word (n : Z) : str := nth (Z.to_nat n) ONES [].

Definition tens_word (n : Z) : str := nth (Z.to_nat n) TENS [].

(** 1 to 99: below 20 the lookup, otherwise the tens word, and a hyphen and
    the ones word if that is not zero. *)
Definition below_hundred (n : Z) : str :=
  if n <? 20 then ones_word n
  else if n mod 10 =? 0 then tens_word (n / 10)
  else tens_word (n / 10) ++ lit "-" ++ ones_word (n mod 10).

(** 1 to 999: from 100 on, the hundreds' ones word and "hundred", and the
    spelled remainder if that is not zero. *)
Definition below_thousand (n : Z) : str :=
  if n <? 100 then below_hundred n
  else if n mod 100 =? 0 then ones_word (n / 100) ++ lit " hundred"
  else ones_word (n / 100) ++ lit " hundred " ++ below_hundred (n mod 100).

(** The groups of three digits of [n], the least significant first. *)
Fixpoint groups (k : nat) (n : Z) : list Z :=
  match k with
  | O => []
  | S k' => if n >? 0 then n mod 1000 :: groups k' (n / 1000) else []
  end.

(** The scale word of the group of index [i]; the lowest group has none and
    there is no word beyond the trillions. *)
Definition scale_word (i : nat) : option str :=
  match i with
  | O => Some []
  | _ => option_map (fun w => lit " " ++ w) (nth_error SCALES i)
  end.

(** The phrases of the groups from index [i] on, the least significant
    first: a group that is zero contributes nothing. *)
Fixpoint phrases (i : nat) (gs : list Z) : option (list str) :=
  match gs with
  | [] => Some []
  | g :: gs' =>
      match phrases (S i) gs' with
      | None => None
      | Some rest =>
          if g =? 0 then Some rest
          else option_map (fun w => (below_thousand g ++ w) :: rest)
                          (scale_word i)
      end
  end.

Definition spell_nonneg (n : Z) : option str :=
  if n =? 0 then Some (lit "zero")
  else if n <? 1000 then Some (below_thousand n)
  else option_map (fun ps => join (lit " ") (rev ps))
         (phrases 0 (groups (S (Z.to_nat (Z.log2 n))) n)).

(** The words of [n], when the specification gives them. *)
Definition number_words (n : Z) : option str :=
  if n <? 0 then option_map (fun w => lit "negative " ++ w)
                            (spell_nonneg (- n))
  else spell_nonneg n.

End Reference.

(** ** The sentences of a text *)

Section Sentences.
Context {U : UnicodeDB}.

(** The sentences [chunk_text] packs: the pieces between the sentence
    gaps, stripped, without the empty ones, in the order of the text. *)
Definition sentences (text : str) : list str :=
  filter nonempty (map strip (re_split sentence_gap text)).

(** A string that is not empty and neither starts nor ends with
    whitespace. *)
Definition trimmed (s : str) : Prop :=
  s <> []
  /\ (forall a, hd_error s = Some a -> isspace a = false)
  /\ (forall a, hd_error (rev s) = Some a -> isspace a = false).

(** What a group of sentences packed into one chunk has to satisfy: it
    fits the limit, or it is one sentence that alone exceeds it. *)
Definition fits (max_chars : Z) (group : list str) : Prop :=
  group <> []
  /\ ((len (join (lit " ") group) <= max_chars)%Z
      \/ exists s, group = [s] /\ (len s > max_chars)%Z).

End Sentences.

(** ** What the list flattener emits for an item *)

Section ProseReference.
Context {U : UnicodeDB}.

(** The connector of the item of index [i]: the ten ordinal adverbs, then
    "Additionally". *)
Definition connector (i : nat) : str :=
  if (i <? 10)%nat then nth i ordinals [] else lit "Additionally".

(** The item, lower-cased as a whole when its first character is upper
    case and its second one is not. *)
Definition lowered_item (item : str) : str :=
  match item with
  | c0 :: c1 :: _ => if isupper c0 && negb (isupper c1) then lower item else item
  | [c0] => if isupper c0 then lower item else item
  | [] => []
  end.

Definition prose_entry (i : nat) (item : str) : str :=
  connector i ++ lit ", " ++ lowered_item item.

End ProseReference.

(** ** Predicates the proofs use *)

Section ScanPredicates.
Context {U : UnicodeDB}.

(** The pattern matches at no position of [t]. *)
Fixpoint no_match (pat : list item) (prev : option char) (t : str) : Prop :=
  match t with
  | [] => True
  | c :: t' => run pat prev t = None /\ no_match pat (Some c) t'
  end.

End ScanPredicates.

(** ** Canonical whitespace *)

Section WhitespacePredicates.

(** Whitespace other than a line feed: what [blanks] matches. *)
Definition hspace (c : char) : bool := isspace c && negb (c =? LF).

Definition is_lf (c : char) : bool := c =? LF.

(** Every two consecutive characters of [t] are related by [R]. *)
Fixpoint chain (R : char -> char -> Prop) (t : str) : Prop :=
  match t with
  | a :: (b :: _) as t' => R a b /\ chain R t'
  | _ => True
  end.

(** The only whitespace of [t] is the space and the line feed. *)
Definition plain_spaces (t : str) : Prop :=
  Forall (fun c => isspace c = true -> c = SPACE \/ c = LF) t.

(** A space is not followed by whitespace of a line. *)
Definition lone (a b : char) : Prop := a = SPACE -> hspace b = false.

(** A space has no whitespace next to it. *)
Definition apart (a b : char) : Prop :=
  (a = SPACE -> isspace b = false) /\ (b = SPACE -> isspace a = false).

(** No three line feeds in a row. *)
Fixpoint no_triple_lf (t : str) : Prop :=
  match t with
  | [] => True
  | _ :: t' => (span_len is_lf t < 3)%nat /\ no_triple_lf t'
  end.

(** The texts [normalize_whitespace] produces. *)
Definition canonical (t : str) : Prop :=
  plain_spaces t /\ chain apart t /\ no_triple_lf t /\ (t = [] \/ trimmed t).

(** A stripped line: single spaces inside, none at its ends, no line
    feed. *)
Definition clean (l : str) : Prop :=
  ~ In LF l
  /\ Forall (fun c => hspace c = true -> c = SPACE) l
  /\ chain lone l
  /\ (l = [] \/ trimmed l).

End WhitespacePredicates.

(** ** Words *)

Section WordPredicates.
Context {U : UnicodeDB}.

(** The last character of a text. *)
Definition last_char (s : str) : option char := hd_error (rev s).

(** The pattern decides a match without looking behind the next separator
    (a character [sep] holds of): a separator is as good as the end of the
    text. *)
Definition stops_at (sep : char -> bool) (pat : list item) : Prop :=
  forall prev b x rest,
    sep x = true -> run pat prev (b ++ x :: rest) = run pat prev b.

(** An item that neither matches a separator nor looks at more than
    whether the next character is of a word. *)
Definition avoids (sep : char -> bool) (it : item) : Prop :=
  match it with
  | Lit c => sep c = false
  | LitI p => forall c, ci_eq p c = true -> sep c = false
  | Rep p _ _ _ => forall x, sep x = true -> p x = false
  | Bnd | Behind _ => True
  end.

(** [sep] holds of the character, if there is one. *)
Definition opt_sep (sep : char -> bool) (c : option char) : Prop :=
  match c with Some x => sep x = true | None => True end.

(** The characters that are not of a word. *)
Definition nonword (c : char) : bool := negb (is_word c).

(** [word] is a prefix of [t], up to case as re.IGNORECASE has it. *)
Fixpoint ci_starts (word t : str) : bool :=
  match word, t with
  | [], _ => true
  | p :: word', c :: t' => ci_eq p c && ci_starts word' t'
  | _ :: _, [] => false
  end.

End WordPredicates.

(** ** The pairs reading of a year *)


(** A letter of the ASCII alphabet. *)
Definition ascii_letter (c : char) : bool :=
  ((65 <=? c) && (c <=? 90)) || ((97 <=? c) && (c <=? 122)).



(** ** Acronyms in a text *)

(** The one acronym of [LETTER_ACRONYMS] with a character that is not of a
    word. *)
Definition R_AND_D : str := lit "R&D".

(** No two characters next to each other are both other than a space. *)
Fixpoint sparse (t : str) : bool :=
  match t with
  | a :: t' =>
      match t' with
      | b :: _ => ((a =? 32) || (b =? 32)) && sparse t'
      | [] => true
      end
  | [] => true
  end.

(** What the proofs use of an acronym of the table: two characters at
    least, letters and digits or ['&'], a letter or digit at both ends, its
    spelling sparse and without lower-case or non-ASCII characters. *)
Definition acronym_ok (w : str) : bool :=
  (2 <=? length w)%nat
  && forallb (fun c => ascii_alnum c || (c =? 38)) w
  && ascii_alnum (hd 0 w) && ascii_alnum (last w 0)
  && (str_eqb w R_AND_D || forallb ascii_alnum w)
  && sparse (spaced w) && forallb (fun c => c <? 97) (spaced w).

(** No two acronyms of the table differ in letter case only. *)
Definition acronyms_apart (table : list str) : bool :=
  forallb (fun x =>
    forallb (fun y =>
      implb (str_eqb (map ascii_lower x) (map ascii_lower y)) (str_eqb x y))
      table) table.

(** The character before the end of [s], [prev] for an empty [s]. *)
Definition last_or (prev : option char) (s : str) : option char :=
  match last_char s with Some c => Some c | None => prev end.

(** In [s ++ x :: rest], the pattern of ["R&D"] matches from the last
    character of [s] on. *)
Definition crosses {U : UnicodeDB} (prev : option char) (s : str) (x : char)
           (rest : str) : bool :=
  match rev s with
  | r :: s1 =>
      match run (whole_word_i R_AND_D) (last_or prev (rev s1))
                (r :: x :: rest) with
      | Some _ => true
      | None => false
      end
  | [] => false
  end.

(** What a pass makes of the texts [a] before and [b] behind an occurrence:
    [a'] still ends and [b'] still starts with a character that is not of a
    word, and they are the pass of [a] and of [b] unless a ['&'] is next to
    the occurrence. *)
Definition around {U : UnicodeDB} (pass : str -> str) (a b a' b' : str)
  : Prop :=
  opt_word (last_char a') = false /\ opt_word (hd_error b') = false
  /\ (last_char a <> Some 38 -> a' = pass a /\ last_char a' = last_char a)
  /\ (hd_error b <> Some 38 -> b' = pass b /\ hd_error b' = hd_error b).

(** ** Words that start with a digit *)

(** The word starts with an ASCII digit, as the keys of [ORDINALS] do. *)
Definition digit_headed (w : str) : bool :=
  match w with
  | d :: _ => (48 <=? d) && (d <=? 57)
  | [] => false
  end.

(** ** Rule 4: control characters, emojis and special symbols *)

(** [unicodedata.category]: the two-letter name of the general category of
    a code point.  The law is the category of the space, which the stage
    puts in the place of a no-break space. *)
Class UnicodeCategories := {
  category : char -> str;
  category_space : category 32 = lit "Zs"
}.

(** The categories of the ASCII characters, of the C1 controls, of the
    no-break space, of the soft hyphen and of the zero-width characters the
    source lists; every other code point is taken as unassigned (Cn). *)
Definition basic_category (c : char) : str :=
  if (c <? 32) || ((127 <=? c) && (c <=? 159)) then lit "Cc"
  else if (c =? 32) || (c =? 160) then lit "Zs"
  else if (c =? 173) || ((8203 <=? c) && (c <=? 8205)) || (c =? 8288)
          || (c =? 65279) then lit "Cf"
  else if (48 <=? c) && (c <=? 57) then lit "Nd"
  else if (65 <=? c) && (c <=? 90) then lit "Lu"
  else if (97 <=? c) && (c <=? 122) then lit "Ll"
  else if (c =? 36) then lit "Sc"
  else if (c =? 43) || (c =? 60) || (c =? 61) || (c =? 62) || (c =? 124)
          || (c =? 126) then lit "Sm"
  else if (c =? 94) || (c =? 96) then lit "Sk"
  else if (c =? 40) || (c =? 91) || (c =? 123) then lit "Ps"
  else if (c =? 41) || (c =? 93) || (c =? 125) then lit "Pe"
  else if (c =? 45) then lit "Pd"
  else if (c =? 95) then lit "Pc"
  else if c <? 128 then lit "Po"
  else lit "Cn".

Definition basic_categories : UnicodeCategories :=
  {| category := basic_category;
     category_space := eq_refl |}.

(** The characters of ['​‌‍⁠﻿']. *)
Definition zero_width : str := [8203; 8204; 8205; 8288; 65279].

(** The loop [for char in text] of [strip_control_characters]; the result
    is the kept characters joined. *)
Fixpoint strip_control_characters {C : UnicodeCategories} (text : str)
  : str :=
  match text with
  | [] => []
  | char :: text' =>
      if char =? 10 then char :: strip_control_characters text'
      else if existsb (str_eqb (category char)) [lit "Cc"; lit "Cf"]
      then strip_control_characters text'
      else if char =? 160 then 32 :: strip_control_characters text'
      else if existsb (N.eqb char) zero_width
      then strip_control_characters text'
      else char :: strip_control_characters text'
  end.

(** The table [replacements] of [replace_special_unicode], in the order of
    the source. *)
Definition replacements : list (str * str) :=
  [ ([8594], lit " arrow "); ([8592], lit " arrow ");
    ([8593], lit " arrow "); ([8595], lit " arrow ");
    ([8658], lit " implies "); ([8656], lit " implied by ");
    ([8596], lit " bidirectional arrow ");
    ([10003], lit " check mark "); ([10004], lit " check mark ");
    ([10007], lit " cross "); ([10008], lit " cross ");
    ([9745], lit " checked box "); ([9744], lit " unchecked box ");
    ([215], lit " times "); ([247], lit " divided by ");
    ([177], lit " plus or minus "); ([8776], lit " approximately ");
    ([8800], lit " not equal to "); ([8804], lit " less than or equal to ");
    ([8805], lit " greater than or equal to "); ([8734], lit " infinity ");
    ([169], lit " copyright "); ([174], lit " registered trademark ");
    ([8482], lit " trademark ");
    ([8226], lit ", "); ([183], lit " "); ([8230], lit "...");
    ([167], lit " section "); ([182], lit " paragraph ");
    ([8224], []); ([8225], []); ([176], lit " degrees ") ].

Section SpecialUnicode.
Context {U : UnicodeDB}.

Definition replace_special_unicode (text : str) : str :=
  fold_left (fun t sr => str_replace (fst sr) (snd sr) t) replacements text.

(** The character class of [emoji_pattern]: eleven ranges of code
    points. *)
Definition emoji (c : char) : bool :=
  ((128512 <=? c) && (c <=? 128591))
  || ((127744 <=? c) && (c <=? 128511))
  || ((128640 <=? c) && (c <=? 128767))
  || ((128768 <=? c) && (c <=? 128895))
  || ((128896 <=? c) && (c <=? 129023))
  || ((129024 <=? c) && (c <=? 129279))
  || ((129280 <=? c) && (c <=? 129535))
  || ((129536 <=? c) && (c <=? 129647))
  || ((129648 <=? c) && (c <=? 129791))
  || ((9986 <=? c) && (c <=? 10160))
  || ((9410 <=? c) && (c <=? 127569)).

Definition emoji_pattern : list item := [Rep emoji 1 None false].

Definition remove_emojis (text : str) : str :=
  re_sub emoji_pattern (fun _ => []) text.

End SpecialUnicode.

(** What [replace_special_unicode] makes of one character. *)
Definition special (c : char) : str := dict_get replacements [c] [c].

(** The keys of a table are single characters, and no replacement holds
    the key of a later entry. *)
Fixpoint keys_apart (table : list (str * str)) : bool :=
  match table with
  | [] => true
  | (k, r) :: table' =>
      (length k =? 1)%nat
      && forallb (fun c => negb (existsb (fun sr => str_eqb (fst sr) [c])
                                         table')) r
      && keys_apart table'
  end.

(** ** Rule 7: normalize symbols *)

Definition currency_names : list (str * str) :=
  [ (lit "$", lit "dollars"); ([8364], lit "euros"); ([163], lit "pounds");
    ([165], lit "yen") ].

(** The alternatives of the third group of the time pattern, in the order
    the pattern tries them. *)
Definition periods : list str :=
  map lit [ "AM"; "PM"; "am"; "pm"; "a.m."; "p.m." ]%string.

(** [t.startswith(w)] *)
Fixpoint starts_with (w t : str) : bool :=
  match w, t with
  | [], _ => true
  | a :: w', b :: t' => (a =? b) && starts_with w' t'
  | _ :: _, [] => false
  end.

(** [[f(x) for x in l]] for an [f] that may raise. *)
Fixpoint map_m {A B} (f : A -> result B) (l : list A) : result (list B) :=
  match l with
  | [] => Ok []
  | x :: l' =>
      y <- f x ;;
      ys <- map_m f l' ;;
      Ok (y :: ys)
  end.

Section NormalizeSymbols.
Context {U : UnicodeDB}.

(** [re.sub(pattern, repl, text)] for a pattern given by its matcher [m]:
    the scan of [sub_scan_m], with [m] in the place of [run pattern]. *)
Fixpoint scan_by (m : option char -> str -> option (list str * nat))
         (repl : list str -> result str) (skip : nat) (prev : option char)
         (t : str) : result str :=
  match t with
  | [] => Ok []
  | c :: t' =>
      match skip with
      | S k => scan_by m repl k (Some c) t'
      | O =>
          match m prev t with
          | Some (caps, S n) =>
              r <- repl caps ;;
              rest <- scan_by m repl n (Some c) t' ;;
              Ok (r ++ rest)
          | _ =>
              rest <- scan_by m repl 0 (Some c) t' ;;
              Ok (c :: rest)
          end
      end
  end.

(** [[$€£¥]] *)
Definition is_currency (c : char) : bool :=
  ((c =? 36) || (c =? 8364) || (c =? 163) || (c =? 165))%N.

(** [([$€£¥])(\d+(?:\.\d{2})?)]: the symbol and the digits, the longest
    run of them, then the point and two digits when they follow.  Nothing
    comes behind the optional part, so the engine never goes back on the
    digits. *)
Definition currency_head : list item :=
  [Rep is_currency 1 (Some 1%nat) true; Rep is_digit 1 None true].

Definition cents_tail : list item :=
  [Lit 46%N; Rep is_digit 2 (Some 2%nat) false].

Definition currency_match (prev : option char) (t : str)
  : option (list str * nat) :=
  match run currency_head prev t with
  | Some (caps, n) =>
      match run cents_tail (prev_at prev t n) (skipn n t) with
      | Some (_, m) =>
          Some ([nth 0 caps []; nth 1 caps [] ++ firstn m (skipn n t)],
                (n + m)%nat)
      | None => Some (caps, n)
      end
  | None => None
  end.

Definition replace_currency (groups : list str) : result str :=
  let symbol := nth 0 groups [] in
  let amount := nth 1 groups [] in
  let currency := dict_get currency_names symbol (lit "units") in
  if existsb (N.eqb 46) amount then
    match split_on 46 amount with
    | [whole; cents] =>
        whole_num <- (if nonempty whole then py_int whole else Ok 0%Z) ;;
        cents_num <- (if nonempty cents then py_int cents else Ok 0%Z) ;;
        if (cents_num >? 0)%Z then
          let cents_word :=
            if str_eqb symbol (lit "$") || str_eqb symbol [8364%N]
            then lit "cents"
            else if str_eqb symbol [163%N] then lit "pence" else [] in
          w <- _number_to_words whole_num ;;
          c <- _number_to_words cents_num ;;
          Ok (strip (w ++ lit " " ++ currency ++ lit " and " ++ c
                       ++ lit " " ++ cents_word))
        else
          w <- _number_to_words whole_num ;;
          Ok (w ++ lit " " ++ currency)
    | _ => Raise ValueError
    end
  else
    num <- py_int amount ;;
    w <- _number_to_words num ;;
    Ok (w ++ lit " " ++ currency).

(** [(\d+(?:\.\d+)?)\s*%]: for every length of the first digits, the
    longest first, the optional part first taken, then left out. *)
Definition percent_decimal : list item :=
  [Lit 46%N; Rep is_digit 1 None true; Rep isspace 0 None false; Lit 37%N].

Definition percent_plain : list item :=
  [Rep isspace 0 None false; Lit 37%N].

Definition percent_match (prev : option char) (t : str)
  : option (list str * nat) :=
  try_lengths
    (fun j =>
       let p := prev_at prev t j in
       let after := skipn j t in
       match run percent_decimal p after with
       | Some (caps, n) =>
           Some ([firstn j t ++ [46%N] ++ nth 0 caps []], (j + n)%nat)
       | None =>
           match run percent_plain p after with
           | Some (_, n) => Some ([firstn j t], (j + n)%nat)
           | None => None
           end
       end)
    1 (span_len is_digit t).

Definition replace_percent (groups : list str) : result str :=
  let num := nth 0 groups [] in
  if existsb (N.eqb 46) num then
    match split_on 46 num with
    | [whole; decimal] =>
        n <- py_int whole ;;
        w <- _number_to_words n ;;
        ds <- map_m (fun d => k <- py_int [d] ;; _number_to_words k)
                    decimal ;;
        Ok (w ++ lit " point " ++ join (lit " ") ds ++ lit " percent")
    | _ => Raise ValueError
    end
  else
    n <- py_int num ;;
    w <- _number_to_words n ;;
    Ok (w ++ lit " percent").

(** [(\d{1,2}):(\d{2})\s*(AM|PM|am|pm|a\.m\.|p\.m\.)?]: the optional group
    comes last, so the first match of what is before it stands, and the
    group is the first alternative the rest of the text starts with, or
    takes no part in the match (the empty string stands for [None], which
    the source tests for truth only). *)
Definition time_head : list item :=
  [Rep is_digit 1 (Some 2%nat) true; Lit 58%N;
   Rep is_digit 2 (Some 2%nat) true; Rep isspace 0 None false].

Definition time_match (prev : option char) (t : str)
  : option (list str * nat) :=
  match run time_head prev t with
  | Some (caps, n) =>
      match find (fun w => starts_with w (skipn n t)) periods with
      | Some w => Some (caps ++ [w], (n + length w)%nat)
      | None => Some (caps ++ [[]], n)
      end
  | None => None
  end.

Definition replace_time (groups : list str) : result str :=
  hour <- py_int (nth 0 groups []) ;;
  minute <- py_int (nth 1 groups []) ;;
  let group3 := nth 2 groups [] in
  let period := if nonempty group3
                then str_replace (lit ".") [] (lower group3) else [] in
  time_str <-
    (if (minute =? 0)%Z then
       h <- _number_to_words hour ;;
       Ok (h ++ lit " o'clock")
     else if (minute <? 10)%Z then
       h <- _number_to_words hour ;;
       m <- _number_to_words minute ;;
       Ok (h ++ lit " oh " ++ m)
     else
       h <- _number_to_words hour ;;
       m <- _number_to_words minute ;;
       Ok (h ++ lit " " ++ m)) ;;
  if nonempty period then
    p0 <- py_index period 0%Z ;;
    p1 <- py_index period 1%Z ;;
    Ok (time_str ++ lit " " ++ [p0] ++ lit " " ++ [p1])
  else Ok time_str.

(** [(?<=[a-zA-Z])\+(?=[a-zA-Z])] *)
Definition plus_match (prev : option char) (t : str)
  : option (list str * nat) :=
  match prev, t with
  | Some a, c :: b :: _ =>
      if (c =? 43)%N && ascii_letter a && ascii_letter b
      then Some ([], 1%nat) else None
  | _, _ => None
  end.

(** [\s\+\s] *)
Definition spaced_plus : list item :=
  [Rep isspace 1 (Some 1%nat) false; Lit 43%N;
   Rep isspace 1 (Some 1%nat) false].

(** The simple symbol replacements at the end of [normalize_symbols]. *)
Definition simple_symbols (text : str) : result str :=
  let text := str_replace (lit " & ") (lit " and ") text in
  let text := str_replace (lit "&") (lit " and ") text in
  text <- scan_by plus_match (fun _ => Ok (lit " plus ")) 0 None text ;;
  let text := re_sub spaced_plus (fun _ => lit " plus ") text in
  let text := str_replace (lit " = ") (lit " equals ") text in
  let text := str_replace (lit "@") (lit " at ") text in
  let text := str_replace (lit "#") (lit " number ") text in
  Ok (str_replace (lit " / ") (lit " slash ") text).

Definition normalize_symbols (text : str) : result str :=
  text <- scan_by currency_match replace_currency 0 None text ;;
  text <- scan_by percent_match replace_percent 0 None text ;;
  text <- scan_by time_match replace_time 0 None text ;;
  simple_symbols text.

End NormalizeSymbols.

(** The characters the patterns and replacements of [normalize_symbols]
    look for, the digits aside. *)
Definition symbol_chars : str :=
  [36; 8364; 163; 165; 37; 38; 43; 61; 64; 35; 47].

(** The characters of the words of a number: the lower-case letters, the
    space and the hyphen. *)
Definition word_char (c : char) : bool :=
  ((97 <=? c) && (c <=? 122)) || (c =? 32) || (c =? 45).

(** ** Rule 9: flatten lists *)

(** A [for] loop over [l] whose body, [f], may raise. *)
Fixpoint fold_m {A B} (f : A -> B -> result A) (l : list B) (a : A)
  : result A :=
  match l with
  | [] => Ok a
  | x :: l' => a' <- f a x ;; fold_m f l' a'
  end.

(** [[-*•]] *)
Definition is_bullet (c : char) : bool :=
  (c =? 45) || (c =? 42) || (c =? 8226).

(** [.] without re.DOTALL *)
Definition not_lf (c : char) : bool := negb (c =? LF).

(** The three variables of the loop of [flatten_lists]; [result_lines] is
    the list [result] of the source. *)
Record flattener := {
  result_lines : list str;
  list_items : list str;
  in_list : bool
}.

Section FlattenLists.
Context {U : UnicodeDB}.

(** [^[\s]*[-*•]\s+(.+)$] and [^[\s]*\d+[.)]\s+(.+)$], matched against one
    line: a line holds no line feed, so the group runs to the end of the
    line, where [$] holds. *)
Definition bullet_item : list item :=
  [Rep isspace 0 None false; Rep is_bullet 1 (Some 1%nat) false;
   Rep isspace 1 None false; Rep not_lf 1 None true].

Definition numbered_item : list item :=
  [Rep isspace 0 None false; Rep is_digit 1 None false;
   Rep (fun c => (c =? 46) || (c =? 41)) 1 (Some 1%nat) false;
   Rep isspace 1 None false; Rep not_lf 1 None true].

(** [m.group(1)] of a match object, [None] for no match. *)
Definition group1 (m : option (list str * nat)) : option str :=
  match m with
  | Some (caps, _) => Some (nth 0 caps [])
  | None => None
  end.

(** The item of a line that is a list item:
    [list_match.group(1) if list_match else numbered_match.group(1)]. *)
Definition list_item (line : str) : option str :=
  let list_match := run bullet_item None line in
  let numbered_match := run numbered_item None line in
  match list_match with
  | Some _ => group1 list_match
  | None => group1 numbered_match
  end.

(** The body of the loop over the lines. *)
Definition flatten_step (st : flattener) (line : str) : result flattener :=
  match list_item line with
  | Some item =>
      Ok {| result_lines := result_lines st;
            list_items := list_items st ++ [item];
            in_list := true |}
  | None =>
      if in_list st && nonempty (list_items st) then
        prose <- _list_to_prose (list_items st) ;;
        Ok {| result_lines := result_lines st ++ [prose; line];
              list_items := [];
              in_list := false |}
      else
        Ok {| result_lines := result_lines st ++ [line];
              list_items := list_items st;
              in_list := in_list st |}
  end.

Definition flatten_lists (text : str) : result str :=
  st <- fold_m flatten_step (split_on LF text)
          {| result_lines := []; list_items := []; in_list := false |} ;;
  lines <- (if nonempty (list_items st) then
              prose <- _list_to_prose (list_items st) ;;
              Ok (result_lines st ++ [prose])
            else Ok (result_lines st)) ;;
  Ok (join [LF] lines).

End FlattenLists.

(** What stands before the item on a list line: one bullet, or digits and
    a full stop or closing parenthesis. *)
Definition list_marker (m : str) : Prop :=
  (exists b, m = [b] /\ is_bullet b = true)
  \/ (exists digits p,
        m = digits ++ [p] /\ digits <> []
        /\ Forall (fun c => (48 <=? c) && (c <=? 57) = true) digits
        /\ (p = 46 \/ p = 41)).

(** [line] is a list line with the item [item]: indentation, a marker,
    whitespace, and the item, which begins with a character that is not
    whitespace. *)
Definition item_line (line item : str) : Prop :=
  exists indent m gap,
    line = indent ++ m ++ gap ++ item
    /\ Forall (fun c => isspace c = true) indent
    /\ list_marker m
    /\ gap <> []
    /\ Forall (fun c => isspace c = true) gap
    /\ item <> []
    /\ (forall c, hd_error item = Some c -> isspace c = false)
    /\ ~ In LF line.

(** Whether a pattern item is a group, and whether a group takes a
    character at least. *)
Definition captures (it : item) : bool :=
  match it with
  | Rep _ _ _ true => true
  | _ => false
  end.

Definition takes_one (it : item) : Prop :=
  match it with
  | Rep _ lo _ true => (1 <= lo)%nat
  | _ => True
  end.

(** * Properties *)

Section SpellerProofs.
Local Open Scope Z_scope.
Import Reference.

Lemma py_index_ok {A} (l : list A) (i : Z) (d : A) :
  0 <= i < Z.of_nat (length l) ->
  py_index l i = Ok (nth (Z.to_nat i) l d).
Proof.
  intros H. unfold py_index.
  destruct (i <? 0) eqn:E; [apply Z.ltb_lt in E; lia|].
  destruct (i <? 0) eqn:E1; [discriminate|].
  destruct (Z.of_nat (length l) <=? i) eqn:E2; [apply Z.leb_le in E2; lia|].
  simpl.
  destruct (nth_error l (Z.to_nat i)) eqn:E3.
  - f_equal. symmetry. now apply nth_error_nth.
  - apply nth_error_None in E3. lia.
Qed.

Lemma py_index_out {A} (l : list A) (i : Z) :
  Z.of_nat (length l) <= i -> py_index l i = Raise IndexError.
Proof.
  intros H. unfold py_index.
  destruct (i <? 0) eqn:E; [apply Z.ltb_lt in E; lia|].
  destruct (Z.of_nat (length l) <=? i) eqn:E2; [|apply Z.leb_gt in E2; lia].
  now rewrite orb_true_r.
Qed.

Lemma number_to_words_rec_eq (d : nat) (n : Z) :
  number_to_words_rec (S d) n =
    if n =? 0 then Ok (lit "zero")
    else if n <? 0 then
      w <- number_to_words_rec d (- n) ;; Ok (lit "negative " ++ w)
    else if n <? 20 then py_index ONES n
    else if n <? 100 then
      if negb (n mod 10 =? 0) then
        t <- py_index TENS (n / 10) ;;
        o <- py_index ONES (n mod 10) ;; Ok (t ++ lit "-" ++ o)
      else py_index TENS (n / 10)
    else if n <? 1000 then
      if negb (n mod 100 =? 0) then
        h <- py_index ONES (n / 100) ;;
        r <- number_to_words_rec d (n mod 100) ;;
        Ok (h ++ lit " hundred " ++ r)
      else h <- py_index ONES (n / 100) ;; Ok (h ++ lit " hundred")
    else
      parts <- scale_loop (S (Z.to_nat (Z.log2 n)))
                 (number_to_words_rec d) n [] 0 ;;
      Ok (join (lit " ") (rev parts)).
Proof. reflexivity. Qed.

Ltac zcases :=
  repeat match goal with
    | |- context [?a <? ?b] => destruct (Z.ltb_spec a b); try lia
    | |- context [?a =? ?b] => destruct (Z.eqb_spec a b); try lia
    | |- context [?a >? ?b] => rewrite (Z.gtb_ltb a b)
    end.

Lemma words_below_hundred (d : nat) (n : Z) :
  0 < n < 100 ->
  number_to_words_rec (S d) n = Ok (below_hundred n).
Proof.
  intros H. rewrite number_to_words_rec_eq. unfold below_hundred.
  assert (Ht : 0 <= n / 10 < 10)
    by (split; [apply Z.div_pos; lia | apply Z.div_lt_upper_bound; lia]).
  assert (Ho : 0 <= n mod 10 < 10) by (apply Z.mod_pos_bound; lia).
  zcases; simpl negb; cbv iota.
  - apply py_index_ok. simpl. lia.
  - apply py_index_ok. simpl. lia.
  - rewrite (py_index_ok TENS (n / 10) []) by (simpl; lia).
    rewrite (py_index_ok ONES (n mod 10) []) by (simpl; lia).
    reflexivity.
Qed.

Lemma words_below_thousand (d : nat) (n : Z) :
  0 < n < 1000 ->
  number_to_words_rec (S (S d)) n = Ok (below_thousand n).
Proof.
  intros H. unfold below_thousand.
  destruct (Z.ltb_spec n 100).
  - apply words_below_hundred. lia.
  - rewrite number_to_words_rec_eq.
    assert (Hh : 0 <= n / 100 < 10)
      by (split; [apply Z.div_pos; lia | apply Z.div_lt_upper_bound; lia]).
    assert (Hr : 0 <= n mod 100 < 100) by (apply Z.mod_pos_bound; lia).
    zcases; simpl negb; cbv iota;
      rewrite (py_index_ok ONES (n / 100) []) by (simpl; lia).
    + reflexivity.
    + unfold bind at 1. rewrite words_below_hundred by lia. reflexivity.
Qed.

(** The groups of a number below [1000 ^ m] are at most [m]. *)
Lemma groups_length (k : nat) : forall (m : nat) (n : Z),
  n < 1000 ^ Z.of_nat m -> (length (groups k n) <= m)%nat.
Proof.
  induction k as [|k IH]; intros m n H; simpl; [lia|].
  rewrite Z.gtb_ltb. destruct (Z.ltb_spec 0 n); simpl; [|lia].
  destruct m as [|m]; [simpl in H; lia|].
  apply le_n_S, IH.
  rewrite Nat2Z.inj_succ, Z.pow_succ_r in H by lia.
  apply Z.div_lt_upper_bound; lia.
Qed.

Lemma groups_bound (k : nat) : forall (n : Z),
  Forall (fun g => 0 <= g < 1000) (groups k n).
Proof.
  induction k as [|k IH]; intros n; simpl; [constructor|].
  rewrite Z.gtb_ltb. destruct (Z.ltb_spec 0 n); constructor; auto.
  apply Z.mod_pos_bound. lia.
Qed.

(** With a scale word for each of them, the groups have their phrases. *)
Lemma phrases_defined (gs : list Z) : forall (i : nat),
  (i + length gs <= 5)%nat -> exists ps, phrases i gs = Some ps.
Proof.
  induction gs as [|g gs IH]; intros i H; simpl in *; [eauto|].
  destruct (IH (S i)) as [ps ->]; [lia|].
  destruct (g =? 0); [eauto|].
  do 5 (destruct i as [|i]; [simpl; eauto|]). lia.
Qed.

(** The loop of the source computes the phrases of the reference
    definition, as long as it is given iterations for every group. *)
Lemma scale_loop_phrases (rec : Z -> result str) (k : nat) :
  (forall g, 0 < g < 1000 -> rec g = Ok (below_thousand g)) ->
  forall (n : Z) (parts ps : list str) (i : nat),
    0 <= n < 2 ^ Z.of_nat k ->
    phrases i (groups k n) = Some ps ->
    scale_loop k rec n parts (Z.of_nat i) = Ok (parts ++ ps).
Proof.
  intros Hrec. induction k as [|k IH]; intros n parts ps i Hn Hps.
  - simpl in *. injection Hps as <-. rewrite Z.gtb_ltb.
    destruct (Z.ltb_spec 0 n); [lia|]. now rewrite app_nil_r.
  - simpl in Hps |- *. rewrite Z.gtb_ltb in *.
    destruct (Z.ltb_spec 0 n) as [Hpos|Hz].
    + simpl in Hps.
      destruct (phrases (S i) (groups k (n / 1000))) as [rest|] eqn:Hrest;
        [|discriminate].
      assert (Hn' : 0 <= n / 1000 < 2 ^ Z.of_nat k).
      { split; [apply Z.div_pos; lia|].
        rewrite Nat2Z.inj_succ, Z.pow_succ_r in Hn by lia.
        apply Z.div_lt_upper_bound; lia. }
      assert (Hg : 0 <= n mod 1000 < 1000) by (apply Z.mod_pos_bound; lia).
      replace (Z.of_nat i + 1) with (Z.of_nat (S i)) by lia.
      destruct (Z.eqb_spec (n mod 1000) 0) as [Hg0|Hg0]; simpl negb; cbv iota.
      * injection Hps as <-. now apply IH.
      * rewrite Hrec by lia. unfold bind at 1.
        destruct i as [|i].
        -- simpl in Hps. injection Hps as <-.
           change (Z.of_nat 0 >? 0) with false. cbv iota.
           rewrite (IH _ _ rest) by assumption.
           now rewrite app_nil_r, <- app_assoc.
        -- replace (Z.of_nat (S i) >? 0) with true
             by (symmetry; apply Z.gtb_lt; lia).
           cbv iota.
           unfold scale_word in Hps.
           destruct (nth_error SCALES (S i)) as [w|] eqn:Hw; [|discriminate].
           simpl in Hps. injection Hps as <-.
           rewrite (py_index_ok SCALES (Z.of_nat (S i)) []).
           2:{ assert (S i < length SCALES)%nat
                 by (apply nth_error_Some; congruence). lia. }
           unfold bind at 1. rewrite Nat2Z.id.
           rewrite (nth_error_nth _ _ _ Hw).
           rewrite (IH _ _ rest) by assumption.
           now rewrite <- !app_assoc.
    + injection Hps as <-. now rewrite app_nil_r.
Qed.
Lemma spell_nonneg_correct (d : nat) (n : Z) :
  0 <= n < 10 ^ 15 ->
  exists w, spell_nonneg n = Some w
            /\ number_to_words_rec (S (S (S d))) n = Ok w.
Proof.
  intros H. unfold spell_nonneg.
  destruct (Z.eqb_spec n 0) as [->|Hn0]; [eexists; split; reflexivity|].
  destruct (Z.ltb_spec n 1000) as [Hlt|Hge].
  - eexists; split; [reflexivity|]. apply words_below_thousand. lia.
  - set (k := S (Z.to_nat (Z.log2 n))).
    assert (Hk : 0 <= n < 2 ^ Z.of_nat k).
    { split; [lia|]. unfold k.
      rewrite Nat2Z.inj_succ, Z2Nat.id by apply Z.log2_nonneg.
      apply Z.log2_spec. lia. }
    destruct (phrases_defined (groups k n) 0) as [ps Hps].
    { rewrite Nat.add_0_l. apply (groups_length k 5). exact (proj2 H). }
    rewrite Hps. simpl option_map. eexists; split; [reflexivity|].
    rewrite number_to_words_rec_eq.
    destruct (Z.eqb_spec n 0); [lia|].
    destruct (Z.ltb_spec n 0); [lia|].
    destruct (Z.ltb_spec n 20); [lia|].
    destruct (Z.ltb_spec n 100); [lia|].
    destruct (Z.ltb_spec n 1000); [lia|].
    fold k.
    change 0 with (Z.of_nat 0) at 1.
    rewrite (scale_loop_phrases (number_to_words_rec (S (S d))) k) with (ps := ps);
      auto using words_below_thousand.
Qed.

End SpellerProofs.

(** C3, as amended.  For every integer [n] with [|n| < 10^15],
    [_number_to_words] returns the words of the reference definition: "zero"
    for 0, "negative " and the words of [-n] below 0, the lookup from 1 to
    19, tens word, hyphen and ones word from 20 to 99, "<ones> hundred" and
    the spelled remainder from 100 to 999, and from 1000 on the non-zero
    groups of three digits, each spelled and followed by its scale word,
    most significant first with single spaces between them. *)
Theorem number_to_words_matches_reference (n : Z) :
  (Z.abs n < 10 ^ 15)%Z ->
  exists w, Reference.number_words n = Some w /\ _number_to_words n = Ok w.
Proof.
  intros H. unfold Reference.number_words, _number_to_words.
  destruct (Z.ltb_spec n 0) as [Hneg|Hpos].
  - destruct (spell_nonneg_correct 0 (- n)) as (w & Hw & Hrec); [lia|].
    rewrite Hw. simpl option_map. eexists; split; [reflexivity|].
    rewrite number_to_words_rec_eq.
    destruct (Z.eqb_spec n 0); [lia|].
    destruct (Z.ltb_spec n 0); [|lia].
    rewrite Hrec. reflexivity.
  - apply (spell_nonneg_correct 1). lia.
Qed.

Lemma number_to_words_matches_reference_witness :
  (Z.abs 1234567 < 10 ^ 15)%Z
  /\ exists w, Reference.number_words 1234567 = Some w
               /\ _number_to_words 1234567 = Ok w.
Proof.
  split; [reflexivity|].
  apply (number_to_words_matches_reference 1234567). reflexivity.
Defined.

(** C3 as stated fails from [10^15] on: the source has no scale word for the
    sixth group and raises IndexError, so it has no words to match. *)
Lemma number_to_words_beyond_scales :
  _number_to_words (10 ^ 15) = Raise IndexError
  /\ Reference.number_words (10 ^ 15) = None.
Proof. split; vm_compute; reflexivity. Qed.

Section ChunkerProofs.
Context {U : UnicodeDB}.
Local Open Scope Z_scope.

Lemma len_app (a b : str) : len (a ++ b) = len a + len b.
Proof. unfold len. rewrite length_app. lia. Qed.

Lemma join_snoc (sep : str) (ps : list str) (p : str) :
  ps <> [] -> join sep (ps ++ [p]) = join sep ps ++ sep ++ p.
Proof.
  induction ps as [|q ps IH]; intros H; [contradiction|].
  destruct ps as [|q' ps]; [reflexivity|].
  change (join sep ((q :: q' :: ps) ++ [p]))
    with (q ++ sep ++ join sep ((q' :: ps) ++ [p])).
  rewrite IH by discriminate.
  change (join sep (q :: q' :: ps)) with (q ++ sep ++ join sep (q' :: ps)).
  now rewrite <- !app_assoc.
Qed.

Lemma nonempty_true {A} (l : list A) : nonempty l = true <-> l <> [].
Proof. destruct l; simpl; split; congruence. Qed.

Lemma nonempty_false {A} (l : list A) : nonempty l = false <-> l = [].
Proof. destruct l; simpl; split; congruence. Qed.

(** The state of the loop after the sentences [done]: the chunks emitted
    so far are the joins of groups that fit, the groups and the open chunk
    together are [done], and [current_length] is the length of the open
    chunk's join, within the limit. *)
Definition chunker_inv (max_chars : Z) (st : chunker) (done : list str)
  : Prop :=
  exists groups,
    chunks st = map (join (lit " ")) groups
    /\ concat groups ++ current_chunk st = done
    /\ Forall (fits max_chars) groups
    /\ current_length st = len (join (lit " ") (current_chunk st))
    /\ (current_chunk st <> [] ->
        len (join (lit " ") (current_chunk st)) <= max_chars).

Lemma concat_snoc {A} (gs : list (list A)) (g : list A) :
  concat (gs ++ [g]) = concat gs ++ g.
Proof. rewrite concat_app. simpl. now rewrite app_nil_r. Qed.

Lemma chunk_step_inv (max_chars : Z) (st : chunker) (done : list str)
      (sentence : str) :
  chunker_inv max_chars st done ->
  chunker_inv max_chars (chunk_step max_chars st sentence)
    (done ++ filter nonempty [strip sentence]).
Proof.
  intros (groups & Hch & Hdone & Hfit & Hlen & Hcur).
  unfold chunk_step. simpl filter.
  destruct (nonempty (strip sentence)) eqn:Hne; simpl negb; cbv iota.
  2:{ rewrite app_nil_r. exists groups. auto. }
  set (s := strip sentence) in *.
  destruct (Z.gtb_spec (len s) max_chars) as [Hbig|Hsmall].
  - (* an oversized sentence *)
    destruct (nonempty (current_chunk st)) eqn:Hc; simpl.
    + exists ((groups ++ [current_chunk st]) ++ [[s]]). simpl.
      apply nonempty_true in Hc.
      rewrite !map_app, !concat_snoc, Hch, <- Hdone, !app_nil_r.
      repeat split; auto; try contradiction.
      repeat (apply Forall_app; split); auto.
      * constructor; [|constructor]. split; auto.
      * constructor; [|constructor]. split; [discriminate|].
        right. exists s. split; [reflexivity|lia].
    + exists (groups ++ [[s]]). apply nonempty_false in Hc.
      rewrite !map_app, !concat_snoc, Hch, <- Hdone, Hc in *.
      rewrite !app_nil_r. simpl.
      repeat split; auto; try contradiction.
      apply Forall_app; split; auto.
      constructor; [|constructor]. split; [discriminate|].
      right. exists s. split; [reflexivity|lia].
  - destruct (nonempty (current_chunk st)) eqn:Hc.
    + apply nonempty_true in Hc.
      destruct (Z.gtb_spec (current_length st + 1 + len s) max_chars)
        as [Hover|Hin]; simpl.
      * exists (groups ++ [current_chunk st]).
        rewrite !map_app, !concat_snoc, Hch, <- Hdone, <- !app_assoc.
        repeat split; auto.
        apply Forall_app; split; auto.
        constructor; [|constructor]. split; auto.
      * exists groups. cbn [chunks current_chunk current_length].
        rewrite <- Hdone, <- !app_assoc.
        rewrite join_snoc, !len_app by assumption.
        change (len (lit " ")) with 1.
        repeat split; auto; lia.
    + apply nonempty_false in Hc.
      destruct (Z.gtb_spec (current_length st + 0 + len s) max_chars)
        as [Hover|Hin]; simpl.
      * exists groups. rewrite <- Hdone, Hc, !app_nil_r.
        repeat split; auto.
      * exists groups. rewrite <- Hdone, Hc. simpl.
        rewrite Hlen, Hc, app_nil_r. change (len (join (lit " ") [])) with 0.
        repeat split; auto; lia.
Qed.

Lemma chunk_fold_inv (max_chars : Z) (ss : list str) :
  forall st done,
    chunker_inv max_chars st done ->
    chunker_inv max_chars (fold_left (chunk_step max_chars) ss st)
      (done ++ filter nonempty (map strip ss)).
Proof.
  induction ss as [|s ss IH]; intros st done H; simpl fold_left.
  - simpl. now rewrite app_nil_r.
  - apply (chunk_step_inv max_chars st done s) in H. apply IH in H.
    rewrite <- app_assoc in H.
    replace (filter nonempty (map strip (s :: ss)))
      with (filter nonempty [strip s] ++ filter nonempty (map strip ss));
      [exact H|].
    simpl. destruct (nonempty (strip s)); reflexivity.
Qed.

(** The chunks are the joins of consecutive groups of the sentences, each
    group within the limit or a single oversized sentence. *)
Lemma chunk_text_groups (text : str) (max_chars : Z) :
  exists groups,
    chunk_text text max_chars = map (join (lit " ")) groups
    /\ concat groups = sentences text
    /\ Forall (fits max_chars) groups.
Proof.
  unfold chunk_text, sentences.
  set (st0 := {| chunks := []; current_chunk := []; current_length := 0 |}).
  assert (H0 : chunker_inv max_chars st0 []).
  { exists []. simpl. repeat split; auto. contradiction. }
  apply (chunk_fold_inv max_chars (re_split sentence_gap text)) in H0.
  simpl app in H0.
  destruct H0 as (groups & Hch & Hdone & Hfit & Hlen & Hcur).
  destruct (nonempty (current_chunk _)) eqn:Hc.
  - apply nonempty_true in Hc.
    exists (groups ++ [current_chunk
              (fold_left (chunk_step max_chars)
                 (re_split sentence_gap text) st0)]).
    rewrite map_app, concat_snoc, Hch. repeat split; auto.
    apply Forall_app; split; auto.
    constructor; [|constructor]. split; auto.
  - apply nonempty_false in Hc. rewrite Hc, app_nil_r in Hdone.
    exists groups. auto.
Qed.

(** *** Stripping *)

Lemma lstrip_split (s : str) :
  exists w, s = w ++ lstrip s /\ Forall (fun c => isspace c = true) w.
Proof.
  induction s as [|c s (w & Hs & Hw)]; [exists []; auto|].
  simpl. destruct (isspace c) eqn:E.
  - exists (c :: w). split; [simpl; congruence | auto].
  - exists []. auto.
Qed.

Lemma lstrip_head (s : str) (a : char) :
  hd_error (lstrip s) = Some a -> isspace a = false.
Proof.
  induction s as [|c s IH]; simpl; [discriminate|].
  destruct (isspace c) eqn:E; [assumption|].
  simpl. congruence.
Qed.

Lemma lstrip_all_space (s : str) :
  Forall (fun c => isspace c = true) s -> lstrip s = [].
Proof.
  induction 1 as [|c s Hc _ IH]; simpl; [reflexivity|]. now rewrite Hc.
Qed.

Lemma rstrip_split (s : str) :
  exists w, s = rstrip s ++ w /\ Forall (fun c => isspace c = true) w.
Proof.
  destruct (lstrip_split (rev s)) as (w & Hs & Hw).
  exists (rev w). split; [|now apply Forall_rev].
  unfold rstrip. rewrite <- rev_app_distr, <- Hs. now rewrite rev_involutive.
Qed.

Lemma strip_trimmed (s : str) : strip s <> [] -> trimmed (strip s).
Proof.
  intros Hne. split; [assumption|]. split; intros a Ha.
  - destruct (rstrip_split (lstrip s)) as (w & Hs & _).
    apply (lstrip_head s). rewrite Hs. fold (strip s).
    destruct (strip s); [contradiction|exact Ha].
  - unfold strip, rstrip in Ha. rewrite rev_involutive in Ha.
    exact (lstrip_head _ _ Ha).
Qed.

Lemma strip_all_space (s : str) :
  Forall (fun c => isspace c = true) s -> strip s = [].
Proof.
  intros H. unfold strip. now rewrite (lstrip_all_space s H).
Qed.

Lemma sentences_trimmed (text : str) : Forall trimmed (sentences text).
Proof.
  unfold sentences. apply Forall_forall. intros s Hs.
  apply filter_In in Hs as [Hin Hne].
  apply in_map_iff in Hin as (p & <- & _).
  apply strip_trimmed. now apply nonempty_true.
Qed.

(** *** Joins of trimmed strings *)

Lemma join_cons_app (sep p : str) (ps : list str) :
  exists tl, join sep (p :: ps) = p ++ tl.
Proof.
  destruct ps; simpl; [exists []; now rewrite app_nil_r|eauto].
Qed.

Lemma join_snoc_app (sep p : str) (ps : list str) :
  exists front, join sep (ps ++ [p]) = front ++ p.
Proof.
  destruct ps as [|q ps]; [exists []; reflexivity|].
  rewrite join_snoc by discriminate.
  exists (join sep (q :: ps) ++ sep). now rewrite <- app_assoc.
Qed.

Lemma hd_error_app_nonempty {A} (a b : list A) :
  a <> [] -> hd_error (a ++ b) = hd_error a.
Proof. destruct a; [contradiction|reflexivity]. Qed.

Lemma join_trimmed (sep : str) (g : list str) :
  g <> [] -> Forall trimmed g -> trimmed (join sep g).
Proof.
  intros Hne Hall.
  destruct g as [|p ps]; [contradiction|].
  destruct (join_cons_app sep p ps) as (tl & Htl).
  assert (Hp : trimmed p) by now inversion Hall.
  destruct (exists_last Hne) as (front & q & Hq).
  assert (Hqt : trimmed q).
  { rewrite Hq in Hall. apply Forall_app in Hall as [_ Hl]. now inversion Hl. }
  destruct (join_snoc_app sep q front) as (fr & Hfr).
  rewrite <- Hq in Hfr.
  destruct Hp as (Hp0 & Hp1 & _), Hqt as (Hq0 & _ & Hq2).
  split; [|split].
  - rewrite Htl. destruct p; [contradiction|discriminate].
  - intros a. rewrite Htl, hd_error_app_nonempty by assumption. apply Hp1.
  - intros a. rewrite Hfr, rev_app_distr, hd_error_app_nonempty; [apply Hq2|].
    intros E. apply (f_equal (@rev char)) in E.
    rewrite rev_involutive in E. contradiction.
Qed.

(** *** The pieces of a split *)

Lemma split_scan_chars (pattern : list item) (t : str) :
  forall skip prev,
    Forall (fun piece => incl piece t) (split_scan pattern skip prev t).
Proof.
  induction t as [|c t IH]; intros skip prev; simpl.
  - constructor; [apply incl_refl|constructor].
  - assert (Hup : forall l, Forall (fun piece => incl piece t) l ->
                           Forall (fun piece => incl piece (c :: t)) l).
    { intros l. apply Forall_impl. intros a Ha. now apply incl_tl. }
    destruct skip as [|k]; [|apply Hup, IH].
    destruct (run pattern prev (c :: t)) as [[caps [|n]]|].
    + specialize (IH 0%nat (Some c)).
      destruct (split_scan pattern 0 (Some c) t) as [|p ps].
      * constructor; [|constructor]. intros x [<-|[]]. now left.
      * inversion IH as [|? ? Hp Hps]; subst. constructor.
        -- intros x [<-|Hx]; [now left|right; now apply Hp].
        -- now apply Hup.
    + constructor; [intros x []|apply Hup, IH].
    + specialize (IH 0%nat (Some c)).
      destruct (split_scan pattern 0 (Some c) t) as [|p ps].
      * constructor; [|constructor]. intros x [<-|[]]. now left.
      * inversion IH as [|? ? Hp Hps]; subst. constructor.
        -- intros x [<-|Hx]; [now left|right; now apply Hp].
        -- now apply Hup.
Qed.

Lemma sentences_of_blank (text : str) :
  Forall (fun c => isspace c = true) text -> sentences text = [].
Proof.
  intros H. unfold sentences, re_split.
  pose proof (split_scan_chars sentence_gap text 0 None) as Hp.
  induction Hp as [|p ps Hin _ IH]; [reflexivity|].
  simpl. rewrite strip_all_space; [exact IH|].
  apply Forall_forall. intros c Hc.
  rewrite Forall_forall in H. apply H. now apply Hin.
Qed.

(** With a limit that is not positive every sentence is oversized. *)
Lemma chunk_text_per_sentence (text : str) (max_chars : Z) :
  max_chars <= 0 -> chunk_text text max_chars = sentences text.
Proof.
  intros Hmax.
  destruct (chunk_text_groups text max_chars) as (groups & Hch & Hcat & Hfit).
  pose proof (sentences_trimmed text) as Htr. rewrite <- Hcat in Htr.
  rewrite Hch, <- Hcat. clear Hch Hcat.
  induction Hfit as [|g gs [Hne Hg] _ IH]; [reflexivity|].
  cbn [map concat] in Htr |- *. apply Forall_app in Htr as [Htg Htgs].
  rewrite IH by assumption. f_equal.
  destruct Hg as [Hle|(s & -> & _)]; [|reflexivity].
  destruct (join_trimmed (lit " ") g Hne Htg) as (Hj & _).
  unfold len in Hle. destruct (join (lit " ") g); [contradiction|].
  simpl length in Hle. lia.
Qed.

End ChunkerProofs.

(** C2.  For every text and every positive [max_chars], the chunks are the
    joins, by single spaces, of consecutive groups of the non-empty stripped
    sentences of the text in their order; every group is within
    [max_chars], except a group made of one sentence that is longer than
    [max_chars], which is a chunk of its own. *)
Theorem chunk_text_bounded_in_order {U : UnicodeDB} (text : str)
        (max_chars : Z) :
  (0 < max_chars)%Z ->
  exists groups,
    chunk_text text max_chars = map (join (lit " ")) groups
    /\ concat groups = sentences text
    /\ Forall (fun group =>
                 group <> []
                 /\ ((len (join (lit " ") group) <= max_chars)%Z
                     \/ exists s, group = [s] /\ (len s > max_chars)%Z))
              groups.
Proof. intros _. apply chunk_text_groups. Qed.

Lemma chunk_text_bounded_in_order_witness :
  (0 < 30)%Z
  /\ exists groups,
       @chunk_text basic_db
         (lit "First sentence. Second sentence. Third sentence.") 30
       = map (join (lit " ")) groups
       /\ concat groups
          = @sentences basic_db
              (lit "First sentence. Second sentence. Third sentence.")
       /\ Forall (fun group =>
                    group <> []
                    /\ ((len (join (lit " ") group) <= 30)%Z
                        \/ exists s, group = [s] /\ (len s > 30)%Z))
                 groups.
Proof.
  split; [reflexivity|].
  apply (@chunk_text_bounded_in_order basic_db). reflexivity.
Defined.

(** C10.  For every text and every [max_chars], every chunk is a non-empty
    string that neither starts nor ends with whitespace, and a text of
    whitespace only (the empty text included) has no chunks. *)
Theorem chunk_text_chunks_trimmed {U : UnicodeDB} (text : str)
        (max_chars : Z) :
  Forall (fun chunk =>
            chunk <> []
            /\ (forall a, hd_error chunk = Some a -> isspace a = false)
            /\ (forall a, hd_error (rev chunk) = Some a -> isspace a = false))
         (chunk_text text max_chars)
  /\ (Forall (fun c => isspace c = true) text ->
      chunk_text text max_chars = []).
Proof.
  destruct (chunk_text_groups text max_chars) as (groups & Hch & Hcat & Hfit).
  pose proof (sentences_trimmed text) as Htr. rewrite <- Hcat in Htr.
  split.
  - rewrite Hch. clear Hch Hcat.
    induction Hfit as [|g gs [Hne _] _ IH]; [constructor|].
    simpl in Htr. apply Forall_app in Htr as [Hg Hgs].
    constructor; [|now apply IH].
    now apply (join_trimmed (lit " ") g Hne).
  - intros Hblank. rewrite (sentences_of_blank text Hblank) in Hcat.
    rewrite Hch. destruct Hfit as [|g gs [Hne _] _]; [reflexivity|].
    simpl in Hcat. apply app_eq_nil in Hcat as [-> _]. contradiction.
Qed.

(** C9 as stated fails: with [max_chars = 0] the chunker raises nothing and
    returns one chunk per sentence, and the constructor keeps a chunk size
    of 0 as it is given. *)
Lemma chunk_text_zero_returns :
  @chunk_text basic_db (lit "One. Two.") 0 = [lit "One."; lit "Two."]
  /\ chunk_size (SpeechTextConverter_init 0) = 0%Z.
Proof. split; vm_compute; reflexivity. Qed.

(** C9, as amended.  Nothing validates the chunk size: the constructor
    stores whatever it is given, and for [max_chars <= 0] [chunk_text]
    returns the non-empty stripped sentences of the text, each as a chunk of
    its own; [convert_and_chunk] of a converter built with such a size
    returns that list for the converted text whenever [convert] returns. *)
Theorem chunk_text_nonpositive_per_sentence {U : UnicodeDB} (text : str)
        (max_chars : Z) :
  (max_chars <= 0)%Z ->
  chunk_text text max_chars = sentences text
  /\ chunk_size (SpeechTextConverter_init max_chars) = max_chars
  /\ forall strip_markdown strip_control_characters remove_emojis
            replace_special_unicode flatten_lists normalize_symbols
            acronym_order,
       convert_and_chunk strip_markdown strip_control_characters
         remove_emojis replace_special_unicode flatten_lists
         normalize_symbols acronym_order
         (SpeechTextConverter_init max_chars) text
       = (converted <- convert strip_markdown strip_control_characters
                         remove_emojis replace_special_unicode flatten_lists
                         normalize_symbols acronym_order text ;;
          Ok (sentences converted)).
Proof.
  intros Hmax. split; [now apply chunk_text_per_sentence|].
  split; [reflexivity|]. intros. unfold convert_and_chunk.
  destruct (convert _ _ _ _ _ _ _ text); simpl; [|reflexivity..].
  now rewrite chunk_text_per_sentence.
Qed.

Lemma chunk_text_nonpositive_per_sentence_witness :
  (-5 <= 0)%Z
  /\ @chunk_text basic_db (lit "One. Two.  Three!") (-5)
     = @sentences basic_db (lit "One. Two.  Three!").
Proof.
  split; [discriminate|].
  apply (@chunk_text_nonpositive_per_sentence basic_db). discriminate.
Defined.

Section ProseProofs.
Context {U : UnicodeDB}.

Lemma prose_item_lowered (item : str) :
  item <> [] -> prose_item item = Ok (lowered_item item).
Proof.
  destruct item as [|c0 [|c1 rest]]; [contradiction| |]; intros _; simpl.
  - rewrite andb_true_r. now destruct (isupper c0).
  - now destruct (isupper c0 && negb (isupper c1)).
Qed.

Lemma prose_parts_entries (items : list str) :
  Forall (fun item => item <> []) items ->
  forall i,
    prose_parts i items
    = Ok (map (fun p => prose_entry (fst p) (snd p))
              (combine (seq i (length items)) items)).
Proof.
  induction 1 as [|item items Hne _ IH]; intros i; [reflexivity|].
  simpl. rewrite (prose_item_lowered item Hne). simpl.
  rewrite IH. reflexivity.
Qed.

End ProseProofs.

(** C6 as stated fails: the whole item is lower-cased, not its leading word
    only; "Paris" does not keep its capital. *)
Lemma list_to_prose_lowers_rest_of_item :
  @_list_to_prose basic_db [lit "Visit Paris"; lit "Go home"]
  = Ok (lit "Firstly, visit paris Secondly, go home").
Proof. vm_compute. reflexivity. Qed.

(** C6, as amended.  A block of two or more (non-empty) items becomes the
    items joined by single spaces, each behind its connector ("Firstly,"
    to "Tenthly,", then "Additionally,"), and an item whose first character
    is upper case and whose second character is not is lower-cased as a
    whole, any other item is left as it is; a block of one item is that
    item. *)
Theorem list_to_prose_entries {U : UnicodeDB} (items : list str) :
  Forall (fun item => item <> []) items ->
  (forall item, items = [item] -> _list_to_prose items = Ok item)
  /\ ((2 <= length items)%nat ->
      _list_to_prose items
      = Ok (join (lit " ")
              (map (fun p => prose_entry (fst p) (snd p))
                   (combine (seq 0 (length items)) items)))).
Proof.
  intros Hne. split.
  - intros item ->. reflexivity.
  - intros Hlen. destruct items as [|a [|b items]]; simpl in Hlen; try lia.
    unfold _list_to_prose. rewrite (prose_parts_entries _ Hne). reflexivity.
Qed.

Lemma list_to_prose_entries_witness :
  Forall (fun item => item <> []) [lit "Buy milk"; lit "USA travel"; lit "rest"]
  /\ @_list_to_prose basic_db [lit "Buy milk"; lit "USA travel"; lit "rest"]
     = Ok (join (lit " ")
             (map (fun p => @prose_entry basic_db (fst p) (snd p))
                  (combine (seq 0 3)
                     [lit "Buy milk"; lit "USA travel"; lit "rest"]))).
Proof.
  assert (H : Forall (fun item : str => item <> [])
                [lit "Buy milk"; lit "USA travel"; lit "rest"])
    by (repeat constructor; discriminate).
  split; [exact H|].
  apply (@list_to_prose_entries basic_db _ H). simpl. lia.
Defined.

(** C5: a closing bracket with no opening one before it, and an opening
    bracket with none after it, stay in the output. *)
Lemma dangerous_punctuation_keeps_unmatched_brackets :
  @remove_dangerous_punctuation basic_db (lit "a]b") = lit "a]b"
  /\ @remove_dangerous_punctuation basic_db (lit "[[c] [d") = lit "[c [d".
Proof. split; vm_compute; reflexivity. Qed.

(** C1: a numeric character reference beyond U+10FFFF makes [strip_html]
    raise ValueError (OverflowError beyond a C int), and an integer of
    sixteen digits makes the number pass raise IndexError. *)
Lemma stages_raise :
  @strip_html basic_db (lit "&#1114112;") = Raise ValueError
  /\ @strip_html basic_db (lit "&#4294967296;") = Raise OverflowError
  /\ @normalize_numbers basic_db (lit "1000000000000000") = Raise IndexError.
Proof. repeat split; vm_compute; reflexivity. Qed.

(** ** The scans *)

Section ScanLemmas.
Context {U : UnicodeDB}.

Lemma prev_at_cons (prev : option char) (c : char) (t : str) (k : nat) :
  prev_at (Some c) t k = prev_at prev (c :: t) (S k).
Proof. destruct k; reflexivity. Qed.

Lemma prev_at_skipn (prev : option char) (t : str) (j k : nat) :
  (j <= length t)%nat ->
  prev_at (prev_at prev t j) (skipn j t) k = prev_at prev t (j + k).
Proof.
  revert prev j. induction t as [|c t IH]; intros prev j Hj.
  - simpl in Hj. assert (j = 0)%nat as -> by lia. reflexivity.
  - destruct j as [|j]; [reflexivity|]. simpl in Hj.
    rewrite <- prev_at_cons. simpl skipn.
    rewrite IH by lia. simpl plus. apply prev_at_cons.
Qed.

(** Passing over the [k] characters of a match. *)
Lemma sub_scan_skip (pat : list item) (repl : list str -> str) (t : str) :
  forall k prev,
    sub_scan pat repl k prev t
    = sub_scan pat repl 0 (prev_at prev t k) (skipn k t).
Proof.
  induction t as [|c t IH]; intros k prev.
  - now rewrite skipn_nil.
  - destruct k as [|k]; [reflexivity|].
    cbn [sub_scan skipn]. rewrite IH. now rewrite <- prev_at_cons.
Qed.

(** One step of [re.sub]: replace the match at the head of the text and go
    on behind it, or keep the first character and go on with the next. *)
Lemma sub_scan_cons (pat : list item) (repl : list str -> str)
      (prev : option char) (c : char) (t : str) :
  sub_scan pat repl 0 prev (c :: t)
  = match run pat prev (c :: t) with
    | Some (caps, S n) =>
        repl caps ++ sub_scan pat repl 0 (prev_at (Some c) t n) (skipn n t)
    | _ => c :: sub_scan pat repl 0 (Some c) t
    end.
Proof.
  cbn [sub_scan].
  destruct (run pat prev (c :: t)) as [[caps [|n]]|]; try reflexivity.
  now rewrite sub_scan_skip.
Qed.

Lemma sub_scan_m_skip (pat : list item) (repl : list str -> result str)
      (t : str) :
  forall k prev,
    sub_scan_m pat repl k prev t
    = sub_scan_m pat repl 0 (prev_at prev t k) (skipn k t).
Proof.
  induction t as [|c t IH]; intros k prev.
  - now rewrite skipn_nil.
  - destruct k as [|k]; [reflexivity|].
    cbn [sub_scan_m skipn]. rewrite IH. now rewrite <- prev_at_cons.
Qed.

Lemma sub_scan_m_cons (pat : list item) (repl : list str -> result str)
      (prev : option char) (c : char) (t : str) :
  sub_scan_m pat repl 0 prev (c :: t)
  = match run pat prev (c :: t) with
    | Some (caps, S n) =>
        r <- repl caps ;;
        rest <- sub_scan_m pat repl 0 (prev_at (Some c) t n) (skipn n t) ;;
        Ok (r ++ rest)
    | _ =>
        rest <- sub_scan_m pat repl 0 (Some c) t ;;
        Ok (c :: rest)
    end.
Proof.
  cbn [sub_scan_m].
  destruct (run pat prev (c :: t)) as [[caps [|n]]|]; try reflexivity.
  now rewrite sub_scan_m_skip.
Qed.

(** A text in which the pattern matches nowhere is left as it is. *)
Lemma sub_scan_no_match (pat : list item) (repl : list str -> str)
      (t : str) :
  forall prev, no_match pat prev t -> sub_scan pat repl 0 prev t = t.
Proof.
  induction t as [|c t IH]; intros prev H; [reflexivity|].
  destruct H as [Hrun Hrest].
  rewrite sub_scan_cons, Hrun. f_equal. now apply IH.
Qed.

(** *** Greedy repetitions *)

Lemma try_lengths_eq (rest : nat -> option (list str * nat)) (lo j : nat) :
  try_lengths rest lo j
  = if (j <? lo)%nat then None
    else match rest j with
         | Some r => Some r
         | None => match j with
                   | O => None
                   | S j' => try_lengths rest lo j'
                   end
         end.
Proof. destruct j; reflexivity. Qed.

Lemma try_lengths_first (rest : nat -> option (list str * nat))
      (lo j : nat) (r : list str * nat) :
  (lo <= j)%nat -> rest j = Some r -> try_lengths rest lo j = Some r.
Proof.
  intros Hlo Hr. rewrite try_lengths_eq, Hr.
  destruct (Nat.ltb_spec j lo); [lia|reflexivity].
Qed.

Lemma try_lengths_none (rest : nat -> option (list str * nat)) (lo : nat) :
  forall j,
    (forall i, (lo <= i <= j)%nat -> rest i = None) ->
    try_lengths rest lo j = None.
Proof.
  induction j as [|j IH]; intros H; rewrite try_lengths_eq.
  - destruct (Nat.ltb_spec 0 lo); [reflexivity|]. now rewrite H by lia.
  - destruct (Nat.ltb_spec (S j) lo); [reflexivity|].
    rewrite H by lia. apply IH. intros i Hi. apply H. lia.
Qed.

Lemma try_lengths_short (rest : nat -> option (list str * nat))
      (lo j : nat) :
  (j < lo)%nat -> try_lengths rest lo j = None.
Proof.
  intros H. rewrite try_lengths_eq.
  destruct (Nat.ltb_spec j lo); [reflexivity|lia].
Qed.

(** A pattern that is one repetition matches the whole run, if that is
    long enough. *)
Lemma run_single_rep (p : char -> bool) (lo : nat) (prev : option char)
      (t : str) :
  run [Rep p lo None false] prev t
  = if (span_len p t <? lo)%nat then None
    else Some ([], (span_len p t + 0)%nat).
Proof.
  cbn [run]. rewrite try_lengths_eq.
  destruct (Nat.ltb_spec (span_len p t) lo); reflexivity.
Qed.

Lemma span_len_le (p : char -> bool) (t : str) :
  (span_len p t <= length t)%nat.
Proof. induction t as [|c t IH]; simpl; [lia|]. destruct (p c); simpl; lia. Qed.

(** The character behind a run is not of the run. *)
Lemma span_len_stop (p : char -> bool) (t : str) (d : char) :
  hd_error (skipn (span_len p t) t) = Some d -> p d = false.
Proof.
  induction t as [|c t IH]; simpl; [discriminate|].
  destruct (p c) eqn:E; simpl; [exact IH|]. now intros [= <-].
Qed.

Lemma span_len_all (p : char -> bool) (t : str) (j : nat) (c : char) :
  (j < span_len p t)%nat -> nth_error t j = Some c -> p c = true.
Proof.
  revert j. induction t as [|x t IH]; intros j; simpl; [lia|].
  destruct (p x) eqn:E; [|lia].
  destruct j as [|j]; simpl; [now intros _ [= <-]|].
  intros Hj. apply IH. lia.
Qed.

End ScanLemmas.

(** ** Whitespace normalisation *)

Section ChainLemmas.
Variable R : char -> char -> Prop.

Lemma chain_tail {a : char} {t : str} : chain R (a :: t) -> chain R t.
Proof. destruct t; simpl; tauto. Qed.

Lemma chain_cons (a : char) (t : str) :
  (forall b, hd_error t = Some b -> R a b) -> chain R t -> chain R (a :: t).
Proof. destruct t; simpl; auto. Qed.

Lemma chain_head {a b : char} {t : str} : chain R (a :: b :: t) -> R a b.
Proof. simpl; tauto. Qed.

Lemma hd_rev_cons (a : char) (u : str) :
  u <> [] -> hd_error (rev (a :: u)) = hd_error (rev u).
Proof.
  intros H. simpl. apply hd_error_app_nonempty.
  intros E. apply H. apply (f_equal (@rev char)) in E.
  now rewrite rev_involutive in E.
Qed.

Lemma chain_app (u v : str) :
  chain R (u ++ v)
  <-> chain R u /\ chain R v
      /\ (forall a b, hd_error (rev u) = Some a -> hd_error v = Some b -> R a b).
Proof.
  induction u as [|a u IH].
  - simpl. split; [intros H; repeat split; auto; discriminate | tauto].
  - destruct u as [|a' u].
    + simpl app. destruct v as [|b v].
      * simpl. split; [intros _; repeat split; auto; discriminate | tauto].
      * split.
        -- intros H. repeat split; [exact (chain_tail H)|].
           simpl. intros ? ? [= <-] [= <-]. exact (chain_head H).
        -- intros (_ & Hv & Hl). apply chain_cons; [|assumption].
           intros b' [= <-]. now apply Hl.
    + change ((a :: a' :: u) ++ v) with (a :: a' :: (u ++ v)).
      change (a' :: (u ++ v)) with ((a' :: u) ++ v).
      rewrite (hd_rev_cons a (a' :: u)) by discriminate.
      split.
      * intros H. pose proof (chain_head H) as Ha.
        apply chain_tail in H. apply IH in H as (Hu & Hv & Hl).
        repeat split; auto.
      * intros ((Ha & Hu) & Hv & Hl). split; [assumption|].
        apply IH. repeat split; auto.
Qed.

Lemma chain_nth (t : str) :
  chain R t ->
  forall i a b, nth_error t i = Some a -> nth_error t (S i) = Some b -> R a b.
Proof.
  induction t as [|x t IH]; intros H i a b Ha Hb; [destruct i; discriminate|].
  destruct i as [|i].
  - destruct t as [|y t]; [discriminate|].
    simpl in Ha, Hb. injection Ha as <-. injection Hb as <-.
    exact (chain_head H).
  - apply (IH (chain_tail H) i); assumption.
Qed.

End ChainLemmas.

Arguments chain_tail {R a t} _.
Arguments chain_head {R a b t} _.
Arguments chain_nth {R t} _ _ _ _ _ _.

Lemma chain_impl_in (R R' : char -> char -> Prop) (t : str) :
  (forall a b, In a t -> In b t -> R a b -> R' a b) ->
  chain R t -> chain R' t.
Proof.
  induction t as [|a t IH]; intros Himp H; [exact I|].
  destruct t as [|b t]; [exact I|].
  destruct H as [Hab H]. split.
  - apply Himp; simpl; auto.
  - apply IH; [|assumption]. intros x y Hx Hy. apply Himp; now right.
Qed.

Section WhitespaceProofs.
Context {U : UnicodeDB}.

Lemma isspace_cases (c : char) :
  isspace c = true -> hspace c = true \/ c = LF.
Proof.
  intros H. unfold hspace. rewrite H.
  destruct (N.eqb_spec c LF); [now right|now left].
Qed.

Lemma hspace_isspace (c : char) : hspace c = true -> isspace c = true.
Proof. unfold hspace. now intros [H _]%andb_prop. Qed.

Lemma hspace_not_lf (c : char) : hspace c = true -> c <> LF.
Proof.
  unfold hspace. intros [_ H]%andb_prop ->. discriminate.
Qed.

Lemma hd_error_skipn_in (t : str) (k : nat) (d : char) :
  hd_error (skipn k t) = Some d -> In d t.
Proof.
  intros H. destruct (skipn k t) as [|x s] eqn:E; [discriminate|].
  injection H as ->. rewrite <- (firstn_skipn k t), E.
  apply in_or_app. right. now left.
Qed.

(** One step of the scan for [blanks]. *)
Lemma blanks_cons (prev : option char) (c : char) (t : str) :
  sub_scan blanks (fun _ => [SPACE]) 0 prev (c :: t)
  = if hspace c
    then SPACE :: sub_scan blanks (fun _ => [SPACE]) 0
                    (prev_at (Some c) t (span_len hspace t))
                    (skipn (span_len hspace t) t)
    else c :: sub_scan blanks (fun _ => [SPACE]) 0 (Some c) t.
Proof.
  rewrite sub_scan_cons. unfold blanks at 1.
  rewrite run_single_rep. fold hspace. cbn [span_len].
  destruct (hspace c); [|reflexivity].
  cbn [Nat.ltb Nat.leb Nat.add]. now rewrite Nat.add_0_r.
Qed.

(** Behind [blanks]: the whitespace of a line is single spaces. *)
Lemma blanks_out (n : nat) :
  forall t prev,
    (length t <= n)%nat ->
    Forall (fun c => hspace c = true -> c = SPACE)
           (sub_scan blanks (fun _ => [SPACE]) 0 prev t)
    /\ chain lone (sub_scan blanks (fun _ => [SPACE]) 0 prev t)
    /\ (forall c, hd_error t = Some c -> hspace c = false ->
                  hd_error (sub_scan blanks (fun _ => [SPACE]) 0 prev t)
                  = Some c).
Proof.
  induction n as [|n IH]; intros t prev Hn.
  - destruct t; [|simpl in Hn; lia].
    simpl. repeat split; auto; discriminate.
  - destruct t as [|c t]; [simpl; repeat split; auto; discriminate|].
    simpl in Hn. rewrite blanks_cons.
    destruct (hspace c) eqn:Hc.
    + (* a run of blanks, replaced by one space *)
      set (k := span_len hspace t).
      pose proof (span_len_le hspace t) as Hk. fold k in Hk.
      destruct (IH (skipn k t) (prev_at (Some c) t k)) as (Hw & Hch & Hhd).
      { rewrite length_skipn. lia. }
      repeat split.
      * constructor; auto.
      * apply chain_cons; [|assumption].
        intros b Hb Hsp.
        destruct (skipn k t) as [|d s] eqn:Hs; [discriminate|].
        assert (Hd : hspace d = false).
        { apply (span_len_stop hspace t). fold k. now rewrite Hs. }
        rewrite (Hhd d eq_refl Hd) in Hb. now injection Hb as <-.
      * intros c' [= <-] Hc'. congruence.
    + destruct (IH t (Some c)) as (Hw & Hch & Hhd); [lia|].
      repeat split.
      * constructor; [congruence|assumption].
      * apply chain_cons; [|assumption].
        intros b _ Hsp. subst c. discriminate.
      * intros c' [= <-] _. reflexivity.
Qed.

(** *** Lines *)

Lemma split_on_cons (sep : char) (t : str) :
  exists p ps, split_on sep t = p :: ps.
Proof.
  destruct t as [|c t]; [simpl; eauto|]. simpl.
  destruct (c =? sep); [eauto|]. destruct (split_on sep t); eauto.
Qed.

Lemma join_cons2 (sep l : str) (l2 : str) (ls : list str) :
  join sep (l :: l2 :: ls) = l ++ sep ++ join sep (l2 :: ls).
Proof. reflexivity. Qed.

Lemma join_split_on (sep : char) (t : str) :
  join [sep] (split_on sep t) = t.
Proof.
  induction t as [|c t IH]; [reflexivity|]. simpl.
  destruct (split_on_cons sep t) as (p & ps & E). rewrite E in IH |- *.
  destruct (N.eqb_spec c sep) as [->|Hne].
  - rewrite join_cons2, IH. reflexivity.
  - destruct ps as [|p2 ps]; [simpl in *; now rewrite IH|].
    rewrite join_cons2 in *. rewrite <- IH. reflexivity.
Qed.

Lemma split_on_no_sep (sep : char) (t : str) :
  Forall (fun l => ~ In sep l) (split_on sep t).
Proof.
  induction t as [|c t IH]; simpl; [repeat constructor; auto|].
  destruct (N.eqb_spec c sep) as [->|Hne]; [constructor; auto|].
  destruct (split_on sep t) as [|p ps]; [repeat constructor; simpl; intuition|].
  inversion IH; subst. constructor; [|assumption].
  simpl. intuition.
Qed.

Lemma Forall_join (P : char -> Prop) (sep : str) (ls : list str) :
  Forall P sep -> Forall (Forall P) ls -> Forall P (join sep ls).
Proof.
  intros Hsep. induction 1 as [|l ls Hl Hls IH]; [constructor|].
  destruct ls as [|l2 ls]; [assumption|].
  rewrite join_cons2. repeat (apply Forall_app; split); auto.
Qed.

Lemma Forall_join_inv (P : char -> Prop) (sep : str) (ls : list str) :
  Forall P (join sep ls) -> Forall (Forall P) ls.
Proof.
  induction ls as [|l ls IH]; intros H; [constructor|].
  destruct ls as [|l2 ls]; [repeat constructor; assumption|].
  rewrite join_cons2 in H.
  apply Forall_app in H as [Hl H]. apply Forall_app in H as [_ H].
  constructor; auto.
Qed.

Lemma chain_join_inv (R : char -> char -> Prop) (sep : str) (ls : list str) :
  chain R (join sep ls) -> Forall (chain R) ls.
Proof.
  induction ls as [|l ls IH]; intros H; [constructor|].
  destruct ls as [|l2 ls]; [repeat constructor; assumption|].
  rewrite join_cons2 in H.
  apply chain_app in H as (Hl & H & _). apply chain_app in H as (_ & H & _).
  constructor; auto.
Qed.

Lemma strip_segment (l : str) :
  exists w1 w2, l = w1 ++ strip l ++ w2.
Proof.
  destruct (lstrip_split l) as (w1 & H1 & _).
  destruct (rstrip_split (lstrip l)) as (w2 & H2 & _).
  exists w1, w2. unfold strip. now rewrite <- H2.
Qed.

Lemma strip_clean (l : str) :
  ~ In LF l ->
  Forall (fun c => hspace c = true -> c = SPACE) l ->
  chain lone l ->
  clean (strip l).
Proof.
  intros Hlf Hw Hch.
  destruct (strip_segment l) as (w1 & w2 & E).
  rewrite E in Hlf, Hw, Hch.
  repeat split.
  - intros Hin. apply Hlf. apply in_or_app. right.
    apply in_or_app. now left.
  - apply Forall_app in Hw as [_ Hw]. now apply Forall_app in Hw as [Hw _].
  - apply chain_app in Hch as (_ & Hch & _).
    now apply chain_app in Hch as (Hch & _).
  - destruct (strip l) eqn:Es; [now left|right].
    rewrite <- Es. apply strip_trimmed. now rewrite Es.
Qed.

Lemma clean_plain (l : str) : clean l -> plain_spaces l.
Proof.
  intros (Hlf & Hw & _). unfold plain_spaces.
  rewrite Forall_forall in *. intros c Hc Hs.
  destruct (isspace_cases c Hs) as [Hh| ->]; [left; now apply Hw|now right].
Qed.

Lemma clean_apart (l : str) : clean l -> chain apart l.
Proof.
  intros (Hlf & Hw & Hch & _).
  apply (chain_impl_in lone); [|assumption].
  rewrite Forall_forall in Hw.
  assert (Hns : forall x, In x l -> isspace x = true -> x = SPACE).
  { intros x Hx Hs. destruct (isspace_cases x Hs) as [Hh| ->]; [auto|].
    contradiction. }
  intros a b Ha Hb Hab. split.
  - intros ->. specialize (Hab eq_refl).
    destruct (isspace b) eqn:Hs; [|reflexivity].
    rewrite (Hns b Hb Hs) in Hab. discriminate.
  - intros ->. destruct (isspace a) eqn:Hs; [|reflexivity].
    rewrite (Hns a Ha Hs) in Hab. specialize (Hab eq_refl). discriminate.
Qed.

Lemma trimmed_head_not_space (l : str) (b : char) :
  trimmed l -> hd_error l = Some b -> b <> SPACE.
Proof. intros (_ & H & _) Hb ->. specialize (H _ Hb). discriminate. Qed.

Lemma trimmed_last_not_space (l : str) (a : char) :
  trimmed l -> hd_error (rev l) = Some a -> a <> SPACE.
Proof. intros (_ & _ & H) Ha ->. specialize (H _ Ha). discriminate. Qed.

Lemma clean_join_head (ls : list str) (b : char) :
  Forall clean ls -> hd_error (join [LF] ls) = Some b -> b <> SPACE.
Proof.
  intros H. destruct H as [|l ls Hl Hls]; [discriminate|].
  destruct ls as [|l2 ls].
  - simpl. destruct Hl as (_ & _ & _ & [->|Ht]); [discriminate|].
    now apply trimmed_head_not_space.
  - rewrite join_cons2.
    destruct Hl as (_ & _ & _ & [->|Ht]).
    + simpl. intros [= <-]. discriminate.
    + rewrite hd_error_app_nonempty by apply Ht.
      now apply trimmed_head_not_space.
Qed.

Lemma clean_join (ls : list str) :
  Forall clean ls ->
  plain_spaces (join [LF] ls) /\ chain apart (join [LF] ls).
Proof.
  intros H. split.
  - apply Forall_join; [constructor; [intros _; now right|constructor]|].
    apply (Forall_impl _ clean_plain H).
  - induction H as [|l ls Hl Hls IH]; [exact I|].
    destruct ls as [|l2 ls]; [now apply clean_apart|].
    rewrite join_cons2. apply chain_app. split; [now apply clean_apart|].
    split.
    + apply chain_cons; [|assumption].
      intros b Hb. split; [discriminate|].
      intros ->. now apply (clean_join_head _ _ Hls) in Hb.
    + intros a b Ha [= <-]. split; [|discriminate].
      intros ->. destruct Hl as (_ & _ & _ & [->|Ht]); [discriminate|].
      now apply (trimmed_last_not_space _ _ Ht) in Ha.
Qed.

(** Behind the stripping of the lines. *)
Lemma lines_out (t : str) :
  Forall (fun c => hspace c = true -> c = SPACE) t ->
  chain lone t ->
  plain_spaces (join [LF] (map strip (split_on LF t)))
  /\ chain apart (join [LF] (map strip (split_on LF t))).
Proof.
  intros Hw Hch. apply clean_join.
  rewrite <- (join_split_on LF t) in Hw, Hch.
  apply Forall_join_inv in Hw. apply chain_join_inv in Hch.
  pose proof (split_on_no_sep LF t) as Hlf.
  induction (split_on LF t) as [|l ls IH]; [constructor|].
  inversion Hw; inversion Hch; inversion Hlf; subst.
  constructor; [now apply strip_clean|now apply IH].
Qed.

(** *** Blank lines *)

Lemma is_lf_eq (c : char) : is_lf c = true -> c = LF.
Proof. unfold is_lf. now intros H%N.eqb_eq. Qed.

Lemma blank_lines_cons (prev : option char) (c : char) (t : str) :
  sub_scan blank_lines (fun _ => [LF; LF]) 0 prev (c :: t)
  = if (span_len is_lf (c :: t) <? 3)%nat
    then c :: sub_scan blank_lines (fun _ => [LF; LF]) 0 (Some c) t
    else LF :: LF :: sub_scan blank_lines (fun _ => [LF; LF]) 0
                       (prev_at (Some c) t (span_len is_lf t))
                       (skipn (span_len is_lf t) t).
Proof.
  rewrite sub_scan_cons. unfold blank_lines at 1.
  rewrite run_single_rep. fold is_lf. cbn [span_len].
  destruct (is_lf c); [|reflexivity].
  destruct (Nat.ltb_spec (S (span_len is_lf t)) 3); [reflexivity|].
  cbn [Nat.add app]. now rewrite Nat.add_0_r.
Qed.

Lemma span_len_behind (p : char -> bool) (t : str) :
  span_len p (skipn (span_len p t) t) = 0%nat.
Proof.
  pose proof (span_len_stop p t) as H.
  destruct (skipn (span_len p t) t) as [|d s]; [reflexivity|].
  simpl. now rewrite (H d eq_refl).
Qed.

Lemma chain_skipn (R : char -> char -> Prop) (k : nat) (t : str) :
  chain R t -> chain R (skipn k t).
Proof.
  intros H. rewrite <- (firstn_skipn k t) in H.
  now apply chain_app in H as (_ & H & _).
Qed.

Lemma plain_spaces_skipn (k : nat) (t : str) :
  plain_spaces t -> plain_spaces (skipn k t).
Proof.
  intros H. unfold plain_spaces in *.
  rewrite <- (firstn_skipn k t) in H. now apply Forall_app in H as [_ H].
Qed.

Lemma hd_error_skipn (t : str) (k : nat) :
  hd_error (skipn k t) = nth_error t k.
Proof.
  revert k. induction t as [|c t IH]; intros [|k]; try reflexivity.
  apply IH.
Qed.

(** Behind [blank_lines]: runs of line feeds are at most two long. *)
Lemma blank_lines_out (n : nat) :
  forall t prev,
    (length t <= n)%nat ->
    plain_spaces t -> chain apart t ->
    plain_spaces (sub_scan blank_lines (fun _ => [LF; LF]) 0 prev t)
    /\ chain apart (sub_scan blank_lines (fun _ => [LF; LF]) 0 prev t)
    /\ no_triple_lf (sub_scan blank_lines (fun _ => [LF; LF]) 0 prev t)
    /\ (span_len is_lf (sub_scan blank_lines (fun _ => [LF; LF]) 0 prev t)
        <= span_len is_lf t)%nat
    /\ hd_error (sub_scan blank_lines (fun _ => [LF; LF]) 0 prev t)
       = hd_error t.
Proof.
  induction n as [|n IH]; intros t prev Hn Hp Hc.
  - destruct t; [|simpl in Hn; lia]. simpl. repeat split; auto.
  - destruct t as [|c t]; [simpl; repeat split; auto|].
    simpl in Hn. rewrite blank_lines_cons.
    destruct (Nat.ltb_spec (span_len is_lf (c :: t)) 3) as [Hlt|Hge].
    + destruct (IH t (Some c)) as (Hp' & Hc' & H3 & Hs & Hh);
        [lia|now inversion Hp|exact (chain_tail Hc)|].
      assert (Hsp : (span_len is_lf
                       (c :: sub_scan blank_lines (fun _ => [LF; LF]) 0
                               (Some c) t)
                     <= span_len is_lf (c :: t))%nat).
      { cbn [span_len]. destruct (is_lf c); lia. }
      repeat split; auto.
      * constructor; [now inversion Hp|assumption].
      * apply chain_cons; [|assumption].
        intros b Hb. rewrite Hh in Hb.
        destruct t as [|b' t]; [discriminate|].
        injection Hb as <-. exact (chain_head Hc).
      * lia.
    + cbn [span_len] in Hge.
      destruct (is_lf c) eqn:Elf; [|lia].
      apply is_lf_eq in Elf. subst c.
      set (k := span_len is_lf t) in *.
      pose proof (span_len_le is_lf t) as Hk. fold k in Hk.
      destruct (IH (skipn k t) (prev_at (Some LF) t k))
        as (Hp' & Hc' & H3 & Hs & Hh);
        [rewrite length_skipn; lia | now apply plain_spaces_skipn, (Forall_inv_tail Hp)
        | exact (chain_skipn _ k _ (chain_tail Hc)) |].
      pose proof (span_len_behind is_lf t) as Hb. fold k in Hb.
      rewrite Hb in Hs.
      assert (Hz : span_len is_lf
                     (sub_scan blank_lines (fun _ => [LF; LF]) 0
                        (prev_at (Some LF) t k) (skipn k t)) = 0%nat) by lia.
      assert (Ek : k = span_len is_lf t) by reflexivity. clearbody k.
      repeat split.
      * constructor; [intros _; now right|].
        constructor; [intros _; now right|assumption].
      * discriminate.
      * discriminate.
      * apply chain_cons; [|assumption].
        intros d Hd. rewrite Hh, hd_error_skipn in Hd.
        destruct k as [|k']; [lia|].
        assert (Hx : exists x, nth_error t k' = Some x) .
        { destruct (nth_error t k') eqn:E; [eauto|].
          apply nth_error_None in E.
          assert (nth_error t (S k') = None) by (apply nth_error_None; lia).
          congruence. }
        destruct Hx as (x & Hx).
        assert (x = LF) as ->.
        { apply is_lf_eq. apply (span_len_all is_lf t k'); [|assumption].
          lia. }
        apply (chain_nth (chain_tail Hc) k'); assumption.
      * cbn [span_len]. change (is_lf LF) with true. cbv iota. lia.
      * cbn [span_len]. change (is_lf LF) with true. cbv iota. lia.
      * assumption.
      * cbn [span_len]. change (is_lf LF) with true. cbv iota. lia.
Qed.

(** *** The final strip *)

Lemma span_len_app_le (p : char -> bool) (a b : str) :
  (span_len p a <= span_len p (a ++ b))%nat.
Proof.
  induction a as [|x a IH]; simpl; [lia|]. destruct (p x); lia.
Qed.

Lemma no_triple_lf_app (a b : str) :
  no_triple_lf (a ++ b) -> no_triple_lf a /\ no_triple_lf b.
Proof.
  induction a as [|x a IH]; [simpl; auto|].
  intros [Hs H]. apply IH in H as [Ha Hb]. split; [|assumption].
  split; [|assumption].
  pose proof (span_len_app_le is_lf (x :: a) b). simpl app in *. lia.
Qed.

Lemma strip_canonical (w : str) :
  plain_spaces w -> chain apart w -> no_triple_lf w -> canonical (strip w).
Proof.
  intros Hp Hc H3.
  destruct (strip_segment w) as (w1 & w2 & E).
  rewrite E in Hp, Hc, H3. unfold plain_spaces in Hp.
  apply Forall_app in Hp as [_ Hp]. apply Forall_app in Hp as [Hp _].
  apply chain_app in Hc as (_ & Hc & _). apply chain_app in Hc as (Hc & _).
  apply no_triple_lf_app in H3 as [_ H3].
  apply no_triple_lf_app in H3 as [H3 _].
  repeat split; auto.
  destruct (strip w) eqn:Es; [now left|right].
  rewrite <- Es. apply strip_trimmed. now rewrite Es.
Qed.

(** [normalize_whitespace] produces canonical text. *)
Lemma normalize_whitespace_canonical (t : str) :
  canonical (normalize_whitespace t).
Proof.
  unfold normalize_whitespace, re_sub.
  set (t3 := str_replace [TAB] [SPACE] _).
  destruct (blanks_out (length t3) t3 None (le_n _)) as (Hw & Hl & _).
  destruct (lines_out _ Hw Hl) as (Hp & Ha).
  set (t5 := join [LF] _) in *.
  destruct (blank_lines_out (length t5) t5 None (le_n _) Hp Ha)
    as (Hp' & Ha' & H3 & _).
  now apply strip_canonical.
Qed.

(** *** Canonical text is left as it is *)

Lemma str_replace_absent (c0 : char) (old new t : str) :
  ~ In c0 t -> str_replace (c0 :: old) new t = t.
Proof.
  intros H. unfold str_replace, re_sub. apply sub_scan_no_match.
  generalize (@None char).
  induction t as [|c t IH]; intros prev; [exact I|].
  split; [|apply IH; intros Hin; apply H; now right].
  cbn [map run].
  destruct (N.eqb_spec c0 c) as [->|Hne]; [|reflexivity].
  exfalso. apply H. now left.
Qed.

Lemma plain_spaces_absent (t : str) (c : char) :
  plain_spaces t -> isspace c = true -> c <> SPACE -> c <> LF -> ~ In c t.
Proof.
  intros Hp Hs H1 H2 Hin. unfold plain_spaces in Hp.
  rewrite Forall_forall in Hp. destruct (Hp c Hin Hs); contradiction.
Qed.

Lemma blanks_id (t : str) :
  plain_spaces t -> chain apart t ->
  forall prev, sub_scan blanks (fun _ => [SPACE]) 0 prev t = t.
Proof.
  induction t as [|c t IH]; intros Hp Hc prev; [reflexivity|].
  rewrite blanks_cons.
  assert (Ht : sub_scan blanks (fun _ => [SPACE]) 0 (Some c) t = t).
  { apply IH; [now inversion Hp|exact (chain_tail Hc)]. }
  destruct (hspace c) eqn:Eh; [|now rewrite Ht].
  assert (c = SPACE) as ->.
  { inversion Hp as [|? ? Hc0 _]; subst.
    destruct (Hc0 (hspace_isspace c Eh)) as [|E]; [assumption|].
    now apply hspace_not_lf in Eh. }
  assert (Hz : span_len hspace t = 0%nat).
  { destruct t as [|b t]; [reflexivity|]. simpl.
    destruct (chain_head Hc) as [Hb _]. specialize (Hb eq_refl).
    unfold hspace. now rewrite Hb. }
  rewrite Hz. simpl. now rewrite Ht.
Qed.

Lemma blank_lines_id (t : str) :
  no_triple_lf t ->
  forall prev, sub_scan blank_lines (fun _ => [LF; LF]) 0 prev t = t.
Proof.
  induction t as [|c t IH]; intros H prev; [reflexivity|].
  destruct H as [Hs H3]. rewrite blank_lines_cons.
  destruct (Nat.ltb_spec (span_len is_lf (c :: t)) 3); [|lia].
  now rewrite IH.
Qed.

Lemma lstrip_id (l : str) :
  (forall a, hd_error l = Some a -> isspace a = false) -> lstrip l = l.
Proof.
  destruct l as [|c l]; [reflexivity|]. intros H. simpl.
  now rewrite (H c eq_refl).
Qed.

Lemma strip_id (l : str) : l = [] \/ trimmed l -> strip l = l.
Proof.
  intros [->|(_ & Hh & Hl)]; [reflexivity|].
  unfold strip, rstrip. rewrite (lstrip_id l Hh), (lstrip_id (rev l) Hl).
  apply rev_involutive.
Qed.

(** In canonical text every line is stripped already. *)
Lemma lines_trimmed (ls : list str) :
  Forall (fun l => ~ In LF l) ls ->
  plain_spaces (join [LF] ls) ->
  chain apart (join [LF] ls) ->
  (forall b, hd_error (hd [] ls) = Some b -> isspace b = false) ->
  (forall a, hd_error (rev (last ls [])) = Some a -> isspace a = false) ->
  Forall (fun l => l = [] \/ trimmed l) ls.
Proof.
  induction ls as [|l ls IH]; intros Hlf Hp Hc Hfirst Hlast; [constructor|].
  destruct ls as [|l2 ls].
  - constructor; [|constructor].
    destruct l as [|c l]; [now left|right]. repeat split; auto. discriminate.
  - rewrite join_cons2 in Hp, Hc.
    unfold plain_spaces in Hp. apply Forall_app in Hp as [Hpl Hp].
    apply chain_app in Hc as (Hcl & Hc & Hlink).
    inversion Hlf as [|? ? Hlfl Hlf']; subst.
    assert (Hns : forall x l', ~ In LF l' -> Forall
                    (fun c => isspace c = true -> c = SPACE \/ c = LF) l' ->
                    In x l' -> x <> SPACE -> isspace x = false).
    { intros x l' Hnl Hpl' Hx Hx'. rewrite Forall_forall in Hpl'.
      destruct (isspace x) eqn:Es; [|reflexivity].
      destruct (Hpl' x Hx Es) as [ | -> ]; contradiction. }
    constructor.
    + destruct l as [|c l]; [now left|right].
      repeat split; [discriminate|exact Hfirst|].
      intros a Ha. apply (Hns a (c :: l)); auto.
      * apply in_rev. destruct (rev (c :: l)); [discriminate|].
        injection Ha as ->. now left.
      * intros ->. destruct (Hlink SPACE LF Ha eq_refl) as [Hx _].
        specialize (Hx eq_refl). discriminate.
    + apply IH; auto.
      * now inversion Hp.
      * exact (chain_tail Hc).
      * intros b Hb. simpl hd in Hb.
        inversion Hlf' as [|? ? Hlf2 _]; subst.
        destruct l2 as [|c2 l2]; [discriminate|]. injection Hb as ->.
        apply (Hns b (b :: l2)); auto.
        -- apply Forall_app in Hp as [_ Hp2].
           apply Forall_join_inv in Hp2. now inversion Hp2.
        -- now left.
        -- intros ->.
           match type of Hc with
           | chain apart (_ ++ ?J) =>
               assert (Hj : exists tl, J = SPACE :: tl)
                 by (destruct ls; simpl; eauto)
           end.
           destruct Hj as (tl & Hj). rewrite Hj in Hc.
           destruct (chain_head Hc) as [_ Hx]. specialize (Hx eq_refl).
           discriminate.
Qed.

Lemma lines_id (y : str) :
  canonical y -> join [LF] (map strip (split_on LF y)) = y.
Proof.
  intros (Hp & Hc & _ & Hends).
  rewrite <- (join_split_on LF y) at 2. f_equal.
  assert (H : Forall (fun l => l = [] \/ trimmed l) (split_on LF y)).
  { apply lines_trimmed.
    - apply split_on_no_sep.
    - now rewrite join_split_on.
    - now rewrite join_split_on.
    - intros b Hb.
      destruct Hends as [->|(_ & Hh & _)]; [discriminate|]. apply Hh.
      rewrite <- (join_split_on LF y).
      destruct (split_on LF y) as [|l ls]; [discriminate|].
      simpl hd in Hb. destruct (join_cons_app [LF] l ls) as (tl & ->).
      rewrite hd_error_app_nonempty; [assumption|].
      intros ->. discriminate.
    - intros a Ha.
      destruct Hends as [->|(_ & _ & Hl)]; [discriminate|]. apply Hl.
      rewrite <- (join_split_on LF y).
      destruct (split_on_cons LF y) as (p & ps & E). rewrite E in *.
      destruct (@exists_last _ (p :: ps)) as (front & q & Eq);
        [discriminate|].
      rewrite Eq in *. rewrite last_last in Ha.
      destruct (join_snoc_app [LF] q front) as (fr & ->).
      rewrite rev_app_distr, hd_error_app_nonempty; [assumption|].
      intros E'. rewrite E' in Ha. discriminate. }
  induction H as [|l ls Hl _ IH]; [reflexivity|].
  simpl. now rewrite (strip_id l Hl), IH.
Qed.

Lemma normalize_whitespace_id (y : str) :
  canonical y -> normalize_whitespace y = y.
Proof.
  intros Hy. pose proof Hy as (Hp & Hc & H3 & Hends).
  unfold normalize_whitespace, re_sub.
  assert (Hcr : ~ In CR y)
    by (apply plain_spaces_absent; [assumption|reflexivity|discriminate..]).
  assert (Htab : ~ In TAB y)
    by (apply plain_spaces_absent; [assumption|reflexivity|discriminate..]).
  rewrite (str_replace_absent CR [LF] [LF] y Hcr).
  rewrite (str_replace_absent CR [] [LF] y Hcr).
  rewrite (str_replace_absent TAB [] [SPACE] y Htab).
  rewrite (blanks_id y Hp Hc), (lines_id y Hy), (blank_lines_id y H3).
  now apply strip_id.
Qed.

End WhitespaceProofs.

(** C8.  [normalize_whitespace] is idempotent: applied to its own output it
    returns that output unchanged. *)
Theorem normalize_whitespace_idempotent {U : UnicodeDB} (text : str) :
  normalize_whitespace (normalize_whitespace text) = normalize_whitespace text.
Proof.
  apply normalize_whitespace_id, normalize_whitespace_canonical.
Qed.

(** ** Patterns of whole words *)

Section WordLemmas.
Context {U : UnicodeDB}.

Lemma bind_assoc {A B C} (r : result A) (f : A -> result B)
      (g : B -> result C) :
  bind (bind r f) g = bind r (fun a => bind (f a) g).
Proof. destruct r; reflexivity. Qed.

Lemma try_lengths_some (rest : nat -> option (list str * nat)) (lo : nat) :
  forall j r,
    try_lengths rest lo j = Some r ->
    exists i, (lo <= i <= j)%nat /\ rest i = Some r
              /\ forall i', (i < i' <= j)%nat -> rest i' = None.
Proof.
  induction j as [|j IH]; intros r H; rewrite try_lengths_eq in H.
  - destruct (Nat.ltb_spec 0 lo); [discriminate|].
    destruct (rest 0%nat) eqn:E; [|discriminate]. injection H as <-.
    exists 0%nat. repeat split; auto; lia.
  - destruct (Nat.ltb_spec (S j) lo); [discriminate|].
    destruct (rest (S j)) eqn:E.
    + injection H as <-. exists (S j). repeat split; auto; lia.
    + destruct (IH r H) as (i & Hi & Hr & Hn).
      exists i. repeat split; auto; try lia.
      intros i' Hi'. destruct (Nat.eq_dec i' (S j)) as [->|]; [assumption|].
      apply Hn. lia.
Qed.

(** A match is a prefix of the text. *)
Lemma run_length_le (items : list item) :
  forall prev t caps n,
    run items prev t = Some (caps, n) -> (n <= length t)%nat.
Proof.
  induction items as [|it items IH]; intros prev t caps n H.
  - injection H as <- <-. lia.
  - assert (Hone : forall ok,
               match t with
               | x :: t' =>
                   if ok x : bool then
                     match run items (Some x) t' with
                     | Some (caps, n) => Some (caps, S n)
                     | None => None
                     end
                   else None
               | [] => None
               end = Some (caps, n) -> (n <= length t)%nat).
    { intros ok Hok. destruct t as [|x t']; [discriminate|].
      destruct (ok x); [|discriminate].
      destruct (run items (Some x) t') as [[caps' n']|] eqn:E; [|discriminate].
      injection Hok as <- <-. apply IH in E. simpl. lia. }
    destruct it as [c|c|p lo hi capture| |p]; cbn [run] in H.
    + now apply (Hone (N.eqb c)).
    + now apply (Hone (ci_eq c)).
    + apply try_lengths_some in H as (j & Hj & Hr & _).
      destruct (run items (prev_at prev t j) (skipn j t))
        as [[caps' n']|] eqn:E; [|discriminate].
      injection Hr as <- <-. apply IH in E. rewrite length_skipn in E.
      pose proof (span_len_le p t).
      assert (j <= span_len p t)%nat by (destruct hi; lia). lia.
    + destruct (boundary prev t); [eauto|discriminate].
    + destruct prev as [x|]; [|discriminate].
      destruct (p x); [eauto|discriminate].
Qed.

Lemma prev_at_app (prev : option char) (a b : str) (j : nat) :
  (j <= length a)%nat -> prev_at prev (a ++ b) j = prev_at prev a j.
Proof.
  destruct j as [|j]; [reflexivity|]. simpl. intros H.
  apply nth_error_app1. lia.
Qed.

Lemma skipn_app_le (a b : str) (j : nat) :
  (j <= length a)%nat -> skipn j (a ++ b) = skipn j a ++ b.
Proof.
  intros H. rewrite skipn_app.
  replace (j - length a)%nat with 0%nat by lia. reflexivity.
Qed.

Lemma firstn_app_le (a b : str) (j : nat) :
  (j <= length a)%nat -> firstn j (a ++ b) = firstn j a.
Proof.
  intros H. rewrite firstn_app.
  replace (j - length a)%nat with 0%nat by lia.
  simpl. apply app_nil_r.
Qed.

(** The scan of a text splits at a separator, for a pattern that stops at
    separators. *)
Lemma sub_scan_m_split (sep : char -> bool) (pat : list item)
      (repl : list str -> result str) :
  stops_at sep pat ->
  forall n s prev x rest,
    (length s <= n)%nat ->
    sep x = true ->
    sub_scan_m pat repl 0 prev (s ++ x :: rest)
    = (p <- sub_scan_m pat repl 0 prev s ;;
       r <- sub_scan_m pat repl 0 (Some x) rest ;;
       Ok (p ++ x :: r)).
Proof.
  intros Hstop. induction n as [|n IH]; intros s prev x rest Hn Hx.
  - destruct s; [|simpl in Hn; lia]. simpl app.
    rewrite sub_scan_m_cons.
    pose proof (Hstop prev [] x rest Hx) as Hs. simpl app in Hs. rewrite Hs.
    destruct (run pat prev []) as [[caps [|m]]|] eqn:E; try reflexivity.
    apply run_length_le in E. simpl in E. lia.
  - destruct s as [|c s].
    + simpl app. rewrite sub_scan_m_cons.
      pose proof (Hstop prev [] x rest Hx) as Hs. simpl app in Hs. rewrite Hs.
      destruct (run pat prev []) as [[caps [|m]]|] eqn:E; try reflexivity.
      apply run_length_le in E. simpl in E. lia.
    + simpl in Hn. change ((c :: s) ++ x :: rest) with (c :: (s ++ x :: rest)).
      rewrite !sub_scan_m_cons.
      change (c :: (s ++ x :: rest)) with ((c :: s) ++ x :: rest).
      rewrite (Hstop prev (c :: s) x rest Hx).
      destruct (run pat prev (c :: s)) as [[caps [|m]]|] eqn:E.
      * rewrite (IH s (Some c) x rest) by (assumption || lia).
        rewrite !bind_assoc.
        destruct (sub_scan_m pat repl 0 (Some c) s); try reflexivity.
        simpl. destruct (sub_scan_m pat repl 0 (Some x) rest); reflexivity.
      * apply run_length_le in E. simpl in E.
        rewrite skipn_app_le, prev_at_app by lia.
        rewrite (IH (skipn m s) _ x rest)
          by (try assumption; rewrite length_skipn; lia).
        rewrite !bind_assoc.
        destruct (repl caps) as [r1| |]; try reflexivity. simpl.
        destruct (sub_scan_m pat repl 0 (prev_at (Some c) s m) (skipn m s));
          try reflexivity.
        simpl. destruct (sub_scan_m pat repl 0 (Some x) rest); try reflexivity.
        simpl. now rewrite <- app_assoc.
      * rewrite (IH s (Some c) x rest) by (assumption || lia).
        rewrite !bind_assoc.
        destruct (sub_scan_m pat repl 0 (Some c) s); try reflexivity.
        simpl. destruct (sub_scan_m pat repl 0 (Some x) rest); reflexivity.
Qed.

(** A replacement that cannot raise. *)
Lemma sub_scan_m_pure (pat : list item) (f : list str -> str) (t : str) :
  forall k prev,
    sub_scan_m pat (fun caps => Ok (f caps)) k prev t
    = Ok (sub_scan pat f k prev t).
Proof.
  induction t as [|c t IH]; intros k prev; [reflexivity|].
  cbn [sub_scan_m sub_scan]. destruct k as [|k]; [|apply IH].
  destruct (run pat prev (c :: t)) as [[caps [|m]]|];
    rewrite IH; reflexivity.
Qed.

Lemma sub_scan_split (sep : char -> bool) (pat : list item)
      (f : list str -> str) :
  stops_at sep pat ->
  forall s prev x rest,
    sep x = true ->
    sub_scan pat f 0 prev (s ++ x :: rest)
    = sub_scan pat f 0 prev s ++ x :: sub_scan pat f 0 (Some x) rest.
Proof.
  intros Hstop s prev x rest Hx.
  pose proof (sub_scan_m_split sep pat (fun caps => Ok (f caps)) Hstop
                (length s) s prev x rest (le_n _) Hx) as H.
  rewrite !sub_scan_m_pure in H. simpl in H. now injection H.
Qed.

(** A separator starts no match, whatever is before it. *)
Lemma sub_scan_m_sep_head (sep : char -> bool) (pat : list item)
      (repl : list str -> result str) :
  stops_at sep pat ->
  forall prev prev' x rest,
    sep x = true ->
    sub_scan_m pat repl 0 prev (x :: rest)
    = sub_scan_m pat repl 0 prev' (x :: rest).
Proof.
  intros Hstop prev prev' x rest Hx. rewrite !sub_scan_m_cons.
  pose proof (Hstop prev [] x rest Hx) as Hs. simpl app in Hs. rewrite Hs.
  pose proof (Hstop prev' [] x rest Hx) as Hs'. simpl app in Hs'. rewrite Hs'.
  destruct (run pat prev []) as [[caps [|m]]|] eqn:E;
    destruct (run pat prev' []) as [[caps' [|m']]|] eqn:E';
    try reflexivity;
    try (apply run_length_le in E; simpl in E; lia);
    try (apply run_length_le in E'; simpl in E'; lia).
Qed.

(** *** Patterns that stop at separators *)

Lemma try_lengths_ext (rest rest' : nat -> option (list str * nat))
      (lo : nat) :
  forall j,
    (forall i, (i <= j)%nat -> rest i = rest' i) ->
    try_lengths rest lo j = try_lengths rest' lo j.
Proof.
  induction j as [|j IH]; intros H.
  - rewrite (try_lengths_eq rest lo 0), (try_lengths_eq rest' lo 0).
    now rewrite H by lia.
  - rewrite (try_lengths_eq rest lo (S j)), (try_lengths_eq rest' lo (S j)).
    rewrite H by lia. rewrite IH; [reflexivity|]. intros i Hi. apply H. lia.
Qed.

Lemma boundary_app_sep (sep : char -> bool) (prev : option char)
      (b : str) (x : char) (rest : str) :
  (forall c, sep c = true -> is_word c = false) ->
  sep x = true ->
  boundary prev (b ++ x :: rest) = boundary prev b.
Proof.
  intros Hsep Hx. unfold boundary. destruct b as [|y b]; [|reflexivity].
  simpl. now rewrite (Hsep x Hx).
Qed.

Lemma span_len_app_stop (p : char -> bool) (b : str) (x : char)
      (rest : str) :
  p x = false -> span_len p (b ++ x :: rest) = span_len p b.
Proof.
  intros Hx. induction b as [|y b IH]; simpl; [now rewrite Hx|].
  now rewrite IH.
Qed.

Lemma avoids_stops (sep : char -> bool) (pat : list item) :
  (forall c, sep c = true -> is_word c = false) ->
  Forall (avoids sep) pat -> stops_at sep pat.
Proof.
  intros Hsep. induction 1 as [|it pat Hit _ IH]; intros prev b x rest Hx.
  - reflexivity.
  - assert (Hone : forall ok : char -> bool,
               ok x = false ->
               match b ++ x :: rest with
               | y :: t' =>
                   if ok y then
                     match run pat (Some y) t' with
                     | Some (caps, n) => Some (caps, S n)
                     | None => None
                     end
                   else None
               | [] => None
               end
               = match b with
                 | y :: t' =>
                     if ok y then
                       match run pat (Some y) t' with
                       | Some (caps, n) => Some (caps, S n)
                       | None => None
                       end
                     else None
                 | [] => None
                 end).
    { intros ok Hok. destruct b as [|y b]; simpl; [now rewrite Hok|].
      now rewrite (IH (Some y) b x rest Hx). }
    destruct it as [c|c|p lo hi capture| |p]; cbn [run]; simpl in Hit.
    + apply Hone. destruct (N.eqb_spec c x) as [->|]; [congruence|reflexivity].
    + apply Hone. destruct (ci_eq c x) eqn:E; [|reflexivity].
      apply Hit in E. congruence.
    + rewrite (span_len_app_stop p b x rest (Hit x Hx)).
      apply try_lengths_ext. intros i Hi.
      pose proof (span_len_le p b).
      assert (i <= length b)%nat by (destruct hi; lia).
      rewrite prev_at_app, skipn_app_le, firstn_app_le by assumption.
      now rewrite (IH _ (skipn i b) x rest Hx).
    + rewrite (boundary_app_sep sep prev b x rest Hsep Hx).
      now rewrite (IH prev b x rest Hx).
    + destruct prev as [z|]; [|reflexivity].
      now rewrite (IH (Some z) b x rest Hx).
Qed.

(** *** A text in three parts *)

Lemma last_char_snoc (s : str) (x : char) : last_char (s ++ [x]) = Some x.
Proof. unfold last_char. now rewrite rev_app_distr. Qed.

Lemma last_char_cases (s : str) :
  (s = [] /\ last_char s = None)
  \/ exists s' x, s = s' ++ [x] /\ last_char s = Some x.
Proof.
  destruct s as [|c s]; [now left|right].
  destruct (@exists_last _ (c :: s)) as (s' & x & E); [discriminate|].
  exists s', x. split; [assumption|]. rewrite E. apply last_char_snoc.
Qed.

Lemma sub_scan_m_three (sep : char -> bool) (pat : list item)
      (repl : list str -> result str) (pre mid post : str) :
  stops_at sep pat ->
  opt_sep sep (last_char pre) ->
  opt_sep sep (hd_error post) ->
  sub_scan_m pat repl 0 None (pre ++ mid ++ post)
  = (p <- sub_scan_m pat repl 0 None pre ;;
     m <- sub_scan_m pat repl 0 (last_char pre) mid ;;
     q <- sub_scan_m pat repl 0 None post ;;
     Ok (p ++ m ++ q)).
Proof.
  intros Hstop Hpre Hpost.
  assert (Hmid : forall prev,
             sub_scan_m pat repl 0 prev (mid ++ post)
             = (m <- sub_scan_m pat repl 0 prev mid ;;
                q <- sub_scan_m pat repl 0 None post ;;
                Ok (m ++ q))).
  { intros prev. destruct post as [|y post].
    - rewrite app_nil_r. simpl.
      destruct (sub_scan_m pat repl 0 prev mid); simpl; try reflexivity.
      now rewrite app_nil_r.
    - simpl in Hpost.
      rewrite (sub_scan_m_split sep pat repl Hstop (length mid) mid prev y
                 post (le_n _) Hpost).
      pose proof (sub_scan_m_split sep pat repl Hstop 0 [] None y post
                    (le_n _) Hpost) as E.
      simpl app in E. rewrite E. simpl.
      destruct (sub_scan_m pat repl 0 prev mid); simpl; try reflexivity.
      destruct (sub_scan_m pat repl 0 (Some y) post); reflexivity. }
  destruct (last_char_cases pre) as [[-> E]|(s & x & -> & E)]; rewrite E.
  - simpl. apply Hmid.
  - rewrite E in Hpre. simpl in Hpre. rewrite <- app_assoc. simpl app.
    rewrite (sub_scan_m_split sep pat repl Hstop (length s) s None x
               (mid ++ post) (le_n _) Hpre).
    rewrite (sub_scan_m_split sep pat repl Hstop (length s) s None x
               [] (le_n _) Hpre).
    rewrite Hmid, !bind_assoc. simpl.
    destruct (sub_scan_m pat repl 0 None s); simpl; try reflexivity.
    destruct (sub_scan_m pat repl 0 (Some x) mid); simpl; try reflexivity.
    destruct (sub_scan_m pat repl 0 None post); simpl; try reflexivity.
    now rewrite <- app_assoc.
Qed.

Lemma sub_scan_three (sep : char -> bool) (pat : list item)
      (f : list str -> str) (pre mid post : str) :
  stops_at sep pat ->
  opt_sep sep (last_char pre) ->
  opt_sep sep (hd_error post) ->
  sub_scan pat f 0 None (pre ++ mid ++ post)
  = sub_scan pat f 0 None pre
    ++ sub_scan pat f 0 (last_char pre) mid
    ++ sub_scan pat f 0 None post.
Proof.
  intros Hstop Hpre Hpost.
  pose proof (sub_scan_m_three sep pat (fun caps => Ok (f caps))
                pre mid post Hstop Hpre Hpost) as H.
  rewrite !sub_scan_m_pure in H. simpl in H. now injection H.
Qed.

(** The scan keeps a separator at the end of a text and one at its
    start. *)
Lemma sub_scan_last_char (sep : char -> bool) (pat : list item)
      (f : list str -> str) (pre : str) :
  stops_at sep pat ->
  opt_sep sep (last_char pre) ->
  last_char (sub_scan pat f 0 None pre) = last_char pre.
Proof.
  intros Hstop Hpre.
  destruct (last_char_cases pre) as [[-> E]|(s & x & -> & E)];
    [reflexivity|].
  rewrite E in *. simpl in Hpre.
  rewrite (sub_scan_split sep pat f Hstop s None x [] Hpre). simpl.
  apply last_char_snoc.
Qed.

Lemma sub_scan_hd (sep : char -> bool) (pat : list item)
      (f : list str -> str) (post : str) :
  stops_at sep pat ->
  opt_sep sep (hd_error post) ->
  hd_error (sub_scan pat f 0 None post) = hd_error post.
Proof.
  intros Hstop Hpost. destruct post as [|y post]; [reflexivity|].
  simpl in Hpost.
  pose proof (sub_scan_split sep pat f Hstop [] None y post Hpost) as E.
  simpl app in E. now rewrite E.
Qed.

End WordLemmas.

(** ** The number pass *)

Section CharLemmas.
Context {U : UnicodeDB}.

Ltac props :=
  repeat match goal with
    | H : _ && _ = true |- _ => apply andb_prop in H as [? ?]
    | H : _ || _ = true |- _ => apply orb_prop in H as [?|?]
    | H : (_ <=? _) = true |- _ => apply N.leb_le in H
    | H : (_ =? _) = true |- _ => apply N.eqb_eq in H
    end.

Lemma ascii_alnum_lt (c : char) : ascii_alnum c = true -> c < 128.
Proof. unfold ascii_alnum. intros H. props; lia. Qed.

Lemma is_word_ascii (c : char) : ascii_alnum c = true -> is_word c = true.
Proof.
  intros H. unfold is_word.
  now rewrite (isalnum_ascii c (ascii_alnum_lt c H)), H.
Qed.

Lemma ascii_lower_alnum (p c : char) :
  ascii_alnum p = true -> ascii_lower c = ascii_lower p ->
  ascii_alnum c = true.
Proof.
  unfold ascii_lower, ascii_isupper, ascii_alnum. intros Hp E.
  destruct (N.leb_spec 65 c), (N.leb_spec c 90), (N.leb_spec 65 p),
    (N.leb_spec p 90), (N.leb_spec 48 c), (N.leb_spec c 57),
    (N.leb_spec 97 c), (N.leb_spec c 122), (N.leb_spec 48 p),
    (N.leb_spec p 57), (N.leb_spec 97 p), (N.leb_spec p 122);
    simpl in *; try reflexivity; try discriminate; lia.
Qed.

(** What a letter or digit of a pattern matches is of a word. *)
Lemma ci_eq_word (p c : char) :
  ascii_alnum p = true -> ci_eq p c = true -> is_word c = true.
Proof.
  intros Hp H. unfold ci_eq in H.
  destruct isalnum_caseless as (H1 & H2 & H3 & H4).
  apply orb_prop in H as [H|H]; [apply orb_prop in H as [H|H];
                                 [apply orb_prop in H as [H|H]|]|].
  - apply N.eqb_eq in H. apply is_word_ascii.
    exact (ascii_lower_alnum p c Hp H).
  - apply andb_prop in H as [_ H]. unfold is_word.
    apply orb_prop in H as [H|H]; apply N.eqb_eq in H; subst c;
      now rewrite ?H1, ?H2.
  - apply andb_prop in H as [_ H]. apply N.eqb_eq in H. subst c.
    unfold is_word. now rewrite H3.
  - apply andb_prop in H as [_ H]. apply N.eqb_eq in H. subst c.
    unfold is_word. now rewrite H4.
Qed.





Lemma nonword_not_word (c : char) : nonword c = true -> is_word c = false.
Proof. unfold nonword. now destruct (is_word c). Qed.

(** A whole-word pattern of letters and digits stops at the characters
    that are not of a word, and so does the pattern of the numbers. *)
Lemma whole_word_stops (w : str) :
  forallb ascii_alnum w = true -> stops_at nonword (whole_word_i w).
Proof.
  intros Hw. apply avoids_stops; [exact nonword_not_word|].
  unfold whole_word_i. apply Forall_app. split; [repeat constructor|].
  apply Forall_app. split; [|repeat constructor].
  apply Forall_map, Forall_forall. intros p Hp c Hc.
  rewrite forallb_forall in Hw. unfold nonword.
  now rewrite (ci_eq_word p c (Hw p Hp) Hc).
Qed.


End CharLemmas.

Section TokenLemmas.
Context {U : UnicodeDB}.

(** A sequence of literals under re.IGNORECASE matches by [ci_starts]. *)
Lemma run_lits (w : str) (tail : list item) :
  forall prev t,
    run (map LitI w ++ tail) prev t
    = if ci_starts w t then
        match run tail (prev_at prev t (length w)) (skipn (length w) t) with
        | Some (caps, n) => Some (caps, (length w + n)%nat)
        | None => None
        end
      else None.
Proof.
  induction w as [|p w IH]; intros prev t.
  - simpl. now destruct (run tail prev t) as [[caps n]|].
  - destruct t as [|c t]; [reflexivity|].
    cbn [map app run ci_starts].
    destruct (ci_eq p c); [|reflexivity]. simpl andb.
    rewrite IH. destruct (ci_starts w t); [|reflexivity].
    cbn [length skipn]. rewrite <- (prev_at_cons prev).
    now destruct (run tail _ _) as [[caps n]|].
Qed.

Lemma run_whole_word_i (w : str) (prev : option char) (t : str) :
  run (whole_word_i w) prev t
  = if boundary prev t && ci_starts w t
       && boundary (prev_at prev t (length w)) (skipn (length w) t)
    then Some ([], (length w + 0)%nat)
    else None.
Proof.
  unfold whole_word_i. cbn [app run].
  destruct (boundary prev t); [|reflexivity].
  rewrite run_lits. destruct (ci_starts w t); [|reflexivity].
  cbn [run]. now destruct (boundary _ _).
Qed.

Lemma ci_starts_length (w t : str) :
  ci_starts w t = true -> (length w <= length t)%nat.
Proof.
  revert t. induction w as [|p w IH]; intros t H; [simpl; lia|].
  destruct t as [|c t]; [discriminate|]. simpl in H.
  apply andb_prop in H as [_ H]. apply IH in H. simpl. lia.
Qed.



Lemma span_len_full (p : char -> bool) (t : str) :
  Forall (fun c => p c = true) t -> span_len p t = length t.
Proof.
  induction 1 as [|c t Hc _ IH]; [reflexivity|]. simpl. now rewrite Hc, IH.
Qed.



End TokenLemmas.

Section YearLemmas.
Context {U : UnicodeDB}.
Local Open Scope Z_scope.









End YearLemmas.

Section NumberPass.
Context {U : UnicodeDB}.

Lemma opt_sep_nonword (c : option char) :
  opt_word c = false -> opt_sep nonword c.
Proof. destruct c as [x|]; simpl; [|auto]. unfold nonword. now intros ->. Qed.




End NumberPass.

Section DatePatterns.
Context {U : UnicodeDB}.

Lemma run_rep_inv (p : char -> bool) (lo : nat) (hi : option nat)
      (capture : bool) (tail : list item) (prev : option char) (t : str)
      (caps : list str) (n : nat) :
  run (Rep p lo hi capture :: tail) prev t = Some (caps, n) ->
  exists j caps' n',
    (lo <= j <= span_len p t)%nat
    /\ match hi with Some h => (j <= h)%nat | None => True end
    /\ run tail (prev_at prev t j) (skipn j t) = Some (caps', n')
    /\ caps = (if capture then firstn j t :: caps' else caps')
    /\ n = (j + n')%nat.
Proof.
  cbn [run]. intros H. apply try_lengths_some in H as (j & Hj & Hr & _).
  destruct (run tail (prev_at prev t j) (skipn j t)) as [[caps' n']|] eqn:E;
    [|discriminate].
  injection Hr as <- <-. exists j, caps', n'.
  repeat split; auto; destruct hi; lia.
Qed.

Lemma run_lit_inv (c : char) (tail : list item) (prev : option char)
      (t : str) (caps : list str) (n : nat) :
  run (Lit c :: tail) prev t = Some (caps, n) ->
  exists t' n', t = c :: t' /\ run tail (Some c) t' = Some (caps, n')
                /\ n = S n'.
Proof.
  cbn [run]. destruct t as [|x t']; [discriminate|].
  destruct (N.eqb_spec c x) as [->|]; [|discriminate].
  destruct (run tail (Some x) t') as [[caps' n']|] eqn:E; [|discriminate].
  intros [= <- <-]. eauto.
Qed.

Lemma run_bnd_inv (tail : list item) (prev : option char) (t : str)
      (r : list str * nat) :
  run (Bnd :: tail) prev t = Some r ->
  boundary prev t = true /\ run tail prev t = Some r.
Proof. cbn [run]. destruct (boundary prev t); [auto|discriminate]. Qed.




End DatePatterns.



(** ** Acronyms *)

Section SplitAt.
Context {U : UnicodeDB}.

(** The scan splits at a character no match of the text reaches. *)
Lemma sub_scan_split_at (pat : list item) (f : list str -> str) (x : char)
      (rest : str) :
  forall n s prev,
    (length s <= n)%nat ->
    (forall k, (k <= length s)%nat ->
       run pat (prev_at prev s k) (skipn k s ++ x :: rest)
       = run pat (prev_at prev s k) (skipn k s)) ->
    sub_scan pat f 0 prev (s ++ x :: rest)
    = sub_scan pat f 0 prev s ++ x :: sub_scan pat f 0 (Some x) rest.
Proof.
  induction n as [|n IH]; intros s prev Hn H.
  - destruct s; [|simpl in Hn; lia]. simpl app.
    rewrite sub_scan_cons.
    pose proof (H 0%nat (Nat.le_0_l _)) as Hs. simpl in Hs. rewrite Hs.
    destruct (run pat prev []) as [[caps [|m]]|] eqn:E; try reflexivity.
    apply run_length_le in E. simpl in E. lia.
  - destruct s as [|c s].
    + simpl app. rewrite sub_scan_cons.
      pose proof (H 0%nat (Nat.le_0_l _)) as Hs. simpl in Hs. rewrite Hs.
      destruct (run pat prev []) as [[caps [|m]]|] eqn:E; try reflexivity.
      apply run_length_le in E. simpl in E. lia.
    + simpl in Hn. change ((c :: s) ++ x :: rest) with (c :: (s ++ x :: rest)).
      rewrite !sub_scan_cons.
      pose proof (H 0%nat (Nat.le_0_l _)) as Hs. simpl in Hs. rewrite Hs.
      assert (Htail : forall k, (k <= length s)%nat ->
                run pat (prev_at (Some c) s k) (skipn k s ++ x :: rest)
                = run pat (prev_at (Some c) s k) (skipn k s)).
      { intros k Hk. rewrite (prev_at_cons prev).
        apply (H (S k)). simpl. lia. }
      destruct (run pat prev (c :: s)) as [[caps [|m]]|] eqn:E.
      * rewrite (IH s (Some c)) by (assumption || lia). reflexivity.
      * apply run_length_le in E. simpl in E.
        rewrite skipn_app_le, prev_at_app by lia.
        rewrite (IH (skipn m s)).
        -- now rewrite <- app_assoc.
        -- rewrite length_skipn. lia.
        -- intros k Hk. rewrite length_skipn in Hk.
           rewrite prev_at_skipn by lia. rewrite skipn_skipn.
           replace (k + m)%nat with (m + k)%nat by lia.
           apply Htail. lia.
      * rewrite (IH s (Some c)) by (assumption || lia). reflexivity.
Qed.

End SplitAt.

Section AcronymChars.
Context {U : UnicodeDB}.

Ltac cprops :=
  repeat match goal with
    | H : _ && _ = true |- _ => apply andb_prop in H as [? ?]
    | H : _ || _ = true |- _ => apply orb_prop in H as [?|?]
    | H : (_ <=? _) = true |- _ => apply N.leb_le in H
    | H : (_ <? _) = true |- _ => apply N.ltb_lt in H
    | H : (_ =? _) = true |- _ => apply N.eqb_eq in H
    end.

Lemma str_eqb_eq (a : str) : forall b, str_eqb a b = true <-> a = b.
Proof.
  induction a as [|x a IH]; intros [|y b]; simpl; split; intros H;
    try reflexivity; try discriminate H.
  - apply andb_prop in H as [H1 H2]. apply N.eqb_eq in H1.
    apply IH in H2. now subst.
  - injection H as -> ->. rewrite N.eqb_refl. now apply IH.
Qed.

(** Two pattern characters that match the same character are the same
    letter. *)
Lemma ci_eq_lower (p q c : char) :
  p < 128 -> q < 128 -> ci_eq p c = true -> ci_eq q c = true ->
  ascii_lower p = ascii_lower q.
Proof.
  unfold ci_eq. intros Hp Hq H1 H2.
  assert (Lp : ascii_lower p < 128 + 32)
    by (unfold ascii_lower; destruct (ascii_isupper p); lia).
  assert (Lq : ascii_lower q < 128 + 32)
    by (unfold ascii_lower; destruct (ascii_isupper q); lia).
  assert (Lc : c <= ascii_lower c)
    by (unfold ascii_lower; destruct (ascii_isupper c); lia).
  cprops; lia.
Qed.

Lemma ci_eq_amp (c : char) : ci_eq 38 c = true -> c = 38.
Proof.
  unfold ci_eq. change (ascii_lower 38) with 38. intros H.
  cprops; try discriminate.
  unfold ascii_lower, ascii_isupper in *.
  destruct ((65 <=? c) && (c <=? 90)) eqn:E; [cprops|]; lia.
Qed.

Lemma ci_eq_upper (p c : char) :
  (p = 82 \/ p = 68) -> ci_eq p c = true -> c < 97 -> c = p.
Proof.
  unfold ci_eq, ascii_lower, ascii_isupper. intros Hp H Hc.
  destruct ((65 <=? c) && (c <=? 90)) eqn:E;
    destruct Hp as [-> | ->]; simpl in H; cprops; try discriminate; lia.
Qed.

Lemma amp_not_word : is_word 38 = false.
Proof. unfold is_word. now rewrite isalnum_ascii by lia. Qed.

Lemma space_not_word : is_word 32 = false.
Proof. unfold is_word. now rewrite isalnum_ascii by lia. Qed.

Lemma table_char_lt (p : char) :
  ascii_alnum p || (p =? 38) = true -> p < 128.
Proof. unfold ascii_alnum. intros H. cprops; lia. Qed.

(** No character of the table matches a space. *)
Lemma table_char_space (p : char) :
  ascii_alnum p || (p =? 38) = true -> ci_eq p 32 = false.
Proof.
  intros H. destruct (ci_eq p 32) eqn:E; [|reflexivity].
  unfold ci_eq in E. change (ascii_lower 32) with 32 in E.
  unfold ascii_alnum, ascii_lower, ascii_isupper in *.
  destruct ((65 <=? p) && (p <=? 90)) eqn:E1; cprops; lia.
Qed.

Lemma ci_starts_short (w b : str) :
  (length b < length w)%nat -> ci_starts w b = false.
Proof.
  intros H. destruct (ci_starts w b) eqn:E; [|reflexivity].
  apply ci_starts_length in E. lia.
Qed.

Lemma ci_starts_app (w : str) :
  forall b t, (length w <= length b)%nat ->
              ci_starts w (b ++ t) = ci_starts w b.
Proof.
  induction w as [|p w IH]; intros b t H; [reflexivity|].
  destruct b as [|c b]; [simpl in H; lia|]. simpl.
  rewrite IH; [reflexivity|simpl in H; lia].
Qed.

(** A character that is not of a word is as good as the end of the text
    for a match that does not reach it. *)
Lemma run_window (w : str) (prev : option char) (b : str) (x : char)
      (rest : str) :
  is_word x = false ->
  ((length b < length w)%nat ->
   run (whole_word_i w) prev (b ++ x :: rest) = None) ->
  run (whole_word_i w) prev (b ++ x :: rest) = run (whole_word_i w) prev b.
Proof.
  intros Hx H.
  assert (Hx' : nonword x = true) by (unfold nonword; now rewrite Hx).
  destruct (Nat.ltb_spec (length b) (length w)) as [Hlt|Hge].
  - rewrite (H Hlt), run_whole_word_i, (ci_starts_short w b Hlt).
    now rewrite andb_false_r.
  - rewrite !run_whole_word_i.
    rewrite (boundary_app_sep nonword prev b x rest nonword_not_word Hx').
    rewrite ci_starts_app by assumption.
    rewrite prev_at_app, skipn_app_le by assumption.
    now rewrite (boundary_app_sep nonword _ _ x rest nonword_not_word Hx').
Qed.

Lemma prev_at_length (prev : option char) (s t : str) :
  prev_at prev (s ++ t) (length s) = last_or prev s.
Proof.
  unfold last_or.
  destruct (last_char_cases s) as [[-> E]|(s' & c & -> & E)]; rewrite E;
    [reflexivity|].
  rewrite length_app, Nat.add_1_r. simpl.
  rewrite <- app_assoc, nth_error_app2 by lia.
  now rewrite Nat.sub_diag.
Qed.

(** *** The pattern of ["R&D"] *)

Lemma run_rd (prev : option char) (t : str) :
  run (whole_word_i R_AND_D) prev t
  = if boundary prev t && ci_starts R_AND_D t
       && boundary (prev_at prev t 3) (skipn 3 t)
    then Some ([], 3%nat) else None.
Proof. exact (run_whole_word_i R_AND_D prev t). Qed.

(** The parts of a match of the pattern. *)
Lemma run_rd_inv (prev : option char) (t : str) (r : list str * nat) :
  run (whole_word_i R_AND_D) prev t = Some r ->
  exists c d rest,
    t = c :: 38 :: d :: rest /\ r = ([], 3%nat)
    /\ ci_eq 82 c = true /\ ci_eq 68 d = true
    /\ opt_word prev = false /\ opt_word (hd_error rest) = false.
Proof.
  rewrite run_rd. intros H.
  destruct (boundary prev t && ci_starts R_AND_D t
            && boundary (prev_at prev t 3) (skipn 3 t)) eqn:E;
    [|discriminate H].
  injection H as <-.
  apply andb_prop in E as [E E3]. apply andb_prop in E as [E1 E2].
  destruct t as [|c [|a [|d rest]]]; simpl in E2;
    try discriminate E2; try (now rewrite andb_false_r in E2).
  apply andb_prop in E2 as [Ec E2]. apply andb_prop in E2 as [Ea E2].
  apply andb_prop in E2 as [Ed _].
  apply ci_eq_amp in Ea. subst a.
  exists c, d, rest. split; [reflexivity|]. split; [reflexivity|].
  assert (Wc : is_word c = true) by (now apply (ci_eq_word 82 c)).
  assert (Wd : is_word d = true) by (now apply (ci_eq_word 68 d)).
  unfold boundary in E1, E3. cbn [prev_at nth_error skipn] in E3.
  cbn [hd_error opt_word] in E1. cbn [opt_word] in E3.
  rewrite Wc in E1. rewrite Wd in E3.
  split; [assumption|]. split; [assumption|].
  split; [now destruct (opt_word prev)|].
  assert (Hb : forall b, xorb true b = true -> b = false) by (now intros []).
  exact (Hb _ E3).
Qed.

Lemma run_rd_match (prev : option char) (c d : char) (rest : str) :
  ci_eq 82 c = true -> ci_eq 68 d = true ->
  opt_word prev = false -> opt_word (hd_error rest) = false ->
  run (whole_word_i R_AND_D) prev (c :: 38 :: d :: rest) = Some ([], 3%nat).
Proof.
  intros Hc Hd Hp Hr. rewrite run_rd.
  assert (Wc : is_word c = true) by (now apply (ci_eq_word 82 c)).
  assert (Wd : is_word d = true) by (now apply (ci_eq_word 68 d)).
  unfold boundary. simpl. rewrite Hp, Hr, Wc, Wd, Hc, Hd. reflexivity.
Qed.

Lemma run_rd_nonword (prev : option char) (c : char) (t : str) :
  is_word c = false -> run (whole_word_i R_AND_D) prev (c :: t) = None.
Proof.
  intros Hc. destruct (run (whole_word_i R_AND_D) prev (c :: t)) eqn:E;
    [|reflexivity].
  apply run_rd_inv in E as (c' & d & rest & Et & _ & Hc' & _).
  injection Et as -> _. apply (ci_eq_word 82) in Hc'; [|reflexivity].
  congruence.
Qed.

End AcronymChars.

Section RdScan.
Context {U : UnicodeDB}.

Local Abbreviation rd_scan :=
  (sub_scan (whole_word_i R_AND_D) (fun _ => spaced R_AND_D) 0).

Lemma crosses_inv (prev : option char) (s : str) (x : char) (rest : str) :
  crosses prev s x rest = true ->
  exists s0 r d rest',
    s = s0 ++ [r] /\ rest = d :: rest' /\ x = 38
    /\ ci_eq 82 r = true /\ ci_eq 68 d = true
    /\ opt_word (last_or prev s0) = false
    /\ opt_word (hd_error rest') = false
    /\ run (whole_word_i R_AND_D) (last_or prev s0) (r :: 38 :: d :: rest')
       = Some ([], 3%nat).
Proof.
  unfold crosses. destruct (rev s) as [|r s1] eqn:Er; [discriminate|].
  assert (Es : s = rev s1 ++ [r])
    by (rewrite <- (rev_involutive s), Er; reflexivity).
  destruct (run (whole_word_i R_AND_D) (last_or prev (rev s1))
                (r :: x :: rest)) as [m|] eqn:E; [|discriminate].
  intros _. pose proof E as E'.
  apply run_rd_inv in E' as (c & d & rest' & Et & Em & Hr & Hd & Hp & Hq).
  injection Et as <- -> ->. subst m.
  exists (rev s1), r, d, rest'. repeat (split; [assumption || reflexivity|]).
  exact E.
Qed.

(** The scan splits at a character that is not of a word, unless a match
    reaches over it. *)
Lemma rd_split (prev : option char) (s : str) (x : char) (rest : str) :
  is_word x = false -> crosses prev s x rest = false ->
  rd_scan prev (s ++ x :: rest)
  = rd_scan prev s ++ x :: rd_scan (Some x) rest.
Proof.
  intros Hx Hc. apply (sub_scan_split_at _ _ x rest (length s)); [lia|].
  intros k Hk. apply run_window; [assumption|]. intros Hlt.
  change (length R_AND_D) with 3%nat in Hlt.
  pose proof (firstn_skipn k s) as Es.
  pose proof (length_firstn k s) as Lf.
  remember (firstn k s) as s1 eqn:Hs1. clear Hs1.
  destruct (skipn k s) as [|b0 [|b1 [|b2 b]]]; simpl in Hlt; try lia.
  - apply run_rd_nonword; assumption.
  - assert (Lk : length s1 = k) by lia. subst s k.
    rewrite prev_at_length.
    unfold crosses in Hc. rewrite rev_app_distr in Hc.
    cbn [rev app] in Hc. rewrite rev_involutive in Hc.
    change ([b0] ++ x :: rest) with (b0 :: x :: rest).
    destruct (run (whole_word_i R_AND_D) (last_or prev s1)
                  (b0 :: x :: rest)); [discriminate Hc|reflexivity].
  - destruct (run (whole_word_i R_AND_D) (prev_at prev s k)
                  ([b0; b1] ++ x :: rest)) as [m|] eqn:E; [|reflexivity].
    apply run_rd_inv in E as (c & d & rest' & Et & _ & _ & Hd & _).
    injection Et as _ _ -> _.
    apply (ci_eq_word 68) in Hd; [|reflexivity]. congruence.
Qed.

Lemma rd_scan_match (prev : option char) (r d : char) (rest : str) :
  run (whole_word_i R_AND_D) prev (r :: 38 :: d :: rest)
  = Some ([], 3%nat) ->
  rd_scan prev (r :: 38 :: d :: rest)
  = spaced R_AND_D ++ rd_scan (Some d) rest.
Proof. intros E. rewrite sub_scan_cons, E. reflexivity. Qed.

Lemma rd_scan_nonword (prev : option char) (x : char) (rest : str) :
  is_word x = false -> rd_scan prev (x :: rest) = x :: rd_scan (Some x) rest.
Proof.
  intros Hx. rewrite sub_scan_cons, (run_rd_nonword prev x rest Hx).
  reflexivity.
Qed.

(** A character that matches ['R'] does not match ['D']. *)
Lemma not_r_and_d (c : char) :
  ci_eq 82 c = true -> ci_eq 68 c = true -> False.
Proof.
  intros H1 H2.
  assert (E : ascii_lower 82 = ascii_lower 68)
    by (apply (ci_eq_lower 82 68 c); (lia || assumption)).
  discriminate E.
Qed.

Lemma rd_snoc_nonword (prev : option char) (s : str) (x : char) :
  is_word x = false -> rd_scan prev (s ++ [x]) = rd_scan prev s ++ [x].
Proof.
  intros Hx. rewrite rd_split; [reflexivity|assumption|].
  destruct (crosses prev s x []) eqn:E; [|reflexivity].
  apply crosses_inv in E as (s0 & r & d & rest' & _ & Er & _).
  discriminate Er.
Qed.

(** The scan around a match that reaches over [x]. *)
Lemma rd_cross (prev : option char) (s : str) (x : char) (rest : str) :
  crosses prev s x rest = true ->
  exists s0 r d rest',
    s = s0 ++ [r] /\ rest = d :: rest' /\ x = 38
    /\ ci_eq 82 r = true /\ ci_eq 68 d = true
    /\ opt_word (last_or prev s0) = false
    /\ opt_word (hd_error rest') = false
    /\ rd_scan prev (s ++ x :: rest)
       = rd_scan prev s0 ++ spaced R_AND_D ++ rd_scan (Some d) rest'.
Proof.
  intros Hc.
  apply crosses_inv in Hc
    as (s0 & r & d & rest' & -> & -> & -> & Hr & Hd & Hp & Hq & E).
  exists s0, r, d, rest'. repeat (split; [assumption || reflexivity|]).
  rewrite <- app_assoc. change ([r] ++ 38 :: d :: rest')
    with (r :: 38 :: d :: rest').
  unfold last_or in Hp, E.
  destruct (last_char_cases s0) as [[-> El]|(s00 & x0 & -> & El)];
    rewrite El in Hp, E.
  - simpl app. now apply rd_scan_match.
  - cbn [opt_word] in Hp. rewrite <- app_assoc.
    change ([x0] ++ r :: 38 :: d :: rest') with (x0 :: r :: 38 :: d :: rest').
    rewrite rd_split; [|assumption|].
    + rewrite (rd_scan_match _ _ _ _ E), (rd_snoc_nonword _ _ _ Hp).
      rewrite <- app_assoc. reflexivity.
    + destruct (crosses prev s00 x0 (r :: 38 :: d :: rest')) eqn:E2;
        [|reflexivity].
      apply crosses_inv in E2 as (s1 & r1 & d1 & rest1 & _ & Er & _ & _ & Hd1 & _).
      injection Er as <- _. destruct (not_r_and_d r Hr Hd1).
Qed.

End RdScan.

Section AcronymPasses.
Context {U : UnicodeDB}.

Local Abbreviation rd_scan :=
  (sub_scan (whole_word_i R_AND_D) (fun _ => spaced R_AND_D) 0).

Lemma acronym_ok_inv (w : str) :
  acronym_ok w = true ->
  (2 <= length w)%nat
  /\ forallb (fun c => ascii_alnum c || (c =? 38)) w = true
  /\ ascii_alnum (hd 0 w) = true /\ ascii_alnum (last w 0) = true
  /\ (w = R_AND_D \/ forallb ascii_alnum w = true)
  /\ sparse (spaced w) = true
  /\ forallb (fun c => c <? 97) (spaced w) = true.
Proof.
  unfold acronym_ok. intros H.
  apply andb_prop in H as [H H7]. apply andb_prop in H as [H H6].
  apply andb_prop in H as [H H5]. apply andb_prop in H as [H H4].
  apply andb_prop in H as [H H3]. apply andb_prop in H as [H1 H2].
  apply Nat.leb_le in H1.
  repeat (split; [assumption|]). split; [|split; assumption].
  apply orb_prop in H5 as [H5|H5]; [left; now apply str_eqb_eq|now right].
Qed.

Lemma rd_ok : acronym_ok R_AND_D = true.
Proof. reflexivity. Qed.

Lemma sparse_tail (a : char) (t : str) : sparse (a :: t) = true -> sparse t = true.
Proof.
  destruct t as [|b t]; [reflexivity|]. cbn [sparse]. intros H.
  now apply andb_prop in H as [_ H].
Qed.

Lemma sparse_app_l (a : str) :
  forall b, sparse (a ++ b) = true -> sparse a = true.
Proof.
  induction a as [|x a IH]; intros b H; [reflexivity|].
  destruct a as [|y a]; [reflexivity|].
  change ((x :: y :: a) ++ b) with (x :: y :: (a ++ b)) in H.
  cbn [sparse] in H |- *. apply andb_prop in H as [H1 H2]. rewrite H1.
  exact (IH b H2).
Qed.

(** No acronym matches in a sparse text. *)
Lemma sparse_no_match (w : str) :
  (2 <= length w)%nat ->
  forallb (fun c => ascii_alnum c || (c =? 38)) w = true ->
  forall t prev, sparse t = true -> no_match (whole_word_i w) prev t.
Proof.
  intros Hl Hw. destruct w as [|y0 [|y1 w]]; simpl in Hl; try lia.
  cbn [forallb] in Hw. apply andb_prop in Hw as [H0 Hw].
  apply andb_prop in Hw as [H1 _].
  apply table_char_space in H0, H1.
  induction t as [|a t IH]; intros prev Hs; [exact I|]. split.
  - rewrite run_whole_word_i.
    assert (E : ci_starts (y0 :: y1 :: w) (a :: t) = false).
    { cbn [ci_starts]. destruct t as [|b t]; [apply andb_false_r|].
      cbn [sparse] in Hs. apply andb_prop in Hs as [Hs _].
      apply orb_prop in Hs as [Hs|Hs]; apply N.eqb_eq in Hs; subst.
      - now rewrite H0.
      - rewrite H1. apply andb_false_r. }
    rewrite E, andb_false_r. reflexivity.
  - apply IH. exact (sparse_tail a t Hs).
Qed.

(** No whole word starts inside a word. *)
Lemma inside_word_no_match (w : str) :
  forall t prev,
    opt_word prev = true -> Forall (fun c => is_word c = true) t ->
    no_match (whole_word_i w) prev t.
Proof.
  induction t as [|a t IH]; intros prev Hp Ht; [exact I|].
  inversion Ht as [|? ? Ha Ht']; subst. split.
  - rewrite run_whole_word_i. unfold boundary. cbn [hd_error opt_word].
    rewrite Hp, Ha. reflexivity.
  - apply IH; assumption.
Qed.

Lemma ci_starts_words (w : str) :
  forall occ,
    forallb ascii_alnum w = true -> ci_starts w occ = true ->
    length occ = length w -> Forall (fun c => is_word c = true) occ.
Proof.
  induction w as [|p w IH]; intros [|c occ] Hw Hc Hl; try discriminate;
    constructor.
  - cbn [forallb] in Hw. cbn [ci_starts] in Hc.
    apply andb_prop in Hw as [Hp _]. apply andb_prop in Hc as [Hc _].
    exact (ci_eq_word p c Hp Hc).
  - cbn [forallb] in Hw. cbn [ci_starts] in Hc.
    apply andb_prop in Hw as [_ Hw]. apply andb_prop in Hc as [_ Hc].
    apply IH; try assumption. simpl in Hl. lia.
Qed.

Lemma ci_starts_same (x : str) :
  forall y occ,
    forallb (fun c => ascii_alnum c || (c =? 38)) x = true ->
    forallb (fun c => ascii_alnum c || (c =? 38)) y = true ->
    ci_starts x occ = true -> ci_starts y occ = true ->
    length x = length y ->
    map ascii_lower y = map ascii_lower x.
Proof.
  induction x as [|p x IH]; intros [|q y] occ Hx Hy Cx Cy Hl;
    try discriminate; [reflexivity|].
  destruct occ as [|c occ]; [discriminate|].
  cbn [forallb] in Hx, Hy. cbn [ci_starts] in Cx, Cy.
  apply andb_prop in Hx as [Hp Hx]. apply andb_prop in Hy as [Hq Hy].
  apply andb_prop in Cx as [Cp Cx]. apply andb_prop in Cy as [Cq Cy].
  cbn [map]. f_equal.
  - apply (ci_eq_lower q p c); try assumption; now apply table_char_lt.
  - apply (IH y occ); try assumption. simpl in Hl. lia.
Qed.

(** An occurrence of an acronym of letters and digits holds no whole-word
    match of another acronym. *)
Lemma occ_inert (x y occ : str) (p : option char) :
  acronym_ok x = true -> acronym_ok y = true ->
  forallb ascii_alnum x = true ->
  (map ascii_lower y = map ascii_lower x -> y = x) -> y <> x ->
  ci_starts x occ = true -> length occ = length x ->
  opt_word p = false ->
  no_match (whole_word_i y) p occ.
Proof.
  intros Hx Hy Wx Hap Hne Cx Hl Hp.
  apply acronym_ok_inv in Hx as (Lx & Tx & _).
  apply acronym_ok_inv in Hy as (Ly & Ty & _).
  pose proof (ci_starts_words x occ Wx Cx Hl) as Hw.
  destruct occ as [|c0 occ']; [simpl in Hl; lia|]. split.
  - rewrite run_whole_word_i.
    destruct (ci_starts y (c0 :: occ')) eqn:Cy;
      [|now rewrite andb_false_r].
    pose proof (ci_starts_length _ _ Cy) as Ll.
    assert (Hlt : (length y < length (c0 :: occ'))%nat).
    { destruct (Nat.eq_dec (length y) (length (c0 :: occ'))) as [E|E];
        [|lia].
      exfalso. apply Hne, Hap.
      apply (ci_starts_same x y (c0 :: occ')); try assumption. lia. }
    assert (Eb : boundary (prev_at p (c0 :: occ') (length y))
                          (skipn (length y) (c0 :: occ')) = false).
    { destruct (length y) as [|n] eqn:En; [lia|].
      unfold boundary. rewrite hd_error_skipn. cbn [prev_at].
      destruct (nth_error (c0 :: occ') n) as [a|] eqn:Ea;
        [|apply nth_error_None in Ea; lia].
      destruct (nth_error (c0 :: occ') (S n)) as [b|] eqn:Eb;
        [|apply nth_error_None in Eb; lia].
      rewrite Forall_forall in Hw. cbn [opt_word].
      rewrite (Hw a (nth_error_In _ _ Ea)), (Hw b (nth_error_In _ _ Eb)).
      reflexivity. }
    rewrite Eb, andb_false_r. reflexivity.
  - inversion Hw as [|? ? H0 Hw']; subst.
    now apply inside_word_no_match.
Qed.

(** An occurrence of ["R&D"] holds no whole-word match of an acronym of
    letters and digits. *)
Lemma rd_occ_inert (y occ : str) (p : option char) :
  (2 <= length y)%nat -> forallb ascii_alnum y = true ->
  ci_starts R_AND_D occ = true -> length occ = length R_AND_D ->
  no_match (whole_word_i y) p occ.
Proof.
  intros Ly Wy Cx Hl.
  destruct occ as [|r [|a [|d [|? ?]]]]; try discriminate Hl.
  cbn [ci_starts R_AND_D lit] in Cx. simpl in Cx.
  apply andb_prop in Cx as [_ Cx]. apply andb_prop in Cx as [Ca _].
  apply ci_eq_amp in Ca. subst a.
  destruct y as [|y0 [|y1 y]]; simpl in Ly; try lia.
  cbn [forallb] in Wy. apply andb_prop in Wy as [W0 Wy].
  apply andb_prop in Wy as [W1 _].
  assert (N0 : ci_eq y0 38 = false).
  { destruct (ci_eq y0 38) eqn:E; [|reflexivity].
    apply (ci_eq_word y0 38 W0) in E. rewrite amp_not_word in E.
    discriminate E. }
  assert (N1 : ci_eq y1 38 = false).
  { destruct (ci_eq y1 38) eqn:E; [|reflexivity].
    apply (ci_eq_word y1 38 W1) in E. rewrite amp_not_word in E.
    discriminate E. }
  cbn [no_match]. rewrite !run_whole_word_i. cbn [ci_starts].
  rewrite N0, N1. rewrite !andb_false_r. cbn [andb].
  repeat split; reflexivity.
Qed.

(** The pass of an acronym of letters and digits over an occurrence of
    it. *)
Lemma own_scan (x occ : str) (p : option char) :
  (2 <= length x)%nat -> forallb ascii_alnum x = true ->
  ci_starts x occ = true -> length occ = length x ->
  opt_word p = false ->
  sub_scan (whole_word_i x) (fun _ => spaced x) 0 p occ = spaced x.
Proof.
  intros Lx Wx Cx Hl Hp.
  pose proof (ci_starts_words x occ Wx Cx Hl) as Hw.
  destruct occ as [|c0 occ']; [simpl in Hl; lia|].
  rewrite sub_scan_cons, run_whole_word_i, Cx.
  inversion Hw as [|? ? H0 Hw']; subst.
  assert (E1 : boundary p (c0 :: occ') = true).
  { unfold boundary. cbn [hd_error opt_word]. now rewrite Hp, H0. }
  assert (E2 : boundary (prev_at p (c0 :: occ') (length x))
                        (skipn (length x) (c0 :: occ')) = true).
  { rewrite <- Hl. rewrite skipn_all. unfold boundary.
    cbn [length prev_at hd_error opt_word].
    destruct (nth_error (c0 :: occ') (length occ')) as [a|] eqn:Ea;
      [|apply nth_error_None in Ea; simpl in Ea; lia].
    rewrite Forall_forall in Hw. cbn [opt_word].
    now rewrite (Hw a (nth_error_In _ _ Ea)). }
  rewrite E1, E2. cbn [andb]. rewrite <- Hl. cbn [length Nat.add].
  rewrite Nat.add_0_r. rewrite skipn_all. cbn [sub_scan].
  apply app_nil_r.
Qed.

(** The pass of an acronym of letters and digits leaves a spelled acronym
    and the occurrences of other acronyms alone, and spells the occurrence
    when it is the pass of its acronym. *)
Lemma word_pass (x y occ : str) (done : bool) (a b : str) :
  acronym_ok x = true -> acronym_ok y = true ->
  forallb ascii_alnum y = true ->
  (map ascii_lower y = map ascii_lower x -> y = x) ->
  ci_starts x occ = true -> length occ = length x ->
  opt_word (last_char a) = false -> opt_word (hd_error b) = false ->
  exists a' b',
    re_sub (whole_word_i y) (fun _ => spaced y)
           (a ++ (if done then spaced x else occ) ++ b)
    = a' ++ (if done || str_eqb y x then spaced x else occ) ++ b'
    /\ around (re_sub (whole_word_i y) (fun _ => spaced y)) a b a' b'.
Proof.
  intros Hx Hy Wy Hap Cx Hl HA HB.
  unfold re_sub.
  pose proof (whole_word_stops y Wy) as Hst.
  pose proof (acronym_ok_inv x Hx) as (Lx & Tx & _ & _ & Kx & Sx & _).
  pose proof (acronym_ok_inv y Hy) as (Ly & Ty & _).
  rewrite (sub_scan_three nonword _ _ a _ b Hst
             (opt_sep_nonword _ HA) (opt_sep_nonword _ HB)).
  exists (sub_scan (whole_word_i y) (fun _ => spaced y) 0 None a),
         (sub_scan (whole_word_i y) (fun _ => spaced y) 0 None b).
  assert (La : last_char (sub_scan (whole_word_i y) (fun _ => spaced y) 0
                                   None a) = last_char a)
    by (apply (sub_scan_last_char nonword); try assumption;
        now apply opt_sep_nonword).
  assert (Lb : hd_error (sub_scan (whole_word_i y) (fun _ => spaced y) 0
                                  None b) = hd_error b)
    by (apply (sub_scan_hd nonword); try assumption;
        now apply opt_sep_nonword).
  split.
  - f_equal. f_equal. destruct done; cbn [orb].
    + apply sub_scan_no_match. now apply sparse_no_match.
    + destruct (str_eqb y x) eqn:E.
      * apply str_eqb_eq in E. subst y. now apply own_scan.
      * assert (Hne : y <> x).
        { intros ->. rewrite (proj2 (str_eqb_eq x x) eq_refl) in E.
          discriminate E. }
        apply sub_scan_no_match. destruct Kx as [-> | Wx].
        -- now apply rd_occ_inert.
        -- now apply (occ_inert x y).
  - unfold around. rewrite La, Lb.
    split; [assumption|]. split; [assumption|].
    split; intros _; split; reflexivity || assumption.
Qed.

Lemma rd_inert_sparse (p : option char) (s : str) :
  sparse s = true -> rd_scan p s = s.
Proof.
  intros Hs. apply sub_scan_no_match.
  apply sparse_no_match; [simpl; lia|reflexivity|assumption].
Qed.

(** The pass of ["R&D"] over a sparse text without lower-case letters and
    what follows it: a match may take the last letter, and leaves it as it
    is. *)
Lemma rd_right_sparse (p : option char) (s b : str) :
  sparse s = true -> forallb (fun c => c <? 97) s = true ->
  opt_word (hd_error b) = false ->
  exists b',
    rd_scan p (s ++ b) = s ++ b' /\ opt_word (hd_error b') = false
    /\ (hd_error b <> Some 38 ->
        b' = rd_scan None b /\ hd_error b' = hd_error b).
Proof.
  intros Hs Hu Hb. destruct b as [|y b1].
  - exists []. rewrite !app_nil_r. split; [now apply rd_inert_sparse|].
    repeat split; reflexivity.
  - cbn [hd_error opt_word] in Hb.
    destruct (crosses p s y b1) eqn:Ec.
    + apply rd_cross in Ec
        as (s0 & r & d & rest' & -> & -> & -> & Hr & Hd & Hp & Hq & E).
      rewrite E. rewrite forallb_app in Hu. apply andb_prop in Hu as [_ Hu].
      cbn [forallb] in Hu. apply andb_prop in Hu as [Hu _].
      apply N.ltb_lt in Hu.
      assert (Er : r = 82) by (apply ci_eq_upper; auto).
      subst r. rewrite (rd_inert_sparse p s0 (sparse_app_l _ _ Hs)).
      exists (32 :: 38 :: 32 :: 68 :: rd_scan (Some d) rest').
      split; [|split; [exact space_not_word|]].
      * rewrite <- app_assoc. reflexivity.
      * intros Hn. now destruct Hn.
    + rewrite rd_split by assumption. rewrite (rd_inert_sparse p s Hs).
      exists (y :: rd_scan (Some y) b1).
      split; [reflexivity|]. split; [exact Hb|]. intros _.
      split; [|reflexivity]. symmetry. now apply rd_scan_nonword.
Qed.

(** The pass of ["R&D"] splits behind [a] when no match reaches over its
    end. *)
Lemma rd_left (a t : str) :
  opt_word (last_char a) = false ->
  (forall s x, a = s ++ [x] -> crosses None s x t = false) ->
  rd_scan None (a ++ t) = rd_scan None a ++ rd_scan (last_char a) t
  /\ last_char (rd_scan None a) = last_char a.
Proof.
  intros Ha Hc.
  destruct (last_char_cases a) as [[-> E]|(s & x & -> & E)]; rewrite E in *.
  - split; reflexivity.
  - cbn [opt_word] in Ha. rewrite (rd_snoc_nonword None s x Ha). split.
    + rewrite <- !app_assoc. apply rd_split; [assumption|].
      now apply Hc.
    + now rewrite last_char_snoc.
Qed.

Lemma rd_pass_sparse (a s b : str) :
  sparse s = true -> forallb (fun c => c <? 97) s = true ->
  opt_word (last_char a) = false -> opt_word (hd_error b) = false ->
  exists a' b',
    rd_scan None (a ++ s ++ b) = a' ++ s ++ b'
    /\ around (rd_scan None) a b a' b'.
Proof.
  intros Hs Hu Ha Hb. unfold around.
  destruct (last_char_cases a) as [[-> E]|(a0 & x & -> & E)]; rewrite E in *.
  - destruct (rd_right_sparse None s b Hs Hu Hb) as (b' & E1 & H1 & H2).
    exists [], b'. repeat split; try assumption; now apply H2.
  - cbn [opt_word] in Ha. rewrite <- app_assoc.
    change ([x] ++ s ++ b) with (x :: s ++ b).
    destruct (crosses None a0 x (s ++ b)) eqn:Ec.
    + apply rd_cross in Ec
        as (s0 & r & d & rest' & -> & Et & -> & Hr & Hd & Hp & Hq & E').
      rewrite E'.
      destruct s as [|d' st].
      { simpl in Et. subst b. cbn [hd_error opt_word] in Hb.
        apply (ci_eq_word 68) in Hd; [|reflexivity]. congruence. }
      injection Et as -> <-.
      cbn [forallb] in Hu. apply andb_prop in Hu as [Hd' Hu].
      apply N.ltb_lt in Hd'.
      assert (Ed : d = 68) by (apply ci_eq_upper; auto).
      subst d.
      destruct (rd_right_sparse (Some 68) st b (sparse_tail _ _ Hs) Hu Hb)
        as (b' & E1 & H1 & H2).
      exists (rd_scan None s0 ++ [82; 32; 38; 32]), b'.
      split; [|split; [|split; [assumption|split; [|assumption]]]].
      * rewrite <- !app_assoc. f_equal.
        change (spaced R_AND_D) with ([82; 32; 38; 32] ++ [68]).
        rewrite <- app_assoc. f_equal. cbn [app]. f_equal. exact E1.
      * change [82; 32; 38; 32] with ([82; 32; 38] ++ [32]).
        rewrite app_assoc, last_char_snoc. exact space_not_word.
      * intros Hn. now destruct Hn.
    + rewrite rd_split by assumption.
      destruct (rd_right_sparse (Some x) s b Hs Hu Hb)
        as (b' & E1 & H1 & H2).
      rewrite E1. exists (rd_scan None a0 ++ [x]), b'.
      split; [now rewrite <- !app_assoc|].
      split; [now rewrite last_char_snoc|]. split; [assumption|].
      split; [|assumption]. intros _.
      rewrite (rd_snoc_nonword None a0 x Ha).
      split; [reflexivity|now rewrite last_char_snoc].
Qed.

Lemma rd_pass_word (a occ b : str) :
  Forall (fun c => is_word c = true) occ -> (2 <= length occ)%nat ->
  opt_word (last_char a) = false -> opt_word (hd_error b) = false ->
  exists a' b',
    rd_scan None (a ++ occ ++ b) = a' ++ occ ++ b'
    /\ around (rd_scan None) a b a' b'.
Proof.
  intros Hw Hl Ha Hb. unfold around.
  destruct occ as [|c0 [|c1 occ']]; simpl in Hl; try lia.
  inversion Hw as [|? ? W0 Hw1]; subst.
  inversion Hw1 as [|? ? W1 Hw2]; subst.
  destruct (rd_left a ((c0 :: c1 :: occ') ++ b) Ha) as (E1 & H1).
  { intros s x _.
    destruct (crosses None s x ((c0 :: c1 :: occ') ++ b)) eqn:Ec;
      [|reflexivity].
    apply crosses_inv in Ec
      as (s0 & r & d & rest' & _ & Et & _ & _ & _ & _ & Hq & _).
    injection Et as _ <-. cbn [hd_error opt_word] in Hq. congruence. }
  rewrite E1.
  assert (Ein : rd_scan (last_char a) (c0 :: c1 :: occ') = c0 :: c1 :: occ').
  { apply sub_scan_no_match. split.
    - destruct (run (whole_word_i R_AND_D) (last_char a) (c0 :: c1 :: occ'))
        as [m|] eqn:E; [|reflexivity].
      apply run_rd_inv in E as (c & d & rest & Et & _).
      injection Et as _ -> _. rewrite amp_not_word in W1. discriminate W1.
    - now apply inside_word_no_match. }
  assert (Ha' : opt_word (last_char (rd_scan None a)) = false)
    by (now rewrite H1).
  destruct b as [|y b1].
  - exists (rd_scan None a), []. rewrite !app_nil_r. rewrite Ein.
    repeat split; assumption.
  - cbn [hd_error opt_word] in Hb.
    rewrite rd_split; [|assumption|].
    + rewrite Ein. exists (rd_scan None a), (y :: rd_scan (Some y) b1).
      split; [reflexivity|]. split; [assumption|]. split; [assumption|].
      split; intros _; (split; [|reflexivity || assumption]);
        [reflexivity|]. symmetry. now apply rd_scan_nonword.
    + destruct (crosses (last_char a) (c0 :: c1 :: occ') y b1) eqn:Ec;
        [|reflexivity].
      apply crosses_inv in Ec
        as (s0 & r & d & rest' & Es & _ & _ & _ & _ & Hp & _).
      unfold last_or in Hp.
      destruct (last_char_cases s0) as [[-> E]|(s00 & c & -> & E)];
        rewrite E in Hp.
      * discriminate Es.
      * cbn [opt_word] in Hp. rewrite Forall_forall in Hw.
        rewrite Hw in Hp; [discriminate Hp|].
        rewrite Es. apply in_or_app. left. apply in_or_app. right.
        now left.
Qed.

Lemma rd_pass_own (a occ b : str) :
  ci_starts R_AND_D occ = true -> length occ = length R_AND_D ->
  opt_word (last_char a) = false -> opt_word (hd_error b) = false ->
  exists a' b',
    rd_scan None (a ++ occ ++ b) = a' ++ spaced R_AND_D ++ b'
    /\ around (rd_scan None) a b a' b'.
Proof.
  intros Cx Hl Ha Hb. unfold around.
  destruct occ as [|r [|x [|d [|? ?]]]]; try discriminate Hl.
  cbn [ci_starts R_AND_D lit] in Cx. simpl in Cx.
  apply andb_prop in Cx as [Hr Cx]. apply andb_prop in Cx as [Hx Cx].
  apply andb_prop in Cx as [Hd _].
  apply ci_eq_amp in Hx. subst x.
  match goal with
  | |- context [sub_scan _ _ _ None (a ++ ?t)] =>
      destruct (rd_left a t Ha) as (E1 & H1)
  end.
  { intros s x _.
    match goal with
    | |- ?c = false => destruct c eqn:Ec; [|reflexivity]
    end.
    apply crosses_inv in Ec
      as (s0 & r1 & d1 & rest' & _ & Et & _ & _ & Hd1 & _).
    injection Et as <- _. destruct (not_r_and_d r Hr Hd1). }
  pose proof (rd_scan_match (last_char a) r d b
                (run_rd_match _ r d b Hr Hd Ha Hb)) as Em.
  exists (rd_scan None a), (rd_scan (Some d) b).
  split; [etransitivity; [exact E1|]; f_equal; exact Em|].
  split; [now rewrite H1|].
  assert (Eb : rd_scan (Some d) b = rd_scan None b
               /\ hd_error (rd_scan (Some d) b) = hd_error b).
  { destruct b as [|y b1]; [split; reflexivity|].
    cbn [hd_error opt_word] in Hb. rewrite !rd_scan_nonword by assumption.
    split; reflexivity. }
  destruct Eb as (Eb1 & Eb2). rewrite Eb2.
  split; [assumption|].
  split; intros _; split; assumption || reflexivity.
Qed.

(** The pass of ["R&D"] leaves a spelled acronym and the occurrences of
    other acronyms alone, and spells an occurrence of ["R&D"]. *)
Lemma rd_pass (x occ : str) (done : bool) (a b : str) :
  acronym_ok x = true ->
  ci_starts x occ = true -> length occ = length x ->
  opt_word (last_char a) = false -> opt_word (hd_error b) = false ->
  exists a' b',
    re_sub (whole_word_i R_AND_D) (fun _ => spaced R_AND_D)
           (a ++ (if done then spaced x else occ) ++ b)
    = a' ++ (if done || str_eqb R_AND_D x then spaced x else occ) ++ b'
    /\ around (re_sub (whole_word_i R_AND_D) (fun _ => spaced R_AND_D))
              a b a' b'.
Proof.
  intros Hx Cx Hl HA HB. unfold re_sub.
  pose proof (acronym_ok_inv x Hx) as (Lx & Tx & _ & _ & Kx & Sx & Ux).
  destruct done; cbn [orb].
  - now apply rd_pass_sparse.
  - destruct Kx as [-> | Wx].
    + rewrite (proj2 (str_eqb_eq R_AND_D R_AND_D) eq_refl).
      now apply rd_pass_own.
    + assert (E : str_eqb R_AND_D x = false).
      { destruct (str_eqb R_AND_D x) eqn:E; [|reflexivity].
        apply str_eqb_eq in E. subst x. discriminate Wx. }
      rewrite E. apply rd_pass_word; try assumption; [|lia].
      now apply (ci_starts_words x).
Qed.

(** Every pass of the loop. *)
Lemma pass_around (x y occ : str) (done : bool) (a b : str) :
  acronym_ok x = true -> acronym_ok y = true ->
  (map ascii_lower y = map ascii_lower x -> y = x) ->
  ci_starts x occ = true -> length occ = length x ->
  opt_word (last_char a) = false -> opt_word (hd_error b) = false ->
  exists a' b',
    re_sub (whole_word_i y) (fun _ => spaced y)
           (a ++ (if done then spaced x else occ) ++ b)
    = a' ++ (if done || str_eqb y x then spaced x else occ) ++ b'
    /\ around (re_sub (whole_word_i y) (fun _ => spaced y)) a b a' b'.
Proof.
  intros Hx Hy Hap Cx Hl HA HB.
  pose proof (acronym_ok_inv y Hy) as (_ & _ & _ & _ & [-> | Wy] & _).
  - now apply rd_pass.
  - now apply word_pass.
Qed.

(** The loop over the acronyms. *)
Lemma spell_around (x occ : str) (order : list str) :
  acronym_ok x = true ->
  ci_starts x occ = true -> length occ = length x ->
  (forall y, In y order ->
     acronym_ok y = true
     /\ (map ascii_lower y = map ascii_lower x -> y = x)) ->
  forall (done : bool) (a b : str),
    opt_word (last_char a) = false -> opt_word (hd_error b) = false ->
    exists a' b',
      spell_acronyms order (a ++ (if done then spaced x else occ) ++ b)
      = a' ++ (if done || existsb (fun y => str_eqb y x) order
               then spaced x else occ) ++ b'
      /\ around (spell_acronyms order) a b a' b'.
Proof.
  intros Hx Cx Hl. unfold spell_acronyms.
  induction order as [|y order IH]; intros Ho done a b HA HB.
  - cbn [existsb fold_left]. rewrite orb_false_r. exists a, b.
    split; [reflexivity|]. unfold around.
    repeat split; assumption || reflexivity.
  - cbn [existsb fold_left].
    destruct (Ho y (or_introl eq_refl)) as (Hy & Hap).
    destruct (pass_around x y occ done a b Hx Hy Hap Cx Hl HA HB)
      as (a1 & b1 & E1 & HA1 & HB1 & KA1 & KB1).
    rewrite E1.
    assert (Ho' : forall z, In z order ->
                    acronym_ok z = true
                    /\ (map ascii_lower z = map ascii_lower x -> z = x))
      by (intros z Hz; apply Ho; now right).
    destruct (IH Ho' (done || str_eqb y x) a1 b1 HA1 HB1)
      as (a' & b' & E2 & HA2 & HB2 & KA2 & KB2).
    rewrite E2, orb_assoc. exists a', b'. split; [reflexivity|].
    unfold around. split; [assumption|]. split; [assumption|]. split.
    + intros Hn. destruct (KA1 Hn) as (-> & La).
      rewrite <- La in Hn. destruct (KA2 Hn) as (-> & La2).
      split; [reflexivity|]. now rewrite La2.
    + intros Hn. destruct (KB1 Hn) as (-> & Lb).
      rewrite <- Lb in Hn. destruct (KB2 Hn) as (-> & Lb2).
      split; [reflexivity|]. now rewrite Lb2.
Qed.

Lemma letter_acronyms_ok : forallb acronym_ok LETTER_ACRONYMS = true.
Proof. vm_compute. reflexivity. Qed.

Lemma letter_acronyms_apart : acronyms_apart LETTER_ACRONYMS = true.
Proof. vm_compute. reflexivity. Qed.

End AcronymPasses.

(** C7: every whole-word occurrence [occ] of an acronym of
    [LETTER_ACRONYMS], in any letter case, in the text the expansion pass
    leaves, is rewritten to the upper-case letters of the acronym joined by
    single spaces, in whatever order the loop takes the acronyms of the set:
    the result holds the spelled acronym between characters that are not of
    a word, and what is before and behind it is the loop's result on the
    text before and behind the occurrence, unless a ['&'] is next to
    it. *)
Theorem letter_acronym_spelled {U : UnicodeDB} (order : list str)
        (acronym text before occ after : str) :
  incl order LETTER_ACRONYMS -> In acronym order ->
  expand_acronyms text = before ++ occ ++ after ->
  ci_starts acronym occ = true -> length occ = length acronym ->
  opt_word (last_char before) = false ->
  opt_word (hd_error after) = false ->
  exists before' after',
    normalize_acronyms order text = before' ++ spaced acronym ++ after'
    /\ opt_word (last_char before') = false
    /\ opt_word (hd_error after') = false
    /\ (last_char before <> Some 38 ->
        before' = spell_acronyms order before)
    /\ (hd_error after <> Some 38 -> after' = spell_acronyms order after).
Proof.
  intros Hin Hx Et Cx Hl HA HB. unfold normalize_acronyms. rewrite Et.
  pose proof letter_acronyms_ok as Hok. rewrite forallb_forall in Hok.
  pose proof letter_acronyms_apart as Hap. unfold acronyms_apart in Hap.
  rewrite forallb_forall in Hap.
  assert (Ho : forall y, In y order ->
                 acronym_ok y = true
                 /\ (map ascii_lower y = map ascii_lower acronym ->
                     y = acronym)).
  { intros y Hy. split; [apply Hok, Hin, Hy|]. intros E.
    pose proof (Hap y (Hin y Hy)) as H1. rewrite forallb_forall in H1.
    pose proof (H1 acronym (Hin acronym Hx)) as H2.
    rewrite (proj2 (str_eqb_eq _ _) E) in H2. cbn [implb] in H2.
    now apply str_eqb_eq. }
  destruct (spell_around acronym occ order (Hok acronym (Hin acronym Hx))
              Cx Hl Ho false before after HA HB)
    as (a' & b' & E & HA' & HB' & KA & KB).
  cbn [orb] in E.
  assert (Ex : existsb (fun y => str_eqb y acronym) order = true).
  { apply existsb_exists. exists acronym. split; [assumption|].
    now apply str_eqb_eq. }
  rewrite Ex in E. exists a', b'.
  split; [exact E|]. split; [assumption|]. split; [assumption|].
  split; intros Hn; [now apply KA|now apply KB].
Qed.

Lemma letter_acronym_spelled_witness :
  (incl LETTER_ACRONYMS LETTER_ACRONYMS
   /\ In (lit "API") LETTER_ACRONYMS
   /\ @expand_acronyms basic_db (lit "the Api, etc.")
      = lit "the " ++ lit "Api" ++ lit ", et cetera"
   /\ ci_starts (lit "API") (lit "Api") = true
   /\ length (lit "Api") = length (lit "API")
   /\ @opt_word basic_db (last_char (lit "the ")) = false
   /\ @opt_word basic_db (hd_error (lit ", et cetera")) = false)
  /\ (exists before' after',
        @normalize_acronyms basic_db LETTER_ACRONYMS (lit "the Api, etc.")
        = before' ++ spaced (lit "API") ++ after'
        /\ @opt_word basic_db (last_char before') = false
        /\ @opt_word basic_db (hd_error after') = false
        /\ (last_char (lit "the ") <> Some 38 ->
            before' = @spell_acronyms basic_db LETTER_ACRONYMS (lit "the "))
        /\ (hd_error (lit ", et cetera") <> Some 38 ->
            after' = @spell_acronyms basic_db LETTER_ACRONYMS
                       (lit ", et cetera")))
  /\ @normalize_acronyms basic_db LETTER_ACRONYMS (lit "the Api, etc.")
     = lit "the A P I, et cetera".
Proof.
  assert (Hin : In (lit "API") LETTER_ACRONYMS)
    by (unfold LETTER_ACRONYMS; cbn [map]; do 13 right; left; reflexivity).
  split; [|split; [|vm_compute; reflexivity]].
  - split; [apply incl_refl|]. split; [exact Hin|].
    split; [vm_compute; reflexivity|]. repeat split; reflexivity.
  - apply (@letter_acronym_spelled basic_db LETTER_ACRONYMS (lit "API")
             (lit "the Api, etc.") (lit "the ") (lit "Api")
             (lit ", et cetera"));
      [apply incl_refl|exact Hin|vm_compute; reflexivity
      |reflexivity|reflexivity|reflexivity|reflexivity].
Defined.

(** * Further properties of the stages *)

Section ScanChars.
Context {U : UnicodeDB}.

Lemma sub_scan_m_no_match (pat : list item) (repl : list str -> result str)
      (t : str) :
  forall prev, no_match pat prev t -> sub_scan_m pat repl 0 prev t = Ok t.
Proof.
  induction t as [|c t IH]; intros prev H; [reflexivity|].
  destruct H as [H1 H2]. rewrite sub_scan_m_cons, H1, (IH _ H2).
  reflexivity.
Qed.

(** What holds of the characters of the text and of every replacement
    holds of the characters of the result. *)
Lemma sub_scan_Forall (pat : list item) (f : list str -> str)
      (P : char -> Prop) :
  (forall prev t caps n,
     Forall P t -> run pat prev t = Some (caps, n) -> Forall P (f caps)) ->
  forall t k prev, Forall P t -> Forall P (sub_scan pat f k prev t).
Proof.
  intros Hf. induction t as [|c t IH]; intros k prev Ht; [constructor|].
  pose proof Ht as Ht'. inversion Ht as [|? ? Hc Htl]; subst.
  cbn [sub_scan]. destruct k as [|k]; [|now apply IH].
  destruct (run pat prev (c :: t)) as [[caps [|n]]|] eqn:E.
  - constructor; [assumption|now apply IH].
  - apply Forall_app. split; [exact (Hf _ _ _ _ Ht' E)|now apply IH].
  - constructor; [assumption|now apply IH].
Qed.

Lemma sub_scan_m_Forall (pat : list item) (repl : list str -> result str)
      (P : char -> Prop) :
  (forall prev t caps n out,
     Forall P t -> run pat prev t = Some (caps, n) ->
     repl caps = Ok out -> Forall P out) ->
  forall t k prev out,
    Forall P t -> sub_scan_m pat repl k prev t = Ok out -> Forall P out.
Proof.
  intros Hf. induction t as [|c t IH]; intros k prev out Ht E.
  - injection E as <-. constructor.
  - pose proof Ht as Ht'. inversion Ht as [|? ? Hc Htl]; subst.
    cbn [sub_scan_m] in E. destruct k as [|k]; [|now apply (IH k (Some c))].
    destruct (run pat prev (c :: t)) as [[caps [|n]]|] eqn:Er.
    + destruct (sub_scan_m pat repl 0 (Some c) t) as [r| |] eqn:E1;
        try discriminate E.
      injection E as <-. constructor; [assumption|].
      now apply (IH 0%nat (Some c)).
    + destruct (repl caps) as [r1| |] eqn:E0; try discriminate E.
      cbn [bind] in E.
      destruct (sub_scan_m pat repl n (Some c) t) as [r| |] eqn:E1;
        try discriminate E.
      injection E as <-. apply Forall_app. split.
      * exact (Hf _ _ _ _ _ Ht' Er E0).
      * now apply (IH n (Some c)).
    + destruct (sub_scan_m pat repl 0 (Some c) t) as [r| |] eqn:E1;
        try discriminate E.
      injection E as <-. constructor; [assumption|].
      now apply (IH 0%nat (Some c)).
Qed.

(** A pattern that starts with a character the text does not have matches
    nowhere. *)
Lemma lit_head_no_match (c0 : char) (pat : list item) (t : str) :
  ~ In c0 t -> forall prev, no_match (Lit c0 :: pat) prev t.
Proof.
  induction t as [|c t IH]; intros Hn prev; [exact I|]. split.
  - destruct (run (Lit c0 :: pat) prev (c :: t)) as [[caps n]|] eqn:E;
      [|reflexivity].
    apply run_lit_inv in E as (t' & n' & Et & _).
    injection Et as -> _. exfalso. apply Hn. now left.
  - apply IH. intros Hin. apply Hn. now right.
Qed.

(** A pattern that starts, behind a word boundary, with a repetition of a
    class the text has no character of matches nowhere. *)
Lemma rep_head_no_match (p : char -> bool) (lo : nat) (hi : option nat)
      (capture : bool) (pat : list item) (t : str) :
  (1 <= lo)%nat -> Forall (fun c => p c = false) t ->
  forall prev, no_match (Bnd :: Rep p lo hi capture :: pat) prev t.
Proof.
  intros Hlo. induction t as [|c t IH]; intros Ht prev; [exact I|].
  inversion Ht as [|? ? Hc Htl]; subst. split; [|now apply IH].
  destruct (run (Bnd :: Rep p lo hi capture :: pat) prev (c :: t))
    as [r|] eqn:E; [|reflexivity].
  apply run_bnd_inv in E as [_ E]. destruct r as [caps n].
  apply run_rep_inv in E as (j & caps' & n' & Hj & _).
  cbn [span_len] in Hj. rewrite Hc in Hj. lia.
Qed.

(** [text.replace(c, new)] for a single character [c] rewrites the text
    character by character. *)
Lemma str_replace_char (c : char) (new t : str) :
  str_replace [c] new t
  = flat_map (fun x => if c =? x then new else [x]) t.
Proof.
  unfold str_replace, re_sub. cbn [map].
  generalize (@None char). induction t as [|x t IH]; intros prev;
    [reflexivity|].
  rewrite sub_scan_cons. cbn [run flat_map].
  destruct (c =? x); cbn [skipn prev_at]; now rewrite IH.
Qed.


End ScanChars.

(** ** Rule 3 *)

Section DangerousPunctuationProofs.
Context {U : UnicodeDB}.



End DangerousPunctuationProofs.

(** ** Rule 2 *)

Section WhitespaceOutput.
Context {U : UnicodeDB}.

Lemma chain_at (R : char -> char -> Prop) (a : str) (x y : char) (b : str) :
  chain R (a ++ x :: y :: b) -> R x y.
Proof.
  induction a as [|c a IH]; intros H.
  - now destruct H.
  - apply IH. destruct a; now destruct H.
Qed.

Lemma no_triple_lf_at (a b : str) :
  no_triple_lf (a ++ [LF; LF; LF] ++ b) -> False.
Proof.
  induction a as [|c a IH]; intros H.
  - destruct H as [H _]. cbn in H. lia.
  - destruct H as [_ H]. now apply IH.
Qed.

(** X2.  In the result of [normalize_whitespace] the only whitespace is the
    space and the line feed, no space has whitespace next to it, no three
    line feeds follow one another, and there is no whitespace at either
    end. *)
Theorem normalize_whitespace_output (text : str) :
  Forall (fun c => isspace c = true -> c = SPACE \/ c = LF)
         (normalize_whitespace text)
  /\ (forall a x y b,
        normalize_whitespace text = a ++ x :: y :: b ->
        (x = SPACE -> isspace y = false) /\ (y = SPACE -> isspace x = false))
  /\ (forall a b, normalize_whitespace text <> a ++ [LF; LF; LF] ++ b)
  /\ (forall c, hd_error (normalize_whitespace text) = Some c ->
                isspace c = false)
  /\ (forall c, last_char (normalize_whitespace text) = Some c ->
                isspace c = false).
Proof.
  destruct (normalize_whitespace_canonical text) as (H1 & H2 & H3 & H4).
  split; [exact H1|]. split; [|split; [|split]].
  - intros a x y b E. rewrite E in H2. exact (chain_at apart a x y b H2).
  - intros a b E. rewrite E in H3. exact (no_triple_lf_at a b H3).
  - intros c Hc. destruct H4 as [E|(_ & H & _)];
      [rewrite E in Hc; discriminate Hc|now apply H].
  - intros c Hc. destruct H4 as [E|(_ & _ & H)];
      [rewrite E in Hc; discriminate Hc|now apply H].
Qed.

End WhitespaceOutput.

(** ** Rule 5 *)

Section SpellerErrors.
Open Scope Z_scope.

(** The loop raises IndexError from the scale of index 5 on. *)
Lemma scale_loop_index_error (rec : Z -> result str) :
  (forall g, 0 < g < 1000 -> exists w, rec g = Ok w) ->
  forall (loops : nat) (n : Z) (parts : list str) (i : nat),
    0 < n < 2 ^ Z.of_nat loops ->
    1000 ^ Z.of_nat (5 - i) <= n ->
    scale_loop loops rec n parts (Z.of_nat i) = Raise IndexError.
Proof.
  intros Hrec. induction loops as [|loops IH]; intros n parts i Hn Hi.
  - simpl in Hn. lia.
  - cbn [scale_loop].
    assert (E0 : (n >? 0) = true) by (apply Z.gtb_lt; lia).
    rewrite E0.
    assert (Hm : 0 <= n mod 1000 < 1000) by (apply Z.mod_pos_bound; lia).
    assert (Hd : n = 1000 * (n / 1000) + n mod 1000)
      by (apply Z.div_mod; lia).
    assert (Hp : 2 ^ Z.of_nat (S loops) = 2 * 2 ^ Z.of_nat loops)
      by (rewrite Nat2Z.inj_succ, Z.pow_succ_r; lia).
    assert (Hlt : n / 1000 < 2 ^ Z.of_nat loops)
      by (apply Z.div_lt_upper_bound; lia).
    assert (Hnext : (5 <= i)%nat \/
                    ((i < 5)%nat /\ 0 < n / 1000
                     /\ 1000 ^ Z.of_nat (5 - S i) <= n / 1000)).
    { destruct (Nat.leb_spec 5 i) as [H5|H5]; [now left|right].
      assert (Ei : (5 - i = S (5 - S i))%nat) by lia.
      rewrite Ei, Nat2Z.inj_succ, Z.pow_succ_r in Hi by lia.
      assert (0 < 1000 ^ Z.of_nat (5 - S i)) by (apply Z.pow_pos_nonneg; lia).
      split; [assumption|]. split; [apply Z.div_str_pos; lia|].
      apply Z.div_le_lower_bound; lia. }
    replace (Z.of_nat i + 1) with (Z.of_nat (S i)) by lia.
    destruct (n mod 1000 =? 0) eqn:Ec; cbn [negb].
    + apply Z.eqb_eq in Ec. apply IH.
      * split; [|assumption]. apply Z.div_str_pos. lia.
      * destruct Hnext as [H5|(_ & _ & H)]; [|assumption].
        replace (5 - S i)%nat with 0%nat by lia. simpl.
        assert (0 < n / 1000) by (apply Z.div_str_pos; lia). lia.
    + apply Z.eqb_neq in Ec.
      destruct (Hrec (n mod 1000)) as (w & Ew); [lia|]. rewrite Ew.
      cbn [bind].
      destruct (Z.of_nat i >? 0) eqn:Ei.
      * destruct Hnext as [H5|(H5 & Hpos & H)].
        -- rewrite py_index_out; [reflexivity|]. simpl. lia.
        -- rewrite (py_index_ok SCALES (Z.of_nat i) [])
             by (simpl; lia).
           cbn [bind]. apply IH; [lia|assumption].
      * destruct Hnext as [H5|(H5 & Hpos & H)].
        -- rewrite Z.gtb_ltb in Ei. apply Z.ltb_ge in Ei. lia.
        -- apply IH; [lia|assumption].
Qed.

Lemma number_to_words_large (d : nat) (n : Z) :
  10 ^ 15 <= n ->
  number_to_words_rec (S (S (S d))) n = Raise IndexError.
Proof.
  intros Hn. rewrite number_to_words_rec_eq.
  assert (E1 : (n =? 0) = false) by (apply Z.eqb_neq; lia).
  assert (E2 : (n <? 0) = false) by (apply Z.ltb_ge; lia).
  assert (E3 : (n <? 20) = false) by (apply Z.ltb_ge; lia).
  assert (E4 : (n <? 100) = false) by (apply Z.ltb_ge; lia).
  assert (E5 : (n <? 1000) = false) by (apply Z.ltb_ge; lia).
  rewrite E1, E2, E3, E4, E5.
  assert (Hs : scale_loop (S (Z.to_nat (Z.log2 n)))
                 (number_to_words_rec (S (S d))) n [] 0 = Raise IndexError).
  { apply (scale_loop_index_error (number_to_words_rec (S (S d)))
             (fun g Hg => ex_intro _ (Reference.below_thousand g)
                            (words_below_thousand d g Hg))
             (S (Z.to_nat (Z.log2 n))) n [] 0%nat).
    - split; [lia|].
      rewrite Nat2Z.inj_succ, Z2Nat.id by (apply Z.log2_nonneg).
      apply Z.log2_spec. lia.
    - change (1000 ^ Z.of_nat (5 - 0)) with (10 ^ 15). exact Hn. }
  rewrite Hs. reflexivity.
Qed.

(** X3.  [_number_to_words] raises IndexError for every number of sixteen
    digits or more, negative or not: the table [SCALES] ends with the
    trillions. *)
Theorem number_to_words_index_error (n : Z) :
  10 ^ 15 <= Z.abs n -> _number_to_words n = Raise IndexError.
Proof.
  intros Hn. unfold _number_to_words.
  destruct (Z.ltb_spec n 0) as [Hneg|Hpos].
  - rewrite number_to_words_rec_eq.
    assert (E1 : (n =? 0) = false) by (apply Z.eqb_neq; lia).
    assert (E2 : (n <? 0) = true) by (apply Z.ltb_lt; lia).
    rewrite E1, E2, (number_to_words_large 0 (- n)) by lia. reflexivity.
  - apply (number_to_words_large 1). lia.
Qed.

Lemma number_to_words_index_error_witness :
  10 ^ 15 <= Z.abs (- (10 ^ 18 + 7))
  /\ _number_to_words (- (10 ^ 18 + 7)) = Raise IndexError.
Proof.
  split; [vm_compute; discriminate|].
  apply (number_to_words_index_error (- (10 ^ 18 + 7))).
  vm_compute. discriminate.
Defined.

End SpellerErrors.

(** ** Rule 9 *)

Section ProseErrors.
Context {U : UnicodeDB}.

Lemma prose_item_ok (item : str) :
  item <> [] -> exists body, prose_item item = Ok body.
Proof.
  destruct item as [|c0 rest]; [congruence|]. intros _. cbn [prose_item].
  destruct (isupper c0 && negb match rest with
                               | [] => false
                               | c1 :: _ => isupper c1
                               end); eexists; reflexivity.
Qed.

Lemma prose_parts_raise (items : list str) :
  In [] items -> forall i, prose_parts i items = Raise IndexError.
Proof.
  induction items as [|item items IH]; intros Hin i; [destruct Hin|].
  cbn [prose_parts]. destruct item as [|c0 rest]; [reflexivity|].
  destruct (prose_item_ok (c0 :: rest)) as (body & ->); [discriminate|].
  cbn [bind]. destruct Hin as [E|Hin]; [discriminate E|].
  now rewrite (IH Hin).
Qed.

Lemma empty_item_or_none (items : list str) :
  In [] items \/ Forall (fun item => item <> []) items.
Proof.
  induction items as [|item items [IH|IH]].
  - right. constructor.
  - left. now right.
  - destruct item as [|c item]; [left; now left|].
    right. constructor; [discriminate|assumption].
Qed.

(** X4.  [_list_to_prose] raises IndexError exactly for a list of two or
    more items one of which is the empty string ([item[0]] is out of
    range); it raises nothing else. *)
Theorem list_to_prose_index_error (items : list str) :
  (_list_to_prose items = Raise IndexError
   <-> (In [] items /\ length items <> 1%nat))
  /\ (forall e, _list_to_prose items = Raise e -> e = IndexError).
Proof.
  assert (Hone : forall item, _list_to_prose [item] = Ok item)
    by reflexivity.
  assert (Hmany : length items <> 1%nat ->
                  _list_to_prose items
                  = (parts <- prose_parts 0 items ;;
                     Ok (join (lit " ") parts))).
  { destruct items as [|a [|b items]]; try reflexivity. intros H.
    now destruct H. }
  destruct (Nat.eq_dec (length items) 1) as [E1|E1].
  - destruct items as [|item [|? ?]]; try discriminate E1.
    rewrite Hone. repeat split; try discriminate.
    intros [_ H]. now destruct H.
  - rewrite (Hmany E1).
    destruct (empty_item_or_none items) as [Hin|Hall].
    + rewrite (prose_parts_raise items Hin 0). cbn [bind].
      repeat split; try assumption; try discriminate.
      intros e H. now injection H as <-.
    + rewrite (prose_parts_entries items Hall 0). cbn [bind].
      repeat split; try discriminate.
      intros [Hin _]. rewrite Forall_forall in Hall.
      now destruct (Hall [] Hin).
Qed.

End ProseErrors.

(** ** Rule 10 *)

Section ChunkJoin.
Context {U : UnicodeDB}.

Lemma join_app (sep : str) (a b : list str) :
  a <> [] -> b <> [] ->
  join sep (a ++ b) = join sep a ++ sep ++ join sep b.
Proof.
  induction a as [|x a IH]; intros Ha Hb; [congruence|].
  destruct a as [|y a].
  - destruct b as [|z b]; [congruence|]. reflexivity.
  - change ((x :: y :: a) ++ b) with (x :: (y :: a) ++ b).
    change ((y :: a) ++ b) with (y :: a ++ b) at 1.
    rewrite join_cons2. change (y :: a ++ b) with ((y :: a) ++ b).
    rewrite IH by (assumption || discriminate).
    rewrite join_cons2. now rewrite <- !app_assoc.
Qed.

Lemma join_concat (sep : str) (groups : list (list str)) :
  Forall (fun g => g <> []) groups ->
  join sep (map (join sep) groups) = join sep (concat groups).
Proof.
  induction groups as [|g groups IH]; intros H; [reflexivity|].
  inversion H as [|? ? Hg Hgs]; subst.
  destruct groups as [|g2 groups].
  - cbn [map concat join]. now rewrite app_nil_r.
  - cbn [map]. rewrite join_cons2. cbn [map] in IH. rewrite (IH Hgs).
    cbn [concat].
    rewrite (join_app sep g (g2 ++ concat groups)); [reflexivity|assumption|].
    inversion Hgs as [|? ? Hg2 _]; subst.
    destruct g2; [congruence|discriminate].
Qed.

(** X5.  Chunking loses and reorders nothing: the chunks joined by single
    spaces are the sentences of the text joined by single spaces, whatever
    the limit. *)
Theorem chunk_text_keeps_sentences (text : str) (max_chars : Z) :
  join (lit " ") (chunk_text text max_chars)
  = join (lit " ") (sentences text).
Proof.
  destruct (chunk_text_groups text max_chars) as (groups & -> & <- & H).
  apply join_concat. revert H. apply Forall_impl. now intros g [Hg _].
Qed.

End ChunkJoin.

(** ** Rule 1 *)

Section StripHtmlProofs.
Context {U : UnicodeDB}.

Lemma str_replace_missing (c0 : char) (old new t : str) :
  hd_error old = Some c0 -> ~ In c0 t -> str_replace old new t = t.
Proof.
  destruct old as [|c old]; [discriminate|]. intros E. injection E as ->.
  apply str_replace_absent.
Qed.

Lemma replace_table_missing (c0 : char) (table : list (str * str)) :
  Forall (fun ec => hd_error (fst ec) = Some c0) table ->
  forall t, ~ In c0 t ->
            fold_left (fun t ec => str_replace (fst ec) (snd ec) t) table t
            = t.
Proof.
  induction table as [|ec table IH]; intros H t Ht; [reflexivity|].
  inversion H as [|? ? H1 H2]; subst. cbn [fold_left].
  rewrite (str_replace_missing c0 _ _ t H1 Ht). now apply IH.
Qed.

Lemma replace_table_Forall (P : char -> Prop) (table : list (str * str)) :
  Forall (fun ec => Forall P (snd ec)) table ->
  forall t, Forall P t ->
            Forall P (fold_left (fun t ec => str_replace (fst ec) (snd ec) t)
                                table t).
Proof.
  induction table as [|ec table IH]; intros H t Ht; [exact Ht|].
  inversion H as [|? ? H1 H2]; subst. cbn [fold_left]. apply IH; [exact H2|].
  unfold str_replace, re_sub. apply sub_scan_Forall; [|exact Ht].
  intros; exact H1.
Qed.

Lemma html_entities_amp :
  Forall (fun ec : str * str => hd_error (fst ec) = Some 38) html_entities.
Proof. repeat constructor. Qed.

Lemma html_entities_no_hash :
  Forall (fun ec : str * str => Forall (fun c => c <> 35) (snd ec))
         html_entities.
Proof. repeat constructor; discriminate. Qed.

Lemma numeric_entity_no_hash (t : str) :
  Forall (fun c => c <> 35) t ->
  forall prev, no_match numeric_entity prev t.
Proof.
  induction t as [|c t IH]; intros Ht prev; [exact I|].
  inversion Ht as [|? ? Hc Htl]; subst. split; [|now apply IH].
  destruct (run numeric_entity prev (c :: t)) as [[caps n]|] eqn:E;
    [|reflexivity].
  unfold numeric_entity in E.
  apply run_lit_inv in E as (t' & n' & Et & E & _).
  apply run_lit_inv in E as (t'' & n'' & Et' & _).
  injection Et as _ <-. subst t. inversion Htl as [|? ? H35 _]; subst.
  now destruct H35.
Qed.

(** X6.  A text without ['<'] and without ['&'] passes through [strip_html]
    unchanged. *)
Theorem strip_html_plain (text : str) :
  ~ In 60 text -> ~ In 38 text -> strip_html text = Ok text.
Proof.
  intros Hlt Hamp. unfold strip_html.
  assert (E1 : re_sub html_tag (fun _ => []) text = text)
    by (apply sub_scan_no_match, lit_head_no_match; assumption).
  rewrite E1.
  rewrite (replace_table_missing 38 html_entities html_entities_amp text Hamp).
  apply sub_scan_m_no_match, lit_head_no_match. assumption.
Qed.

(** X7.  [strip_html] raises only through a numeric entity: for a text
    without ['#'] it returns, and its result has no ['#']. *)
Theorem strip_html_no_hash (text : str) :
  ~ In 35 text ->
  exists out, strip_html text = Ok out /\ ~ In 35 out.
Proof.
  intros Hh. unfold strip_html.
  assert (H0 : Forall (fun c => c <> 35) text)
    by (apply Forall_forall; intros c Hc ->; now apply Hh).
  assert (H1 : Forall (fun c => c <> 35)
                      (re_sub html_tag (fun _ => []) text))
    by (unfold re_sub; apply sub_scan_Forall; [intros; constructor|exact H0]).
  pose proof (replace_table_Forall _ html_entities html_entities_no_hash
                _ H1) as H2.
  eexists. split.
  - apply sub_scan_m_no_match, numeric_entity_no_hash. exact H2.
  - rewrite Forall_forall in H2. intros Hin. exact (H2 35 Hin eq_refl).
Qed.

End StripHtmlProofs.

Lemma strip_html_plain_witness :
  (~ In 60 (lit "a > b; c") /\ ~ In 38 (lit "a > b; c"))
  /\ @strip_html basic_db (lit "a > b; c") = Ok (lit "a > b; c").
Proof.
  assert (H1 : ~ In 60 (lit "a > b; c"))
    by (cbn; intros H; repeat destruct H as [H|H]; try discriminate H; exact H).
  assert (H2 : ~ In 38 (lit "a > b; c"))
    by (cbn; intros H; repeat destruct H as [H|H]; try discriminate H; exact H).
  split; [split; assumption|].
  exact (@strip_html_plain basic_db (lit "a > b; c") H1 H2).
Defined.

Lemma strip_html_no_hash_witness :
  ~ In 35 (lit "<b>a &amp; b</b>")
  /\ exists out,
       @strip_html basic_db (lit "<b>a &amp; b</b>") = Ok out
       /\ ~ In 35 out.
Proof.
  assert (H1 : ~ In 35 (lit "<b>a &amp; b</b>"))
    by (cbn; intros H; repeat destruct H as [H|H]; try discriminate H; exact H).
  split; [exact H1|].
  exact (@strip_html_no_hash basic_db (lit "<b>a &amp; b</b>") H1).
Defined.

(** ** Rules 5 and 6 on a text without digits *)

Section DigitFree.
Context {U : UnicodeDB}.

Lemma ascii_digit_is_digit (d : char) :
  (48 <=? d) && (d <=? 57) = true -> is_digit d = true.
Proof.
  intros H. unfold is_digit.
  assert (Hlt : d < 128)
    by (apply andb_prop in H as [H1 H2]; apply N.leb_le in H2; lia).
  rewrite (decimal_ascii d Hlt). unfold ascii_decimal. now rewrite H.
Qed.

Lemma ci_eq_digit (d c : char) :
  (48 <=? d) && (d <=? 57) = true -> ci_eq d c = true -> c = d.
Proof.
  intros H E. apply andb_prop in H as [H1 H2].
  apply N.leb_le in H1, H2.
  unfold ci_eq, ascii_lower, ascii_isupper in E.
  destruct ((65 <=? d) && (d <=? 90)) eqn:Ed.
  { apply andb_prop in Ed as [Ed _]. apply N.leb_le in Ed. lia. }
  destruct ((65 <=? c) && (c <=? 90)) eqn:Ec.
  - apply andb_prop in Ec as [Ec1 Ec2]. apply N.leb_le in Ec1, Ec2.
    repeat (apply orb_prop in E as [E|E]);
      repeat (apply andb_prop in E as [E ?]); apply N.eqb_eq in E; lia.
  - repeat (apply orb_prop in E as [E|E]);
      repeat (apply andb_prop in E as [E ?]); apply N.eqb_eq in E; lia.
Qed.

Lemma digit_head_no_match (w t : str) :
  digit_headed w = true ->
  Forall (fun c => is_digit c = false) t ->
  forall prev, no_match (whole_word_i w) prev t.
Proof.
  intros Hw. destruct w as [|d w]; [discriminate|]. cbn [digit_headed] in Hw.
  induction t as [|c t IH]; intros Ht prev; [exact I|].
  inversion Ht as [|? ? Hc Htl]; subst. split; [|now apply IH].
  rewrite run_whole_word_i. cbn [ci_starts].
  destruct (ci_eq d c) eqn:E.
  - apply (ci_eq_digit d c Hw) in E. subst c.
    rewrite (ascii_digit_is_digit d Hw) in Hc. discriminate Hc.
  - now rewrite andb_false_r.
Qed.

Lemma digit_table_unchanged (table : list (str * str)) :
  forallb (fun ow => digit_headed (fst ow)) table = true ->
  forall t, Forall (fun c => is_digit c = false) t ->
            fold_left (fun t ow => re_sub (whole_word_i (fst ow))
                                          (fun _ => snd ow) t) table t = t.
Proof.
  induction table as [|ow table IH]; intros H t Ht; [reflexivity|].
  cbn [forallb] in H. apply andb_prop in H as [H1 H2]. cbn [fold_left].
  assert (E : re_sub (whole_word_i (fst ow)) (fun _ => snd ow) t = t)
    by (apply sub_scan_no_match, digit_head_no_match; assumption).
  rewrite E. now apply IH.
Qed.

(** X8.  A text without digits passes through [normalize_numbers] and
    through [normalize_dates] unchanged, and without an exception. *)
Theorem digit_free_text_unchanged (text : str) :
  Forall (fun c => is_digit c = false) text ->
  normalize_numbers text = Ok text /\ normalize_dates text = Ok text.
Proof.
  intros Ht. split.
  - unfold normalize_numbers, replace_ordinals.
    rewrite (digit_table_unchanged ORDINALS) by (reflexivity || assumption).
    apply sub_scan_m_no_match. unfold number_token.
    apply rep_head_no_match; [lia|assumption].
  - unfold normalize_dates, re_sub_m.
    rewrite (sub_scan_m_no_match us_date replace_us_date text None)
      by (apply rep_head_no_match; [lia|assumption]).
    cbn [bind]. apply sub_scan_m_no_match.
    apply rep_head_no_match; [lia|assumption].
Qed.


End DigitFree.

Lemma digit_free_text_unchanged_witness :
  Forall (fun c => @is_digit basic_db c = false) (lit "In May, etc.")
  /\ @normalize_numbers basic_db (lit "In May, etc.")
     = Ok (lit "In May, etc.")
  /\ @normalize_dates basic_db (lit "In May, etc.")
     = Ok (lit "In May, etc.").
Proof.
  assert (H : Forall (fun c => @is_digit basic_db c = false)
                     (lit "In May, etc."))
    by (repeat constructor).
  split; [exact H|].
  exact (@digit_free_text_unchanged basic_db (lit "In May, etc.") H).
Defined.

(** ** Rule 4 *)

Section ControlCharacters.
Context {C : UnicodeCategories}.


Lemma split_on_parts (sep : char) (t : str) :
  exists p ps, split_on sep t = p :: ps.
Proof.
  induction t as [|c t (p & ps & IH)]; [now exists [], []|].
  cbn [split_on]. rewrite IH. destruct (c =? sep); eexists; eexists;
    reflexivity.
Qed.

(** X9.  [strip_control_characters] is idempotent. *)
Theorem strip_control_characters_idempotent (text : str) :
  strip_control_characters (strip_control_characters text)
  = strip_control_characters text.
Proof.
  induction text as [|c t IH]; [reflexivity|].
  cbn [strip_control_characters].
  destruct (c =? 10) eqn:E1.
  { cbn [strip_control_characters]. now rewrite E1, IH. }
  destruct (existsb (str_eqb (category c)) [lit "Cc"; lit "Cf"]) eqn:E2;
    [exact IH|].
  destruct (c =? 160) eqn:E3.
  { cbn [strip_control_characters]. rewrite category_space.
    cbn. now rewrite IH. }
  destruct (existsb (N.eqb c) zero_width) eqn:E4; [exact IH|].
  cbn [strip_control_characters]. now rewrite E1, E2, E3, E4, IH.
Qed.

(** X10.  [strip_control_characters] works line by line: it takes away and
    brings in no line feed. *)
Theorem strip_control_characters_lines (text : str) :
  split_on 10 (strip_control_characters text)
  = map strip_control_characters (split_on 10 text).
Proof.
  induction text as [|c t IH]; [reflexivity|].
  destruct (split_on_parts 10 t) as (p & ps & Es).
  assert (Hs : split_on 10 (c :: t)
               = if c =? 10 then [] :: p :: ps else (c :: p) :: ps)
    by (cbn [split_on]; now rewrite Es).
  assert (Hk : split_on 10 (strip_control_characters t)
               = strip_control_characters p
                   :: map strip_control_characters ps)
    by (now rewrite IH, Es).
  assert (Hx : forall x, (x =? 10) = false ->
                 split_on 10 (x :: strip_control_characters t)
                 = (x :: strip_control_characters p)
                     :: map strip_control_characters ps)
    by (intros x E; cbn [split_on]; now rewrite E, Hk).
  rewrite Hs. cbn [strip_control_characters].
  destruct (c =? 10) eqn:E1.
  { cbn [split_on map strip_control_characters]. now rewrite E1, Hk. }
  cbn [map strip_control_characters]. rewrite E1.
  destruct (existsb (str_eqb (category c)) [lit "Cc"; lit "Cf"]);
    [exact Hk|].
  destruct (c =? 160); [exact (Hx 32 eq_refl)|].
  destruct (existsb (N.eqb c) zero_width); [exact Hk|exact (Hx c E1)].
Qed.

End ControlCharacters.

Section EmojiProofs.
Context {U : UnicodeDB}.

Lemma filter_span (p : char -> bool) (t : str) :
  filter (fun c => negb (p c)) (skipn (span_len p t) t)
  = filter (fun c => negb (p c)) t.
Proof.
  induction t as [|c t IH]; [reflexivity|]. cbn [span_len].
  destruct (p c) eqn:E; cbn [skipn filter]; rewrite E; [exact IH|reflexivity].
Qed.

(** The removal of the runs of a class keeps the other characters. *)
Lemma rep_sub_filter (p : char -> bool) :
  forall n t prev,
    (length t <= n)%nat ->
    sub_scan [Rep p 1 None false] (fun _ => []) 0 prev t
    = filter (fun c => negb (p c)) t.
Proof.
  induction n as [|n IH]; intros t prev Hn.
  - destruct t; [reflexivity|simpl in Hn; lia].
  - destruct t as [|c t]; [reflexivity|]. simpl in Hn.
    rewrite sub_scan_cons, run_single_rep. cbn [span_len filter].
    destruct (p c) eqn:E; cbn [negb Nat.ltb Nat.leb Nat.add].
    + cbn [app]. rewrite IH by (rewrite length_skipn; lia).
      rewrite Nat.add_0_r. apply filter_span.
    + rewrite IH by lia. reflexivity.
Qed.

(** X11.  [remove_emojis] keeps exactly the characters outside the ranges of
    the pattern, in their order. *)
Theorem remove_emojis_filter (text : str) :
  remove_emojis text = filter (fun c => negb (emoji c)) text.
Proof.
  unfold remove_emojis, re_sub, emoji_pattern.
  now apply (rep_sub_filter emoji (length text)).
Qed.

(** X12.  The range from U+24C2 to U+1F251 of the pattern takes every code
    point between them away, the CJK ideographs, the kana and the Hangul
    syllables among them. *)
Theorem remove_emojis_wide_range (text : str) (c : char) :
  9410 <= c <= 127569 -> ~ In c (remove_emojis text).
Proof.
  intros Hc Hin. unfold remove_emojis, re_sub, emoji_pattern in Hin.
  rewrite (rep_sub_filter emoji (length text)) in Hin by lia.
  apply filter_In in Hin as [_ Hin].
  assert (E : emoji c = true).
  { unfold emoji. destruct Hc as [H1 H2].
    apply N.leb_le in H1, H2. rewrite H1, H2.
    now rewrite !orb_true_r. }
  rewrite E in Hin. discriminate Hin.
Qed.

End EmojiProofs.

Lemma remove_emojis_wide_range_witness :
  9410 <= 20013 <= 127569
  /\ ~ In 20013 (@remove_emojis basic_db [20013; 25991; 32; 111; 107])
  /\ @remove_emojis basic_db [20013; 25991; 32; 111; 107] = lit " ok".
Proof.
  assert (H : 9410 <= 20013 <= 127569) by lia.
  split; [exact H|]. split; [|vm_compute; reflexivity].
  exact (@remove_emojis_wide_range basic_db [20013; 25991; 32; 111; 107]
           20013 H).
Defined.

Section SpecialUnicodeProofs.
Context {U : UnicodeDB}.

Lemma flat_map_flat_map {A} (f g : A -> list A) (t : list A) :
  flat_map g (flat_map f t) = flat_map (fun x => flat_map g (f x)) t.
Proof.
  induction t as [|x t IH]; [reflexivity|]. cbn [flat_map].
  now rewrite flat_map_app, IH.
Qed.

Lemma flat_map_fixed {A} (g : A -> list A) (r : list A) :
  Forall (fun x => g x = [x]) r -> flat_map g r = r.
Proof.
  induction 1 as [|x r Hx _ IH]; [reflexivity|]. cbn [flat_map].
  now rewrite Hx, IH.
Qed.

Lemma dict_get_missing (table : list (str * str)) (key : str) :
  existsb (fun sr => str_eqb (fst sr) key) table = false ->
  dict_get table key key = key.
Proof.
  induction table as [|[k r] table IH]; [reflexivity|]. cbn [existsb fst].
  intros H. apply orb_false_elim in H as [H1 H2]. cbn [dict_get].
  rewrite H1. now apply IH.
Qed.

(** A table of single characters none of which comes back in a later
    replacement rewrites a text character by character. *)
Lemma replace_table_charwise (table : list (str * str)) :
  keys_apart table = true ->
  forall t,
    fold_left (fun t sr => str_replace (fst sr) (snd sr) t) table t
    = flat_map (fun c => dict_get table [c] [c]) t.
Proof.
  induction table as [|[k r] table IH]; intros H t.
  - cbn [fold_left dict_get]. induction t as [|x t IHt]; [reflexivity|].
    cbn [flat_map app]. now rewrite <- IHt.
  - cbn [keys_apart] in H. apply andb_prop in H as [H H3].
    apply andb_prop in H as [H1 H2].
    destruct k as [|kc [|? ?]]; try discriminate H1.
    cbn [fold_left fst snd]. rewrite (IH H3), str_replace_char.
    rewrite flat_map_flat_map. apply flat_map_ext. intros x.
    cbn [dict_get str_eqb]. rewrite andb_true_r.
    destruct (kc =? x).
    + apply flat_map_fixed. rewrite forallb_forall in H2.
      apply Forall_forall. intros c Hc. apply dict_get_missing.
      specialize (H2 c Hc). now destruct (existsb _ table).
    + cbn [flat_map]. apply app_nil_r.
Qed.

(** X13.  [replace_special_unicode] rewrites the text character by character:
    the order of the entries of its table does not matter. *)
Theorem replace_special_unicode_charwise (text : str) :
  replace_special_unicode text = flat_map special text.
Proof.
  unfold replace_special_unicode, special.
  now apply replace_table_charwise.
Qed.

(** The entries of a table whose keys the text does not have do not
    count. *)
Lemma replace_table_reachable (p : char -> bool)
      (table : list (str * str)) :
  Forall (fun sr => Forall (fun c => p c = false) (snd sr)) table ->
  forall t,
    Forall (fun c => p c = false) t ->
    fold_left (fun t sr => str_replace (fst sr) (snd sr) t) table t
    = fold_left (fun t sr => str_replace (fst sr) (snd sr) t)
                (filter (fun sr => negb (match fst sr with
                                         | k :: _ => p k
                                         | [] => false
                                         end)) table) t.
Proof.
  induction table as [|[k r] table IH]; intros H t Ht; [reflexivity|].
  inversion H as [|? ? Hr Htab]; subst. cbn [fold_left filter fst snd].
  destruct k as [|kc k]; cbn [negb].
  - cbn [fold_left fst snd]. apply (IH Htab).
    unfold str_replace, re_sub. apply sub_scan_Forall; [|exact Ht].
    intros; exact Hr.
  - destruct (p kc) eqn:Ek; cbn [negb].
    + rewrite str_replace_absent; [now apply IH|].
      intros Hin. rewrite Forall_forall in Ht.
      rewrite (Ht kc Hin) in Ek. discriminate Ek.
    + cbn [fold_left fst snd]. apply (IH Htab).
      unfold str_replace, re_sub. apply sub_scan_Forall; [|exact Ht].
      intros; exact Hr.
Qed.

(** X14.  In [convert], [remove_emojis] runs before [replace_special_unicode]
    and has taken the check marks, the crosses and the boxes away: their six
    entries of the table never apply. *)
Theorem check_marks_removed_before_replaced (text : str) :
  replace_special_unicode (remove_emojis text)
  = fold_left (fun t sr => str_replace (fst sr) (snd sr) t)
      (filter (fun sr => negb (existsb emoji (fst sr))) replacements)
      (remove_emojis text)
  /\ map fst (filter (fun sr => existsb emoji (fst sr)) replacements)
     = [[10003]; [10004]; [10007]; [10008]; [9745]; [9744]].
Proof.
  split; [|reflexivity]. unfold replace_special_unicode.
  assert (Et : filter (fun sr : str * str =>
                         negb (match fst sr with
                               | k :: _ => emoji k
                               | [] => false
                               end)) replacements
               = filter (fun sr => negb (existsb emoji (fst sr)))
                        replacements)
    by (vm_compute; reflexivity).
  rewrite <- Et. apply (replace_table_reachable emoji replacements).
  - apply Forall_forall. intros sr Hsr. apply Forall_forall. intros c Hc.
    assert (Hall : forallb (fun sr : str * str =>
                              forallb (fun c => negb (emoji c)) (snd sr))
                           replacements = true)
      by (vm_compute; reflexivity).
    rewrite forallb_forall in Hall. specialize (Hall sr Hsr).
    rewrite forallb_forall in Hall. specialize (Hall c Hc).
    now destruct (emoji c).
  - unfold remove_emojis, re_sub, emoji_pattern.
    rewrite (rep_sub_filter emoji (length text)) by lia.
    apply Forall_forall. intros c Hc.
    apply filter_In in Hc as [_ Hc]. now destruct (emoji c).
Qed.

End SpecialUnicodeProofs.

(** ** Rule 7 *)

Section SymbolProofs.
Context {U : UnicodeDB}.

Lemma scan_by_cons (m : option char -> str -> option (list str * nat))
      (repl : list str -> result str) (prev : option char) (c : char)
      (t : str) :
  scan_by m repl 0 prev (c :: t)
  = match m prev (c :: t) with
    | Some (caps, S n) =>
        r <- repl caps ;;
        rest <- scan_by m repl n (Some c) t ;;
        Ok (r ++ rest)
    | _ => rest <- scan_by m repl 0 (Some c) t ;; Ok (c :: rest)
    end.
Proof. reflexivity. Qed.

(** A matcher that matches at no character of the text leaves it as it
    is. *)
Lemma scan_by_none (m : option char -> str -> option (list str * nat))
      (repl : list str -> result str) (t : str) :
  Forall (fun c => forall prev t', m prev (c :: t') = None) t ->
  forall prev, scan_by m repl 0 prev t = Ok t.
Proof.
  induction 1 as [|c t Hc _ IH]; intros prev; [reflexivity|].
  rewrite scan_by_cons, Hc, IH. reflexivity.
Qed.

Lemma scan_by_Forall (m : option char -> str -> option (list str * nat))
      (repl : list str -> result str) (P : char -> Prop) :
  (forall caps out, repl caps = Ok out -> Forall P out) ->
  forall t k prev out,
    Forall P t -> scan_by m repl k prev t = Ok out -> Forall P out.
Proof.
  intros Hf. induction t as [|c t IH]; intros k prev out Ht E.
  - injection E as <-. constructor.
  - inversion Ht as [|? ? Hc Htl]; subst.
    cbn [scan_by] in E. destruct k as [|k]; [|now apply (IH k (Some c))].
    destruct (m prev (c :: t)) as [[caps [|n]]|] eqn:Er.
    + destruct (scan_by m repl 0 (Some c) t) as [r| |] eqn:E1;
        try discriminate E.
      injection E as <-. constructor; [assumption|].
      now apply (IH 0%nat (Some c)).
    + destruct (repl caps) as [r1| |] eqn:E0; try discriminate E.
      cbn [bind] in E.
      destruct (scan_by m repl n (Some c) t) as [r| |] eqn:E1;
        try discriminate E.
      injection E as <-. apply Forall_app. split.
      * exact (Hf _ _ E0).
      * now apply (IH n (Some c)).
    + destruct (scan_by m repl 0 (Some c) t) as [r| |] eqn:E1;
        try discriminate E.
      injection E as <-. constructor; [assumption|].
      now apply (IH 0%nat (Some c)).
Qed.

Lemma str_replace_Forall (P : char -> Prop) (old new t : str) :
  Forall P new -> Forall P t -> Forall P (str_replace old new t).
Proof.
  intros Hn Ht. unfold str_replace, re_sub.
  apply sub_scan_Forall; [intros; exact Hn|exact Ht].
Qed.

Lemma str_replace_gone (P : char -> Prop) (c : char) (new t : str) :
  Forall P new -> ~ In c new -> Forall P t ->
  Forall (fun x => P x /\ x <> c) (str_replace [c] new t).
Proof.
  intros Hn Hc Ht. rewrite str_replace_char.
  induction Ht as [|x t Hx _ IH]; [constructor|]. cbn [flat_map].
  apply Forall_app. split; [|exact IH].
  destruct (N.eqb_spec c x) as [E|E].
  - apply Forall_forall. intros y Hy. split.
    + rewrite Forall_forall in Hn. now apply Hn.
    + intros ->. now apply Hc.
  - constructor; [|constructor]. split; [assumption|congruence].
Qed.

(** No ['&'], no ['@'] and no ['#'] is left in what the simple
    replacements return. *)
Lemma simple_symbols_gone (text out : str) :
  simple_symbols text = Ok out ->
  Forall (fun c => c <> 38 /\ c <> 64 /\ c <> 35) out.
Proof.
  unfold simple_symbols. intros E.
  set (t1 := str_replace (lit " & ") (lit " and ") text) in E.
  assert (H2 : Forall (fun x => True /\ x <> 38)
                      (str_replace (lit "&") (lit " and ") t1)).
  { apply str_replace_gone.
    - repeat constructor.
    - cbn. intros H. repeat destruct H as [H|H]; try discriminate H; exact H.
    - apply Forall_forall. auto. }
  destruct (scan_by plus_match (fun _ => Ok (lit " plus ")) 0 None
              (str_replace (lit "&") (lit " and ") t1)) as [t3| |] eqn:E3;
    try discriminate E.
  cbn [bind] in E. injection E as <-.
  assert (H3 : Forall (fun x => True /\ x <> 38) t3).
  { apply (scan_by_Forall plus_match (fun _ => Ok (lit " plus ")) _)
      with (t := str_replace (lit "&") (lit " and ") t1) (k := 0%nat)
           (prev := None); [|exact H2|exact E3].
    intros caps out E. injection E as <-. repeat constructor; discriminate. }
  assert (H4 : Forall (fun x => True /\ x <> 38)
                      (re_sub spaced_plus (fun _ => lit " plus ") t3)).
  { unfold re_sub. apply sub_scan_Forall; [|exact H3].
    intros. repeat constructor; discriminate. }
  apply (str_replace_Forall _ (lit " = ") (lit " equals ")) in H4;
    [|repeat constructor; discriminate].
  apply (str_replace_gone _ 64 (lit " at ")) in H4;
    [|repeat constructor; discriminate
     |cbn; intros H; repeat destruct H as [H|H]; try discriminate H; exact H].
  apply (str_replace_gone _ 35 (lit " number ")) in H4;
    [|repeat constructor; discriminate
     |cbn; intros H; repeat destruct H as [H|H]; try discriminate H; exact H].
  apply (str_replace_Forall _ (lit " / ") (lit " slash ")) in H4;
    [|repeat constructor; discriminate].
  revert H4. apply Forall_impl. intros c H. tauto.
Qed.

Lemma normalize_symbols_chars (text out : str) :
  normalize_symbols text = Ok out ->
  Forall (fun c => c <> 38 /\ c <> 64 /\ c <> 35) out.
Proof.
  unfold normalize_symbols. intros E.
  destruct (scan_by currency_match replace_currency 0 None text)
    as [t1| |]; try discriminate E. cbn [bind] in E.
  destruct (scan_by percent_match replace_percent 0 None t1)
    as [t2| |]; try discriminate E. cbn [bind] in E.
  destruct (scan_by time_match replace_time 0 None t2)
    as [t3| |]; try discriminate E. cbn [bind] in E.
  now apply simple_symbols_gone in E.
Qed.

(** X15.  Whatever the text holds, [normalize_symbols] returns none of the
    characters ['&'], ['@'] and ['#']. *)
Theorem normalize_symbols_leaves_no_symbol (text out : str) :
  normalize_symbols text = Ok out ->
  ~ In 38 out /\ ~ In 64 out /\ ~ In 35 out.
Proof.
  intros E. apply normalize_symbols_chars in E. rewrite Forall_forall in E.
  repeat split; intros H; destruct (E _ H) as (H1 & H2 & H3); congruence.
Qed.

(** A match of a pattern holds every literal character of the
    pattern. *)
Lemma run_lit_in (pat : list item) :
  forall prev s caps n c,
    run pat prev s = Some (caps, n) -> In (Lit c) pat -> In c s.
Proof.
  induction pat as [|it pat IH]; intros prev s caps n c E Hin;
    [destruct Hin|].
  destruct Hin as [-> | Hin].
  - apply run_lit_inv in E as (t' & n' & -> & _). now left.
  - destruct it as [c0|c0|p lo hi capture| |p].
    + apply run_lit_inv in E as (t' & n' & -> & E & _). right.
      exact (IH _ _ _ _ _ E Hin).
    + cbn [run] in E. destruct s as [|x s]; [discriminate E|].
      destruct (ci_eq c0 x); [|discriminate E].
      destruct (run pat (Some x) s) as [[caps' n']|] eqn:E'; [|discriminate E].
      right. exact (IH _ _ _ _ _ E' Hin).
    + apply run_rep_inv in E as (j & caps' & n' & _ & _ & E & _).
      apply (IH _ _ _ _ _ E) in Hin.
      rewrite <- (firstn_skipn j s). apply in_or_app. now right.
    + apply run_bnd_inv in E as [_ E]. exact (IH _ _ _ _ _ E Hin).
    + cbn [run] in E. destruct prev as [x|]; [|discriminate E].
      destruct (p x); [|discriminate E]. exact (IH _ _ _ _ _ E Hin).
Qed.

Lemma lit_no_match (pat : list item) (c : char) (t : str) :
  In (Lit c) pat -> ~ In c t -> forall prev, no_match pat prev t.
Proof.
  intros Hin. induction t as [|x t IH]; intros Hn prev; [exact I|]. split.
  - destruct (run pat prev (x :: t)) as [[caps n]|] eqn:E; [|reflexivity].
    destruct (Hn (run_lit_in pat prev _ caps n c E Hin)).
  - apply IH. intros H. apply Hn. now right.
Qed.

(** [text.replace(old, new)] leaves a text alone that lacks a character
    of [old]. *)
Lemma str_replace_lacking (c : char) (old new t : str) :
  In c old -> ~ In c t -> str_replace old new t = t.
Proof.
  intros Hc Ht. unfold str_replace, re_sub. apply sub_scan_no_match.
  apply (lit_no_match _ c); [|assumption]. now apply in_map.
Qed.

(** A pattern that starts with a repetition, once at least, of a class
    the character is not of does not match at it. *)
Lemma rep_head_none (p : char -> bool) (lo : nat) (hi : option nat)
      (capture : bool) (tail : list item) (prev : option char) (c : char)
      (t : str) :
  (1 <= lo)%nat -> p c = false ->
  run (Rep p lo hi capture :: tail) prev (c :: t) = None.
Proof.
  intros Hlo Hc.
  destruct (run (Rep p lo hi capture :: tail) prev (c :: t))
    as [[caps n]|] eqn:E; [|reflexivity].
  apply run_rep_inv in E as (j & caps' & n' & Hj & _).
  cbn [span_len] in Hj. rewrite Hc in Hj. lia.
Qed.

Lemma currency_match_none (prev : option char) (c : char) (t : str) :
  is_currency c = false -> currency_match prev (c :: t) = None.
Proof.
  intros Hc. unfold currency_match, currency_head.
  now rewrite rep_head_none by (lia || assumption).
Qed.

Lemma percent_match_none (prev : option char) (c : char) (t : str) :
  is_digit c = false -> percent_match prev (c :: t) = None.
Proof.
  intros Hc. unfold percent_match. cbn [span_len]. rewrite Hc.
  apply try_lengths_short. lia.
Qed.

Lemma time_match_none (prev : option char) (c : char) (t : str) :
  is_digit c = false -> time_match prev (c :: t) = None.
Proof.
  intros Hc. unfold time_match, time_head.
  now rewrite rep_head_none by (lia || assumption).
Qed.

Lemma plus_match_none (prev : option char) (c : char) (t : str) :
  c <> 43 -> plus_match prev (c :: t) = None.
Proof.
  intros Hc. unfold plus_match. destruct prev as [a|]; [|reflexivity].
  destruct t as [|b t]; [reflexivity|].
  apply N.eqb_neq in Hc. now rewrite Hc.
Qed.

(** The simple replacements leave alone a text without the characters
    they look for. *)
Lemma simple_symbols_plain (t : str) :
  Forall (fun c => ~ In c symbol_chars) t -> simple_symbols t = Ok t.
Proof.
  intros H. unfold simple_symbols.
  assert (Hn : forall c, In c symbol_chars -> ~ In c t).
  { intros c Hc Hin. rewrite Forall_forall in H. exact (H c Hin Hc). }
  assert (H38 : In 38 symbol_chars) by (unfold symbol_chars; cbn; tauto).
  assert (H43 : In 43 symbol_chars) by (unfold symbol_chars; cbn; tauto).
  assert (H61 : In 61 symbol_chars) by (unfold symbol_chars; cbn; tauto).
  assert (H64 : In 64 symbol_chars) by (unfold symbol_chars; cbn; tauto).
  assert (H35 : In 35 symbol_chars) by (unfold symbol_chars; cbn; tauto).
  assert (H47 : In 47 symbol_chars) by (unfold symbol_chars; cbn; tauto).
  rewrite (str_replace_lacking 38 (lit " & ") _ t)
    by (cbn; tauto || auto).
  rewrite (str_replace_lacking 38 (lit "&") _ t) by (cbn; tauto || auto).
  rewrite scan_by_none.
  - cbn [bind].
    assert (E : re_sub spaced_plus (fun _ => lit " plus ") t = t).
    { apply sub_scan_no_match. apply (lit_no_match _ 43); [|auto].
      unfold spaced_plus. cbn. tauto. }
    rewrite E.
    rewrite (str_replace_lacking 61 (lit " = ") _ t) by (cbn; tauto || auto).
    rewrite (str_replace_lacking 64 (lit "@") _ t) by (cbn; tauto || auto).
    rewrite (str_replace_lacking 35 (lit "#") _ t) by (cbn; tauto || auto).
    rewrite (str_replace_lacking 47 (lit " / ") _ t) by (cbn; tauto || auto).
    reflexivity.
  - apply Forall_forall. intros c Hc prev t'. apply plus_match_none.
    intros ->. exact (Hn 43 H43 Hc).
Qed.

Lemma not_symbol_not_currency (c : char) :
  ~ In c symbol_chars -> is_currency c = false.
Proof.
  intros H. unfold is_currency.
  destruct (N.eqb_spec c 36) as [->|_];
    [exfalso; apply H; unfold symbol_chars; cbn; tauto|].
  destruct (N.eqb_spec c 8364) as [->|_];
    [exfalso; apply H; unfold symbol_chars; cbn; tauto|].
  destruct (N.eqb_spec c 163) as [->|_];
    [exfalso; apply H; unfold symbol_chars; cbn; tauto|].
  destruct (N.eqb_spec c 165) as [->|_];
    [exfalso; apply H; unfold symbol_chars; cbn; tauto|].
  reflexivity.
Qed.

(** X16.  A text without digits and without the characters the stage looks for
    passes through [normalize_symbols] unchanged. *)
Theorem symbol_free_text_unchanged (text : str) :
  Forall (fun c => is_digit c = false /\ ~ In c symbol_chars) text ->
  normalize_symbols text = Ok text.
Proof.
  intros H. unfold normalize_symbols.
  rewrite scan_by_none.
  2:{ revert H. apply Forall_impl. intros c [_ Hc] prev t'.
      apply currency_match_none. now apply not_symbol_not_currency. }
  cbn [bind]. rewrite scan_by_none.
  2:{ revert H. apply Forall_impl. intros c [Hc _] prev t'.
      now apply percent_match_none. }
  cbn [bind]. rewrite scan_by_none.
  2:{ revert H. apply Forall_impl. intros c [Hc _] prev t'.
      now apply time_match_none. }
  cbn [bind]. apply simple_symbols_plain.
  revert H. apply Forall_impl. now intros c [_ Hc].
Qed.

End SymbolProofs.

Lemma normalize_symbols_leaves_no_symbol_witness :
  @normalize_symbols basic_db (lit "R&D @ 9:30 #1")
  = Ok (lit "R and D  at  nine thirty number 1")
  /\ ~ In 38 (lit "R and D  at  nine thirty number 1")
  /\ ~ In 64 (lit "R and D  at  nine thirty number 1")
  /\ ~ In 35 (lit "R and D  at  nine thirty number 1").
Proof.
  assert (E : @normalize_symbols basic_db (lit "R&D @ 9:30 #1")
              = Ok (lit "R and D  at  nine thirty number 1"))
    by (vm_compute; reflexivity).
  split; [exact E|].
  exact (@normalize_symbols_leaves_no_symbol basic_db _ _ E).
Defined.

Lemma symbol_free_text_unchanged_witness :
  Forall (fun c => @is_digit basic_db c = false /\ ~ In c symbol_chars)
         (lit "Tea: hot.")
  /\ @normalize_symbols basic_db (lit "Tea: hot.") = Ok (lit "Tea: hot.").
Proof.
  assert (H : Forall (fun c => @is_digit basic_db c = false
                               /\ ~ In c symbol_chars) (lit "Tea: hot.")).
  { repeat constructor;
      (cbn; intros H; repeat destruct H as [H|H]; try discriminate H;
       exact H). }
  split; [exact H|].
  exact (@symbol_free_text_unchanged basic_db (lit "Tea: hot.") H).
Defined.

(** ** The characters the stages bring in *)

Section StageAlphabet.
Context {U : UnicodeDB}.

Lemma py_index_In {A} (l : list A) (i : Z) (a : A) :
  py_index l i = Ok a -> In a l.
Proof.
  unfold py_index.
  destruct ((_ <? 0)%Z || (_ <=? _)%Z); [discriminate|].
  destruct (nth_error l _) as [x|] eqn:E; [|discriminate].
  intros H. injection H as <-. exact (nth_error_In _ _ E).
Qed.

Lemma ones_chars : Forall (Forall (fun c => word_char c = true)) ONES.
Proof. repeat constructor. Qed.

Lemma tens_chars : Forall (Forall (fun c => word_char c = true)) TENS.
Proof. repeat constructor. Qed.

Lemma scales_chars : Forall (Forall (fun c => word_char c = true)) SCALES.
Proof. repeat constructor. Qed.

Lemma table_word (table : list str) (i : Z) (w : str) :
  Forall (Forall (fun c => word_char c = true)) table ->
  py_index table i = Ok w -> Forall (fun c => word_char c = true) w.
Proof.
  intros Ht E. apply py_index_In in E. rewrite Forall_forall in Ht.
  now apply Ht.
Qed.

Ltac chars :=
  repeat first
    [ assumption
    | apply Forall_nil
    | apply Forall_app; split
    | apply Forall_cons; [reflexivity|] ].

Lemma scale_loop_chars (rec : Z -> result str) :
  (forall g w, rec g = Ok w -> Forall (fun c => word_char c = true) w) ->
  forall loops n parts i out,
    Forall (Forall (fun c => word_char c = true)) parts ->
    scale_loop loops rec n parts i = Ok out ->
    Forall (Forall (fun c => word_char c = true)) out.
Proof.
  intros Hrec. induction loops as [|loops IH]; intros n parts i out Hp E.
  - cbn [scale_loop] in E. destruct (n >? 0)%Z; [discriminate E|].
    now injection E as <-.
  - cbn [scale_loop] in E. destruct (n >? 0)%Z; [|now injection E as <-].
    destruct (negb (n mod 1000 =? 0)%Z).
    + destruct (rec (n mod 1000)%Z) as [w| |] eqn:Ew; try discriminate E.
      cbn [bind] in E. apply Hrec in Ew.
      destruct (i >? 0)%Z.
      * destruct (py_index SCALES i) as [sc| |] eqn:Es; try discriminate E.
        cbn [bind] in E. apply (table_word _ _ _ scales_chars) in Es.
        apply IH in E; [assumption|].
        apply Forall_app. split; [assumption|]. constructor; [|constructor].
        chars.
      * apply IH in E; [assumption|].
        apply Forall_app. split; [assumption|]. now constructor.
    + now apply IH in E.
Qed.

(** The words of a number are made of lower-case letters, spaces and
    hyphens. *)
Lemma number_words_chars (d : nat) :
  forall n w,
    number_to_words_rec d n = Ok w ->
    Forall (fun c => word_char c = true) w.
Proof.
  induction d as [|d IH]; intros n w E; [discriminate E|].
  rewrite number_to_words_rec_eq in E.
  destruct (n =? 0)%Z; [injection E as <-; chars|].
  destruct (n <? 0)%Z.
  { destruct (number_to_words_rec d (- n)) as [w'| |] eqn:E'; try discriminate E.
    apply IH in E'. injection E as <-. chars. }
  destruct (n <? 20)%Z; [exact (table_word _ _ _ ones_chars E)|].
  destruct (n <? 100)%Z.
  { destruct (negb (n mod 10 =? 0)%Z);
      [|exact (table_word _ _ _ tens_chars E)].
    destruct (py_index TENS (n / 10)) as [t| |] eqn:Et; try discriminate E.
    cbn [bind] in E.
    destruct (py_index ONES (n mod 10)) as [o| |] eqn:Eo; try discriminate E.
    apply (table_word _ _ _ tens_chars) in Et.
    apply (table_word _ _ _ ones_chars) in Eo.
    injection E as <-. chars. }
  destruct (n <? 1000)%Z.
  { destruct (negb (n mod 100 =? 0)%Z).
    - destruct (py_index ONES (n / 100)) as [h| |] eqn:Eh; try discriminate E.
      cbn [bind] in E.
      destruct (number_to_words_rec d (n mod 100)) as [r| |] eqn:Er;
        try discriminate E.
      apply (table_word _ _ _ ones_chars) in Eh. apply IH in Er.
      injection E as <-. chars.
    - destruct (py_index ONES (n / 100)) as [h| |] eqn:Eh; try discriminate E.
      apply (table_word _ _ _ ones_chars) in Eh.
      injection E as <-. chars. }
  destruct (scale_loop (S (Z.to_nat (Z.log2 n))) (number_to_words_rec d) n
                       [] 0) as [parts| |] eqn:Ep; try discriminate E.
  injection E as <-.
  apply Forall_join; [chars|].
  apply Forall_rev.
  exact (scale_loop_chars _ IH _ _ _ _ _ (Forall_nil _) Ep).
Qed.

Lemma year_pairs_chars (num : Z) (w : str) :
  year_pairs num = Ok w -> Forall (fun c => word_char c = true) w.
Proof.
  unfold year_pairs, _number_to_words. intros E.
  destruct (num mod 100 =? 0)%Z.
  { destruct (number_to_words_rec 4 (num / 100)) as [a| |] eqn:Ea;
      try discriminate E.
    apply number_words_chars in Ea. injection E as <-. chars. }
  destruct (num mod 100 <? 10)%Z.
  - destruct (number_to_words_rec 4 (num / 100)) as [a| |] eqn:Ea;
      try discriminate E. cbn [bind] in E.
    destruct (number_to_words_rec 4 (num mod 100)) as [b| |] eqn:Eb;
      try discriminate E.
    apply number_words_chars in Ea, Eb. injection E as <-. chars.
  - destruct (number_to_words_rec 4 (num / 100)) as [a| |] eqn:Ea;
      try discriminate E. cbn [bind] in E.
    destruct (number_to_words_rec 4 (num mod 100)) as [b| |] eqn:Eb;
      try discriminate E.
    apply number_words_chars in Ea, Eb. injection E as <-. chars.
Qed.

(** What [replace_number] returns is made of the characters of the words
    of a number, or is the token. *)
Lemma replace_number_chars (Q : char -> Prop) (tok out : str) :
  (forall c, word_char c = true -> Q c) ->
  Forall Q tok -> replace_number [tok] = Ok out -> Forall Q out.
Proof.
  intros HQ Ht. unfold replace_number. cbn [nth]. intros E.
  assert (Hw : forall w, Forall (fun c => word_char c = true) w ->
                         Forall Q w)
    by (intros w; apply Forall_impl; exact HQ).
  destruct (py_int tok) as [num| e |] eqn:Ei; cbn [bind try_except] in E.
  - destruct ((1900 <=? num)%Z && (num <=? 2099)%Z && (len tok =? 4)%Z).
    + destruct (year_pairs num) as [w| e |] eqn:Ey; cbn [try_except] in E.
      * injection E as <-. exact (Hw _ (year_pairs_chars _ _ Ey)).
      * destruct (exn_eqb ValueError e); [now injection E as <-|discriminate E].
      * discriminate E.
    + destruct (_number_to_words num) as [w| e |] eqn:Ey;
        cbn [try_except] in E.
      * injection E as <-. exact (Hw _ (number_words_chars _ _ _ Ey)).
      * destruct (exn_eqb ValueError e); [now injection E as <-|discriminate E].
      * discriminate E.
  - destruct (exn_eqb ValueError e); [now injection E as <-|discriminate E].
  - discriminate E.
Qed.

Lemma number_token_group (prev : option char) (t : str) (caps : list str)
      (n : nat) :
  run number_token prev t = Some (caps, n) ->
  exists j, caps = [firstn j t].
Proof.
  unfold number_token. intros E.
  apply run_bnd_inv in E as [_ E].
  apply run_rep_inv in E as (j & caps' & n' & _ & _ & E & -> & _).
  apply run_bnd_inv in E as [_ E]. cbn [run] in E. injection E as <- _.
  now exists j.
Qed.

Lemma Forall_firstn_str (Q : char -> Prop) (j : nat) (t : str) :
  Forall Q t -> Forall Q (firstn j t).
Proof.
  intros H. rewrite <- (firstn_skipn j t) in H. now apply Forall_app in H.
Qed.

Lemma table_pass_chars (Q : char -> Prop) (table : list (str * str)) :
  Forall (fun ow => Forall Q (snd ow)) table ->
  forall t, Forall Q t ->
            Forall Q (fold_left
                        (fun t ow => re_sub (whole_word_i (fst ow))
                                            (fun _ => snd ow) t) table t).
Proof.
  induction table as [|ow table IH]; intros H t Ht; [exact Ht|].
  inversion H as [|? ? H1 H2]; subst. cbn [fold_left]. apply IH; [exact H2|].
  unfold re_sub. apply sub_scan_Forall; [intros; exact H1|exact Ht].
Qed.

Lemma ordinals_chars :
  Forall (fun ow : str * str => Forall (fun c => word_char c = true) (snd ow))
         ORDINALS.
Proof. repeat constructor. Qed.

(** [normalize_numbers] brings in lower-case letters, spaces and hyphens
    only. *)
Lemma normalize_numbers_chars (Q : char -> Prop) (text out : str) :
  (forall c, word_char c = true -> Q c) ->
  Forall Q text -> normalize_numbers text = Ok out -> Forall Q out.
Proof.
  intros HQ Ht. unfold normalize_numbers, replace_ordinals, re_sub_m.
  apply sub_scan_m_Forall.
  - intros prev t caps n o Hft Er Eo.
    destruct (number_token_group prev t caps n Er) as (j & ->).
    apply (replace_number_chars Q (firstn j t)); try assumption.
    now apply Forall_firstn_str.
  - apply table_pass_chars; [|exact Ht].
    pose proof ordinals_chars as H. revert H. apply Forall_impl.
    intros ow. apply Forall_impl. exact HQ.
Qed.

Lemma expansions_chars :
  Forall (fun ae : str * str => Forall (fun c => word_char c = true) (snd ae))
         EXPANDED_ACRONYMS.
Proof. repeat constructor. Qed.

Lemma expand_acronyms_chars (Q : char -> Prop) (text : str) :
  (forall c, word_char c = true -> Q c) ->
  Forall Q text -> Forall Q (expand_acronyms text).
Proof.
  intros HQ. unfold expand_acronyms.
  pose proof expansions_chars as H. revert text.
  induction H as [|ae table Hae _ IH]; intros text Ht; [exact Ht|].
  cbn [fold_left]. apply IH.
  assert (Hs : Forall Q (snd ae))
    by (revert Hae; apply Forall_impl; exact HQ).
  unfold re_sub. apply sub_scan_Forall; [intros; exact Hs|].
  apply sub_scan_Forall; [intros; exact Hs|exact Ht].
Qed.

Lemma ci_starts_in (w : str) :
  forall s p, ci_starts w s = true -> In p w ->
              exists c, In c s /\ ci_eq p c = true.
Proof.
  induction w as [|q w IH]; intros s p E Hp; [destruct Hp|].
  destruct s as [|x s]; [discriminate E|]. cbn [ci_starts] in E.
  apply andb_prop in E as [E1 E2]. destruct Hp as [->|Hp].
  - exists x. split; [now left|assumption].
  - destruct (IH s p E2 Hp) as (c & Hc & Ec). exists c.
    split; [now right|assumption].
Qed.

(** The pass of an acronym with an ['&'] leaves alone a text without
    one. *)
Lemma amp_pass_absent (a : str) (f : list str -> str) (t : str) :
  In 38 a -> ~ In 38 t -> re_sub (whole_word_i a) f t = t.
Proof.
  intros Ha Ht. apply sub_scan_no_match. revert Ht. generalize (@None char).
  induction t as [|x t IH]; intros prev Ht; [exact I|]. split.
  - rewrite run_whole_word_i.
    destruct (ci_starts a (x :: t)) eqn:E; [|now rewrite andb_false_r].
    destruct (ci_starts_in a _ 38 E Ha) as (c & Hc & Ec).
    apply ci_eq_amp in Ec. subst c. now destruct Ht.
  - apply IH. intros H. apply Ht. now right.
Qed.

Lemma ascii_upper_amp (c : char) : ascii_upper c = 38 -> c = 38.
Proof.
  unfold ascii_upper.
  destruct ((97 <=? c) && (c <=? 122)) eqn:E; [|auto].
  apply andb_prop in E as [E1 E2]. apply N.leb_le in E1, E2. lia.
Qed.

Lemma spaced_no_amp (a : str) : ~ In 38 a -> ~ In 38 (spaced a).
Proof.
  intros Ha Hin. unfold spaced in Hin.
  assert (H : Forall (fun c => c <> 38)
                     (join (lit " ") (map (fun c => [ascii_upper c]) a))).
  { apply Forall_join; [repeat constructor; discriminate|].
    apply Forall_forall. intros w Hw. apply in_map_iff in Hw as (c & <- & Hc).
    constructor; [|constructor]. intros E. apply ascii_upper_amp in E.
    subst c. now apply Ha. }
  rewrite Forall_forall in H. exact (H 38 Hin eq_refl).
Qed.

(** On a text without ['&'], the acronyms with an ['&'] do not count in
    the loop. *)
Lemma spell_acronyms_no_amp (order : list str) :
  forall t,
    ~ In 38 t ->
    spell_acronyms order t
    = spell_acronyms (filter (fun a => negb (existsb (N.eqb 38) a)) order) t.
Proof.
  unfold spell_acronyms.
  induction order as [|a order IH]; intros t Ht; [reflexivity|].
  cbn [fold_left filter].
  destruct (existsb (N.eqb 38) a) eqn:Ea; cbn [negb].
  - apply existsb_exists in Ea as (c & Hc & Ec). apply N.eqb_eq in Ec.
    subst c. rewrite (amp_pass_absent a _ t Hc Ht). now apply IH.
  - cbn [fold_left]. apply IH.
    assert (Ha : ~ In 38 a).
    { intros Hin. assert (E : existsb (N.eqb 38) a = true)
        by (apply existsb_exists; exists 38; split;
            [assumption|apply N.eqb_refl]).
      rewrite E in Ea. discriminate Ea. }
    assert (H : Forall (fun c => c <> 38)
                       (re_sub (whole_word_i a) (fun _ => spaced a) t)).
    { unfold re_sub. apply sub_scan_Forall.
      - intros. apply Forall_forall. intros c Hc ->.
        now apply (spaced_no_amp a Ha).
      - apply Forall_forall. intros c Hc ->. now apply Ht. }
    rewrite Forall_forall in H. intros Hin. exact (H 38 Hin eq_refl).
Qed.

End StageAlphabet.

(** X17.  In [convert], [normalize_symbols] has turned every ['&'] into the
    word "and" before [normalize_acronyms] runs, and [normalize_numbers]
    brings none back: the acronym "R&D", the one of [LETTER_ACRONYMS] with
    an ['&'], is never spelled out, whatever the stages before do. *)
Theorem convert_never_spells_r_and_d {U : UnicodeDB}
        (strip_markdown strip_control_characters remove_emojis
           replace_special_unicode flatten_lists : str -> str)
        (order : list str) (text : str) :
  convert strip_markdown strip_control_characters remove_emojis
    replace_special_unicode flatten_lists normalize_symbols order text
  = convert strip_markdown strip_control_characters remove_emojis
      replace_special_unicode flatten_lists normalize_symbols
      (filter (fun a => negb (existsb (N.eqb 38) a)) order) text
  /\ filter (fun a => existsb (N.eqb 38) a) LETTER_ACRONYMS = [R_AND_D].
Proof.
  split; [|reflexivity]. unfold convert.
  destruct (strip_html text) as [t0| |]; try reflexivity. cbn [bind].
  destruct (normalize_dates _) as [t1| |]; try reflexivity. cbn [bind].
  destruct (normalize_symbols t1) as [t2| |] eqn:Es; try reflexivity.
  cbn [bind].
  destruct (normalize_numbers t2) as [t3| |] eqn:En; try reflexivity.
  cbn [bind]. unfold normalize_acronyms.
  apply normalize_symbols_chars in Es.
  assert (H2 : Forall (fun c => c <> 38) t2)
    by (revert Es; apply Forall_impl; intros c Hc; apply Hc).
  assert (Hw : forall c, word_char c = true -> c <> 38).
  { intros c Hc ->. discriminate Hc. }
  pose proof (normalize_numbers_chars _ t2 t3 Hw H2 En) as H3.
  pose proof (expand_acronyms_chars _ t3 Hw H3) as H4.
  rewrite (spell_acronyms_no_amp order (expand_acronyms t3)); [reflexivity|].
  rewrite Forall_forall in H4. intros Hin. exact (H4 38 Hin eq_refl).
Qed.

(** ** The time pattern *)

Section TimeProofs.
Context {U : UnicodeDB}.

Lemma scan_by_skip (m : option char -> str -> option (list str * nat))
      (repl : list str -> result str) (t : str) :
  forall k prev,
    scan_by m repl k prev t
    = scan_by m repl 0 (prev_at prev t k) (skipn k t).
Proof.
  induction t as [|c t IH]; intros k prev.
  - destruct k; reflexivity.
  - destruct k as [|k]; [reflexivity|]. cbn [scan_by skipn].
    rewrite IH. now rewrite (prev_at_cons prev).
Qed.

(** A matcher that needs a character the text does not have leaves the
    text as it is. *)
Lemma scan_by_absent (m : option char -> str -> option (list str * nat))
      (repl : list str -> result str) (x : char) :
  (forall prev s r, m prev s = Some r -> In x s) ->
  forall t prev, ~ In x t -> scan_by m repl 0 prev t = Ok t.
Proof.
  intros Hm. induction t as [|c t IH]; intros prev Ht; [reflexivity|].
  rewrite scan_by_cons.
  destruct (m prev (c :: t)) as [r|] eqn:E;
    [destruct (Ht (Hm _ _ _ E))|].
  rewrite IH; [reflexivity|]. intros H. apply Ht. now right.
Qed.

Lemma percent_needs_sign (prev : option char) (s : str)
      (r : list str * nat) :
  percent_match prev s = Some r -> In 37 s.
Proof.
  unfold percent_match. intros E.
  apply try_lengths_some in E as (i & _ & E & _).
  assert (Hin : In 37 (skipn i s)).
  { destruct (run percent_decimal (prev_at prev s i) (skipn i s))
      as [[caps n]|] eqn:E1.
    - apply (run_lit_in _ _ _ _ _ 37 E1). unfold percent_decimal. cbn. tauto.
    - destruct (run percent_plain (prev_at prev s i) (skipn i s))
        as [[caps n]|] eqn:E2; [|discriminate E].
      apply (run_lit_in _ _ _ _ _ 37 E2). unfold percent_plain. cbn. tauto. }
  rewrite <- (firstn_skipn i s). apply in_or_app. now right.
Qed.

(** A matcher that matches at no character of [pre] scans what follows
    as if [pre] were not there, when it does not look behind. *)
Lemma scan_by_app_none (m : option char -> str -> option (list str * nat))
      (repl : list str -> result str) (pre s : str) :
  (forall p p' t, m p t = m p' t) ->
  Forall (fun c => forall prev t', m prev (c :: t') = None) pre ->
  forall prev,
    scan_by m repl 0 prev (pre ++ s)
    = (r <- scan_by m repl 0 None s ;; Ok (pre ++ r)).
Proof.
  intros Hblind H. induction H as [|c pre Hc _ IH]; intros prev.
  - cbn [app]. destruct s as [|x s]; [reflexivity|].
    rewrite !scan_by_cons, (Hblind prev None).
    destruct (m None (x :: s)) as [[caps [|n]]|].
    + now destruct (scan_by m repl 0 (Some x) s).
    + destruct (repl caps); try reflexivity. cbn [bind].
      now destruct (scan_by m repl n (Some x) s).
    + now destruct (scan_by m repl 0 (Some x) s).
  - change ((c :: pre) ++ s) with (c :: (pre ++ s)).
    rewrite scan_by_cons, Hc, IH.
    now destruct (scan_by m repl 0 None s).
Qed.

(** The pattern before the third group looks at nothing behind it. *)
Lemma run_blind (pat : list item) :
  Forall (fun it => match it with Bnd | Behind _ => False | _ => True end)
         pat ->
  forall prev prev' s, run pat prev s = run pat prev' s.
Proof.
  induction 1 as [|it pat Hit _ IH]; intros prev prev' s; [reflexivity|].
  destruct it as [c|c|p lo hi capture| |p]; try destruct Hit.
  - reflexivity.
  - reflexivity.
  - cbn [run]. apply try_lengths_ext. intros i _.
    now rewrite (IH (prev_at prev s i) (prev_at prev' s i)).
Qed.

Lemma time_match_blind (p p' : option char) (t : str) :
  time_match p t = time_match p' t.
Proof.
  unfold time_match. rewrite (run_blind time_head) with (prev' := p');
    [reflexivity|].
  unfold time_head. repeat constructor.
Qed.

(** A greedy repetition takes all it can when what follows matches
    then. *)
Lemma run_rep_take (p : char -> bool) (lo : nat) (hi : option nat)
      (capture : bool) (tail : list item) (prev : option char) (s : str)
      (j : nat) (caps : list str) (n : nat) :
  j = match hi with
      | Some h => Nat.min h (span_len p s)
      | None => span_len p s
      end ->
  (lo <= j)%nat ->
  run tail (prev_at prev s j) (skipn j s) = Some (caps, n) ->
  run (Rep p lo hi capture :: tail) prev s
  = Some (if capture then firstn j s :: caps else caps, (j + n)%nat).
Proof.
  intros Ej Hlo E. cbn [run]. rewrite <- Ej.
  apply try_lengths_first; [assumption|]. now rewrite E.
Qed.

Lemma run_lit_step (c : char) (tail : list item) (prev : option char)
      (t : str) :
  run (Lit c :: tail) prev (c :: t)
  = match run tail (Some c) t with
    | Some (caps, n) => Some (caps, S n)
    | None => None
    end.
Proof. cbn [run]. now rewrite N.eqb_refl. Qed.

Lemma span_len_prefix (p : char -> bool) (b r : str) :
  Forall (fun c => p c = true) b ->
  (forall c, hd_error r = Some c -> p c = false) ->
  span_len p (b ++ r) = length b.
Proof.
  intros Hb Hr. induction Hb as [|c b Hc _ IH].
  - destruct r as [|x r]; [reflexivity|]. cbn [app span_len].
    now rewrite (Hr x eq_refl).
  - cbn [app span_len length]. now rewrite Hc, IH.
Qed.

Lemma ascii_space_not_digit (c : char) :
  isspace c = true -> c < 128 -> is_digit c = false.
Proof.
  intros Hs Hc. unfold is_digit. rewrite (decimal_ascii c Hc).
  unfold ascii_decimal.
  destruct ((48 <=? c) && (c <=? 57)) eqn:E; [|reflexivity].
  apply andb_prop in E as [E1 E2]. apply N.leb_le in E1, E2.
  unfold isspace in Hs.
  repeat (apply orb_prop in Hs as [Hs|Hs]);
    repeat match goal with
      | H : _ && _ = true |- _ => apply andb_prop in H as [? ?]
      | H : (_ <=? _) = true |- _ => apply N.leb_le in H
      | H : (_ =? _) = true |- _ => apply N.eqb_eq in H
      end; lia.
Qed.

Lemma skipn_length_app {A} (a b : list A) : skipn (length a) (a ++ b) = b.
Proof. induction a as [|x a IH]; [reflexivity|exact IH]. Qed.

Lemma firstn_length_app {A} (a b : list A) : firstn (length a) (a ++ b) = a.
Proof.
  induction a as [|x a IH]; [reflexivity|]. cbn [length app firstn].
  now rewrite IH.
Qed.

(** The match of the time pattern at a time without a period: it takes
    the whitespace behind the minutes along. *)
Lemma time_match_gap (prev : option char) (hour minute gap after : str) :
  Forall (fun c => is_digit c = true) hour ->
  (1 <= length hour <= 2)%nat ->
  Forall (fun c => is_digit c = true) minute -> length minute = 2%nat ->
  Forall (fun c => isspace c = true) gap ->
  (forall c, hd_error (gap ++ after) = Some c -> is_digit c = false) ->
  (forall c, hd_error after = Some c -> isspace c = false) ->
  find (fun w => starts_with w after) periods = None ->
  time_match prev (hour ++ 58 :: minute ++ gap ++ after)
  = Some ([hour; minute; []],
          length (hour ++ 58 :: minute ++ gap)).
Proof.
  intros Hh Lh Hm Lm Hg Hstop Ha Hf. unfold time_match.
  assert (D58 : is_digit 58 = false).
  { unfold is_digit. now rewrite decimal_ascii by lia. }
  assert (E4 : forall p, run [Rep isspace 0 None false] p (gap ++ after)
                         = Some ([], (length gap + 0)%nat)).
  { intros p.
    rewrite (run_rep_take isspace 0 None false [] p (gap ++ after)
               (length gap) [] 0); [reflexivity| |lia|reflexivity].
    symmetry. now apply span_len_prefix. }
  assert (E3 : forall p,
             run [Rep is_digit 2 (Some 2%nat) true;
                  Rep isspace 0 None false] p (minute ++ gap ++ after)
             = Some ([minute], (2 + (length gap + 0))%nat)).
  { intros p.
    rewrite (run_rep_take is_digit 2 (Some 2%nat) true _ p
               (minute ++ gap ++ after) 2 [] (length gap + 0)).
    - rewrite <- Lm at 1. now rewrite firstn_length_app.
    - rewrite span_len_prefix by assumption. rewrite Lm. reflexivity.
    - lia.
    - rewrite <- Lm at 2. rewrite skipn_length_app. apply E4. }
  assert (E1 : run time_head prev (hour ++ 58 :: minute ++ gap ++ after)
               = Some ([hour; minute],
                       (length hour + S (2 + (length gap + 0)))%nat)).
  { unfold time_head.
    rewrite (run_rep_take is_digit 1 (Some 2%nat) true _ prev
               (hour ++ 58 :: minute ++ gap ++ after) (length hour)
               [minute] (S (2 + (length gap + 0)))).
    - now rewrite firstn_length_app.
    - rewrite span_len_app_stop by assumption.
      rewrite span_len_full by assumption. lia.
    - lia.
    - rewrite skipn_length_app, run_lit_step. now rewrite E3. }
  rewrite E1.
  assert (En : (length hour + S (2 + (length gap + 0)))%nat
               = length (hour ++ 58 :: minute ++ gap)).
  { rewrite length_app. cbn [length]. rewrite length_app. lia. }
  rewrite En.
  assert (Es : skipn (length (hour ++ 58 :: minute ++ gap))
                     (hour ++ 58 :: minute ++ gap ++ after) = after).
  { replace (hour ++ 58 :: minute ++ gap ++ after)
      with ((hour ++ 58 :: minute ++ gap) ++ after)
      by (rewrite <- app_assoc; cbn [app]; now rewrite <- app_assoc).
    apply skipn_length_app. }
  rewrite Es, Hf. reflexivity.
Qed.

Lemma word_char_plain (c : char) :
  word_char c = true -> ~ In c symbol_chars.
Proof.
  intros Hc H. unfold symbol_chars in H. cbn in H.
  repeat destruct H as [H|H]; try (subst c; discriminate Hc). exact H.
Qed.

(** What [replace_time] returns for a time without a period holds none of
    the characters the stage looks for. *)
Lemma replace_time_plain (hour minute spoken : str) :
  replace_time [hour; minute; []] = Ok spoken ->
  Forall (fun c => ~ In c symbol_chars) spoken.
Proof.
  unfold replace_time. cbn [nth nonempty]. intros E.
  destruct (py_int hour) as [h| |]; try discriminate E. cbn [bind] in E.
  destruct (py_int minute) as [m| |]; try discriminate E. cbn [bind] in E.
  assert (Hw : forall w, Forall (fun c => word_char c = true) w ->
                         Forall (fun c => ~ In c symbol_chars) w)
    by (intros w; apply Forall_impl; exact word_char_plain).
  assert (Hq : Forall (fun c => ~ In c symbol_chars) (lit " o'clock")).
  { repeat constructor;
      (cbn; intros H; repeat destruct H as [H|H]; try discriminate H;
       exact H). }
  unfold _number_to_words in E.
  destruct (m =? 0)%Z.
  { destruct (number_to_words_rec 4 h) as [a| |] eqn:Ea; try discriminate E.
    cbn [bind] in E. injection E as <-. apply number_words_chars in Ea.
    apply Forall_app. split; [now apply Hw|exact Hq]. }
  destruct (m <? 10)%Z.
  - destruct (number_to_words_rec 4 h) as [a| |] eqn:Ea; try discriminate E.
    cbn [bind] in E.
    destruct (number_to_words_rec 4 m) as [b| |] eqn:Eb; try discriminate E.
    cbn [bind] in E. injection E as <-.
    apply number_words_chars in Ea, Eb. apply Hw.
    repeat first
      [ assumption
      | apply Forall_nil
      | apply Forall_app; split
      | apply Forall_cons; [reflexivity|] ].
  - destruct (number_to_words_rec 4 h) as [a| |] eqn:Ea; try discriminate E.
    cbn [bind] in E.
    destruct (number_to_words_rec 4 m) as [b| |] eqn:Eb; try discriminate E.
    cbn [bind] in E. injection E as <-.
    apply number_words_chars in Ea, Eb. apply Hw.
    repeat first
      [ assumption
      | apply Forall_nil
      | apply Forall_app; split
      | apply Forall_cons; [reflexivity|] ].
Qed.

Lemma ascii_digit_not_symbol (c : char) :
  (48 <=? c) && (c <=? 57) = true -> is_currency c = false /\ c <> 37.
Proof.
  intros H. apply andb_prop in H as [H1 H2]. apply N.leb_le in H1, H2.
  unfold is_currency.
  destruct (N.eqb_spec c 36); [lia|]. destruct (N.eqb_spec c 8364); [lia|].
  destruct (N.eqb_spec c 163); [lia|]. destruct (N.eqb_spec c 165); [lia|].
  split; [reflexivity|lia].
Qed.

Lemma ascii_space_not_symbol (c : char) :
  isspace c = true -> c < 128 -> is_currency c = false /\ c <> 37.
Proof.
  intros Hs Hc. unfold is_currency.
  assert (H : c <> 36 /\ c <> 37).
  { unfold isspace in Hs.
    repeat (apply orb_prop in Hs as [Hs|Hs]);
      repeat match goal with
        | H : _ && _ = true |- _ => apply andb_prop in H as [? ?]
        | H : (_ <=? _) = true |- _ => apply N.leb_le in H
        | H : (_ =? _) = true |- _ => apply N.eqb_eq in H
        end; lia. }
  destruct H as [H36 H37].
  destruct (N.eqb_spec c 36); [contradiction|].
  destruct (N.eqb_spec c 8364); [lia|].
  destruct (N.eqb_spec c 163); [lia|]. destruct (N.eqb_spec c 165); [lia|].
  split; [reflexivity|assumption].
Qed.

Lemma plain_not_symbol (c : char) :
  ~ In c symbol_chars -> is_currency c = false /\ c <> 37.
Proof.
  intros H. split; [now apply not_symbol_not_currency|].
  intros ->. apply H. unfold symbol_chars. cbn. tauto.
Qed.

(** X18.  A time without AM or PM behind it takes the whitespace that follows
    it along: in a text whose other characters the stage does not look for,
    the time is replaced by its words and the text behind it is joined to them
    without a space. *)
Theorem time_swallows_whitespace (before hour minute gap after : str) :
  Forall (fun c => is_digit c = false /\ ~ In c symbol_chars) before ->
  Forall (fun c => is_digit c = false /\ ~ In c symbol_chars) after ->
  Forall (fun c => (48 <=? c) && (c <=? 57) = true) hour ->
  (1 <= length hour <= 2)%nat ->
  Forall (fun c => (48 <=? c) && (c <=? 57) = true) minute ->
  length minute = 2%nat ->
  Forall (fun c => isspace c = true /\ c < 128) gap ->
  (forall c, hd_error after = Some c -> isspace c = false) ->
  find (fun w => starts_with w after) periods = None ->
  normalize_symbols (before ++ hour ++ [58] ++ minute ++ gap ++ after)
  = (spoken <- replace_time [hour; minute; []] ;;
     Ok (before ++ spoken ++ after)).
Proof.
  intros Hb Ha Hh Lh Hm Lm Hg Hhd Hf. cbn [app].
  assert (Hall : Forall (fun c => is_currency c = false /\ c <> 37)
                        (before ++ hour ++ 58 :: minute ++ gap ++ after)).
  { apply Forall_app. split.
    { revert Hb. apply Forall_impl. intros c [_ H].
      now apply plain_not_symbol. }
    apply Forall_app. split.
    { revert Hh. apply Forall_impl. exact ascii_digit_not_symbol. }
    constructor; [split; [reflexivity|discriminate]|].
    apply Forall_app. split.
    { revert Hm. apply Forall_impl. exact ascii_digit_not_symbol. }
    apply Forall_app. split.
    { revert Hg. apply Forall_impl. intros c [H1 H2].
      now apply ascii_space_not_symbol. }
    revert Ha. apply Forall_impl. intros c [_ H].
    now apply plain_not_symbol. }
  assert (Hdh : Forall (fun c => is_digit c = true) hour)
    by (revert Hh; apply Forall_impl; exact ascii_digit_is_digit).
  assert (Hdm : Forall (fun c => is_digit c = true) minute)
    by (revert Hm; apply Forall_impl; exact ascii_digit_is_digit).
  assert (Hsg : Forall (fun c => isspace c = true) gap)
    by (revert Hg; apply Forall_impl; now intros c [H _]).
  assert (Hstop : forall c, hd_error (gap ++ after) = Some c ->
                            is_digit c = false).
  { intros c Hc. destruct gap as [|g gap].
    - destruct after as [|a after]; [discriminate Hc|].
      injection Hc as ->. inversion Ha as [|? ? [H _] _]; subst. exact H.
    - injection Hc as ->. inversion Hg as [|? ? [H1 H2] _]; subst.
      now apply ascii_space_not_digit. }
  unfold normalize_symbols.
  rewrite scan_by_none.
  2:{ revert Hall. apply Forall_impl. intros c [Hc _] prev t'.
      now apply currency_match_none. }
  cbn [bind].
  rewrite (scan_by_absent percent_match replace_percent 37
             percent_needs_sign).
  2:{ intros Hin. rewrite Forall_forall in Hall.
      now destruct (Hall 37 Hin) as [_ H]. }
  cbn [bind].
  rewrite (scan_by_app_none time_match replace_time before).
  2:{ exact time_match_blind. }
  2:{ revert Hb. apply Forall_impl. intros c [Hc _] prev t'.
      now apply time_match_none. }
  assert (Et : scan_by time_match replace_time 0 None
                 (hour ++ 58 :: minute ++ gap ++ after)
               = (spoken <- replace_time [hour; minute; []] ;;
                  Ok (spoken ++ after))).
  { pose proof (time_match_gap None hour minute gap after Hdh Lh Hdm Lm
                  Hsg Hstop Hhd Hf) as Em.
    destruct hour as [|h0 hour']; [simpl in Lh; lia|].
    change ((h0 :: hour') ++ 58 :: minute ++ gap ++ after)
      with (h0 :: (hour' ++ 58 :: minute ++ gap ++ after)) in *.
    rewrite scan_by_cons, Em.
    change (length ((h0 :: hour') ++ 58 :: minute ++ gap))
      with (S (length (hour' ++ 58 :: minute ++ gap))).
    cbn iota beta.
    destruct (replace_time _) as [r| |]; try reflexivity.
    cbn [bind]. rewrite scan_by_skip.
    replace (hour' ++ 58 :: minute ++ gap ++ after)
      with ((hour' ++ 58 :: minute ++ gap) ++ after)
      by (rewrite <- app_assoc; cbn [app]; now rewrite <- app_assoc).
    rewrite skipn_length_app.
    rewrite scan_by_none; [reflexivity|].
    revert Ha. apply Forall_impl. intros c [Hc _] prev t'.
    now apply time_match_none. }
  rewrite Et.
  destruct (replace_time [hour; minute; []]) as [r| |] eqn:Er;
    try reflexivity.
  cbn [bind]. apply simple_symbols_plain.
  apply Forall_app. split.
  { revert Hb. apply Forall_impl. now intros c [_ H]. }
  apply Forall_app. split.
  { exact (replace_time_plain hour minute r Er). }
  revert Ha. apply Forall_impl. now intros c [_ H].
Qed.

End TimeProofs.

Lemma time_swallows_whitespace_witness :
  (Forall (fun c => @is_digit basic_db c = false /\ ~ In c symbol_chars)
          (lit "at ")
   /\ Forall (fun c => @is_digit basic_db c = false /\ ~ In c symbol_chars)
             (lit "tomorrow")
   /\ Forall (fun c => (48 <=? c) && (c <=? 57) = true) (lit "9")
   /\ (1 <= length (lit "9") <= 2)%nat
   /\ Forall (fun c => (48 <=? c) && (c <=? 57) = true) (lit "30")
   /\ length (lit "30") = 2%nat
   /\ Forall (fun c => isspace c = true /\ c < 128) (lit " ")
   /\ find (fun w => starts_with w (lit "tomorrow")) periods = None)
  /\ @normalize_symbols basic_db
       (lit "at " ++ lit "9" ++ [58] ++ lit "30" ++ lit " " ++ lit "tomorrow")
     = (spoken <- @replace_time basic_db [lit "9"; lit "30"; []] ;;
        Ok (lit "at " ++ spoken ++ lit "tomorrow"))
  /\ @normalize_symbols basic_db (lit "at 9:30 tomorrow")
     = Ok (lit "at nine thirtytomorrow").
Proof.
  assert (Hp : forall t,
             forallb (fun c => negb (@is_digit basic_db c)
                               && negb (existsb (N.eqb c) symbol_chars)) t
             = true ->
             Forall (fun c => @is_digit basic_db c = false
                              /\ ~ In c symbol_chars) t).
  { intros t H. rewrite forallb_forall in H. apply Forall_forall.
    intros c Hc. specialize (H c Hc). apply andb_prop in H as [H1 H2].
    split; [now destruct (@is_digit basic_db c)|].
    intros Hin. assert (E : existsb (N.eqb c) symbol_chars = true)
      by (apply existsb_exists; exists c; split;
          [assumption|apply N.eqb_refl]).
    rewrite E in H2. discriminate H2. }
  assert (H1 := Hp (lit "at ") eq_refl).
  assert (H2 := Hp (lit "tomorrow") eq_refl).
  assert (H3 : Forall (fun c => (48 <=? c) && (c <=? 57) = true) (lit "9"))
    by (repeat constructor).
  assert (H4 : Forall (fun c => (48 <=? c) && (c <=? 57) = true) (lit "30"))
    by (repeat constructor).
  assert (H5 : Forall (fun c => isspace c = true /\ c < 128) (lit " "))
    by (repeat constructor).
  split; [|split; [|vm_compute; reflexivity]].
  - repeat (split; [assumption || reflexivity || (simpl; lia)|]).
    reflexivity.
  - apply (@time_swallows_whitespace basic_db (lit "at ") (lit "9")
             (lit "30") (lit " ") (lit "tomorrow"));
      try assumption; try reflexivity; [simpl; lia|].
    intros c Hc. injection Hc as <-. reflexivity.
Defined.

Section FlattenProofs.
Context {U : UnicodeDB}.

(** The groups of a match: as many as the pattern has, none of them empty
    when each takes a character at least. *)
Lemma run_groups (items : list item) :
  Forall takes_one items ->
  forall prev t caps n,
    run items prev t = Some (caps, n) ->
    length caps = length (filter captures items)
    /\ Forall (fun g => g <> []) caps.
Proof.
  induction 1 as [|it items Hit _ IH]; intros prev t caps n H.
  - injection H as <- <-. split; [reflexivity|constructor].
  - assert (Hone : forall ok,
               match t with
               | x :: t' =>
                   if ok x : bool then
                     match run items (Some x) t' with
                     | Some (caps, n) => Some (caps, S n)
                     | None => None
                     end
                   else None
               | [] => None
               end = Some (caps, n) ->
               length caps = length (filter captures items)
               /\ Forall (fun g => g <> []) caps).
    { intros ok E. destruct t as [|x t']; [discriminate|].
      destruct (ok x); [|discriminate].
      destruct (run items (Some x) t') as [[caps' n']|] eqn:E';
        [|discriminate].
      injection E as <- <-. exact (IH _ _ _ _ E'). }
    destruct it as [c|c|p lo hi capture| |p]; cbn [run] in H.
    + exact (Hone _ H).
    + exact (Hone _ H).
    + apply try_lengths_some in H as (i & Hi & Hr & _).
      destruct (run items (prev_at prev t i) (skipn i t))
        as [[caps' n']|] eqn:E'; [|discriminate].
      injection Hr as <- <-. destruct (IH _ _ _ _ E') as [Hl Hg].
      destruct capture; cbn [captures filter length]; [|now split].
      split; [now rewrite Hl|]. constructor; [|assumption].
      cbn [takes_one] in Hit.
      assert (Hlen : (i <= length t)%nat).
      { pose proof (span_len_le p t). destruct hi; lia. }
      intros E. apply (f_equal (@length char)) in E.
      rewrite length_firstn in E. cbn [length] in E. lia.
    + destruct (boundary prev t); [|discriminate]. exact (IH _ _ _ _ H).
    + destruct prev as [x|]; [|discriminate].
      destruct (p x); [|discriminate]. exact (IH _ _ _ _ H).
Qed.

(** The item of a list line is never empty. *)
Lemma list_item_nonempty (line item : str) :
  list_item line = Some item -> item <> [].
Proof.
  assert (Hg : forall pattern,
             Forall takes_one pattern ->
             length (filter captures pattern) = 1%nat ->
             group1 (run pattern None line) = Some item -> item <> []).
  { intros pattern Hp Hc E.
    destruct (run pattern None line) as [[caps n]|] eqn:Er; [|discriminate].
    destruct (run_groups pattern Hp _ _ _ _ Er) as [Hl Hne].
    rewrite Hc in Hl. destruct caps as [|g caps]; [discriminate|].
    injection E as <-. now inversion Hne. }
  unfold list_item. intros E.
  destruct (run bullet_item None line) eqn:Eb.
  - rewrite <- Eb in E. apply (Hg bullet_item); [|reflexivity|exact E].
    unfold bullet_item. repeat constructor.
  - apply (Hg numbered_item); [|reflexivity|exact E].
    unfold numbered_item. repeat constructor.
Qed.

Lemma list_to_prose_ok (items : list str) :
  Forall (fun item => item <> []) items ->
  exists prose, _list_to_prose items = Ok prose.
Proof.
  intros H. unfold _list_to_prose.
  rewrite (prose_parts_entries items H).
  destruct items as [|item [|item' items]]; eexists; reflexivity.
Qed.

Lemma flatten_step_ok (st : flattener) (line : str) :
  Forall (fun item => item <> []) (list_items st) ->
  exists st', flatten_step st line = Ok st'
              /\ Forall (fun item => item <> []) (list_items st').
Proof.
  intros H. unfold flatten_step.
  destruct (list_item line) as [item|] eqn:E.
  - eexists. split; [reflexivity|]. cbn [list_items].
    apply Forall_app. split; [assumption|].
    constructor; [|constructor]. exact (list_item_nonempty _ _ E).
  - destruct (in_list st && nonempty (list_items st)).
    + destruct (list_to_prose_ok _ H) as (prose & ->). cbn [bind].
      eexists. split; [reflexivity|]. constructor.
    + eexists. split; [reflexivity|]. exact H.
Qed.

Lemma flatten_loop_ok (lines : list str) :
  forall st,
    Forall (fun item => item <> []) (list_items st) ->
    exists st', fold_m flatten_step lines st = Ok st'
                /\ Forall (fun item => item <> []) (list_items st').
Proof.
  induction lines as [|line lines IH]; intros st H.
  - exists st. now split.
  - cbn [fold_m]. destruct (flatten_step_ok st line H) as (st1 & -> & H1).
    cbn [bind]. exact (IH st1 H1).
Qed.

(** X19.  [flatten_lists] never raises: the IndexError of [_list_to_prose] on
    an empty item is out of its reach, as the group [(.+)] of a list line is
    never empty. *)
Theorem flatten_lists_returns (text : str) :
  exists out, flatten_lists text = Ok out.
Proof.
  unfold flatten_lists.
  destruct (flatten_loop_ok (split_on LF text)
              {| result_lines := []; list_items := []; in_list := false |})
    as (st & -> & H); [constructor|].
  cbn [bind]. destruct (nonempty (list_items st)).
  - destruct (list_to_prose_ok _ H) as (prose & ->). cbn [bind].
    eexists. reflexivity.
  - cbn [bind]. eexists. reflexivity.
Qed.

(** *** Text without lists *)

Lemma rep_none (p : char -> bool) (lo : nat) (hi : option nat)
      (capture : bool) (tail : list item) (prev : option char) (t : str) :
  (span_len p t < lo)%nat ->
  run (Rep p lo hi capture :: tail) prev t = None.
Proof.
  intros H. cbn [run]. apply try_lengths_short. destruct hi; lia.
Qed.

Lemma head_skipn_in (t : str) :
  forall i k c,
    hd_error (skipn i t) = Some c -> (i <= k)%nat -> In c (firstn (S k) t).
Proof.
  induction t as [|x t IH]; intros i k c E Hik.
  - now destruct i.
  - destruct i as [|i].
    + injection E as <-. now left.
    + destruct k as [|k]; [lia|]. right. apply (IH i k c E). lia.
Qed.

(** No marker behind the indentation, no list line. *)
Lemma marker_none (p : char -> bool) (lo : nat) (hi : option nat)
      (tail : list item) (line : str) :
  (1 <= lo)%nat ->
  Forall (fun c => p c = false) (firstn (S (span_len isspace line)) line) ->
  run (Rep isspace 0 None false :: Rep p lo hi false :: tail) None line
  = None.
Proof.
  intros Hlo Hall. cbn [run]. apply try_lengths_none. intros i Hi.
  change (match run (Rep p lo hi false :: tail) (prev_at None line i)
                  (skipn i line) with
          | Some (caps, n) => Some (caps, (i + n)%nat)
          | None => None
          end = None).
  rewrite rep_none; [reflexivity|].
  destruct (skipn i line) as [|c s] eqn:E; [simpl; lia|].
  cbn [span_len].
  assert (Hc : In c (firstn (S (span_len isspace line)) line)).
  { apply (head_skipn_in line i); [now rewrite E|lia]. }
  rewrite Forall_forall in Hall. rewrite (Hall c Hc). lia.
Qed.

Lemma list_item_none (line : str) :
  Forall (fun c => is_bullet c = false /\ is_digit c = false)
         (firstn (S (span_len isspace line)) line) ->
  list_item line = None.
Proof.
  intros H. unfold list_item, bullet_item, numbered_item.
  rewrite !marker_none; [reflexivity| | | |]; try lia;
    eapply Forall_impl; try exact H; cbv beta; intros c Hc; apply Hc.
Qed.

Lemma flatten_loop_plain (lines : list str) :
  Forall (fun line => list_item line = None) lines ->
  forall acc,
    fold_m flatten_step lines
      {| result_lines := acc; list_items := []; in_list := false |}
    = Ok {| result_lines := acc ++ lines; list_items := [];
            in_list := false |}.
Proof.
  induction 1 as [|line lines Hl _ IH]; intros acc.
  - now rewrite app_nil_r.
  - cbn [fold_m]. unfold flatten_step at 1. rewrite Hl.
    cbn [in_list list_items nonempty andb result_lines bind].
    rewrite IH, <- app_assoc. reflexivity.
Qed.

(** X20.  Text in which no line is a list line comes back as it is: it
    suffices that, in every line, neither the leading whitespace nor the
    character behind it is a bullet or a digit. *)
Theorem flatten_lists_plain (text : str) :
  Forall (fun line =>
            Forall (fun c => is_bullet c = false /\ is_digit c = false)
                   (firstn (S (span_len isspace line)) line))
         (split_on LF text) ->
  flatten_lists text = Ok text.
Proof.
  intros H. unfold flatten_lists.
  rewrite flatten_loop_plain.
  - cbn [bind list_items nonempty result_lines app].
    now rewrite join_split_on.
  - eapply Forall_impl; [|exact H]. exact list_item_none.
Qed.

(** *** Text that is a list *)

Lemma bullet_not_space (b : char) : is_bullet b = true -> isspace b = false.
Proof.
  unfold is_bullet. intros H.
  repeat (apply orb_prop in H as [H|H]); apply N.eqb_eq in H; subst;
    reflexivity.
Qed.

Lemma digit_not_space (d : char) :
  (48 <=? d) && (d <=? 57) = true -> isspace d = false.
Proof.
  intros H. destruct (isspace d) eqn:E; [|reflexivity].
  pose proof (ascii_digit_is_digit d H) as Hd.
  apply andb_prop in H as [H1 H2]. apply N.leb_le in H1, H2.
  rewrite (ascii_space_not_digit d E) in Hd; [discriminate|lia].
Qed.

Lemma digit_not_bullet (d : char) :
  (48 <=? d) && (d <=? 57) = true -> is_bullet d = false.
Proof.
  intros H. apply andb_prop in H as [H1 H2]. apply N.leb_le in H1, H2.
  unfold is_bullet.
  destruct (N.eqb_spec d 45); [lia|]. destruct (N.eqb_spec d 42); [lia|].
  destruct (N.eqb_spec d 8226); [lia|]. reflexivity.
Qed.

Lemma not_lf_all (s : str) :
  ~ In LF s -> Forall (fun c => not_lf c = true) s.
Proof.
  intros H. apply Forall_forall. intros c Hc. unfold not_lf.
  destruct (N.eqb_spec c LF) as [->|]; [contradiction|reflexivity].
Qed.

(** The tail of both patterns, at the whitespace behind the marker. *)
Lemma run_item_tail (prev : option char) (gap item : str) :
  gap <> [] -> Forall (fun c => isspace c = true) gap ->
  item <> [] -> (forall c, hd_error item = Some c -> isspace c = false) ->
  ~ In LF item ->
  run [Rep isspace 1 None false; Rep not_lf 1 None true] prev (gap ++ item)
  = Some ([item], (length gap + (length item + 0))%nat).
Proof.
  intros Hgap Hsp Hitem Hhd Hlf.
  rewrite (run_rep_take isspace 1 None false _ prev (gap ++ item)
             (length gap) [item] (length item + 0)%nat);
    [reflexivity| | |].
  - symmetry. now apply span_len_prefix.
  - destruct gap; [congruence|simpl; lia].
  - rewrite skipn_length_app.
    rewrite (run_rep_take not_lf 1 None true [] _ item (length item) [] 0%nat).
    + now rewrite firstn_all.
    + symmetry. apply span_len_full. now apply not_lf_all.
    + destruct item; [congruence|simpl; lia].
    + reflexivity.
Qed.

Lemma item_line_item (line item : str) :
  item_line line item -> list_item line = Some item.
Proof.
  intros (indent & m & gap & -> & Hind & Hm & Hgap & Hsp & Hitem & Hhd & Hlf).
  assert (Hlf' : ~ In LF item).
  { intros Hin. apply Hlf. rewrite !in_app_iff. auto. }
  pose proof (run_item_tail) as Htail.
  destruct Hm as [(b & -> & Hb)|(digits & p & -> & Hne & Hds & Hp)].
  - (* a bullet *)
    unfold list_item.
    assert (E : exists n, run bullet_item None
                            (indent ++ [b] ++ gap ++ item)
                          = Some ([item], n)).
    { unfold bullet_item. eexists.
      erewrite (run_rep_take isspace 0 None false _ None
                 (indent ++ [b] ++ gap ++ item) (length indent)); cycle 1.
      - symmetry. apply span_len_prefix; [assumption|].
        intros c [= <-]. now apply bullet_not_space.
      - lia.
      - rewrite skipn_length_app. cbn [app].
        erewrite (run_rep_take is_bullet 1 (Some 1%nat) false _ _
                   (b :: gap ++ item) 1%nat); cycle 1.
        + cbn [span_len]. rewrite Hb. reflexivity.
        + lia.
        + cbn [skipn]. apply Htail; assumption.
        + reflexivity.
      - reflexivity. }
    destruct E as (n & ->). reflexivity.
  - (* digits and a full stop or parenthesis *)
    destruct digits as [|d0 digits]; [congruence|].
    inversion Hds as [|? ? Hd0 Hds']; subst.
    unfold list_item.
    assert (Eb : run bullet_item None
                   (indent ++ ((d0 :: digits) ++ [p]) ++ gap ++ item)
                 = None).
    { unfold bullet_item. apply marker_none; [lia|].
      rewrite (span_len_prefix isspace indent); [|assumption|]; cycle 1.
      { intros c [= <-]. now apply digit_not_space. }
      replace (S (length indent))
        with (length (indent ++ [d0])) by (rewrite length_app; simpl; lia).
      replace (indent ++ ((d0 :: digits) ++ [p]) ++ gap ++ item)
        with ((indent ++ [d0]) ++ digits ++ [p] ++ gap ++ item)
        by (rewrite <- !app_assoc; reflexivity).
      rewrite firstn_length_app. apply Forall_app. split.
      - eapply Forall_impl; [|exact Hind]. cbv beta. intros c Hc.
        destruct (is_bullet c) eqn:E; [|reflexivity].
        apply bullet_not_space in E. congruence.
      - constructor; [|constructor]. now apply digit_not_bullet. }
    rewrite Eb.
    assert (Hpd : is_digit p = false).
    { unfold is_digit. rewrite decimal_ascii by (destruct Hp; subst; lia).
      destruct Hp; subst; reflexivity. }
    assert (E : exists n, run numbered_item None
                            (indent ++ ((d0 :: digits) ++ [p]) ++ gap ++ item)
                          = Some ([item], n)).
    { unfold numbered_item. eexists.
      erewrite (run_rep_take isspace 0 None false _ None _ (length indent));
        cycle 1.
      - symmetry. apply span_len_prefix; [assumption|].
        intros c [= <-]. now apply digit_not_space.
      - lia.
      - rewrite skipn_length_app.
        replace (((d0 :: digits) ++ [p]) ++ gap ++ item)
          with ((d0 :: digits) ++ p :: gap ++ item)
          by (rewrite <- app_assoc; reflexivity).
        erewrite (run_rep_take is_digit 1 None false _ _ _
                   (length (d0 :: digits))); cycle 1.
        + symmetry. apply span_len_prefix.
          * eapply Forall_impl; [|exact Hds]. cbv beta.
            exact ascii_digit_is_digit.
          * now intros c [= <-].
        + simpl. lia.
        + rewrite skipn_length_app.
          erewrite (run_rep_take (fun c => (c =? 46) || (c =? 41)) 1
                     (Some 1%nat) false _ _ (p :: gap ++ item) 1%nat);
            cycle 1.
          * cbn [span_len]. destruct Hp; subst; reflexivity.
          * lia.
          * cbn [skipn]. apply Htail; assumption.
          * reflexivity.
        + reflexivity.
      - reflexivity. }
    destruct E as (n & ->). reflexivity.
Qed.

Lemma split_on_absent (sep : char) (l : str) :
  ~ In sep l -> split_on sep l = [l].
Proof.
  induction l as [|c l IH]; intros H; [reflexivity|]. cbn [split_on].
  destruct (N.eqb_spec c sep) as [->|_]; [exfalso; apply H; now left|].
  rewrite IH; [reflexivity|]. intros Hin. apply H. now right.
Qed.

Lemma split_on_line (sep : char) (l rest : str) :
  ~ In sep l -> split_on sep (l ++ sep :: rest) = l :: split_on sep rest.
Proof.
  induction l as [|c l IH]; intros H.
  - cbn [app split_on]. now rewrite N.eqb_refl.
  - cbn [app split_on].
    destruct (N.eqb_spec c sep) as [->|_]; [exfalso; apply H; now left|].
    rewrite IH; [reflexivity|]. intros Hin. apply H. now right.
Qed.

Lemma split_on_join (sep : char) (lines : list str) :
  lines <> [] -> Forall (fun l => ~ In sep l) lines ->
  split_on sep (join [sep] lines) = lines.
Proof.
  intros Hne H. revert Hne.
  induction H as [|l lines Hl Hls IH]; intros Hne;
    [exfalso; now apply Hne|].
  destruct lines as [|l2 lines].
  - now apply split_on_absent.
  - rewrite join_cons2. cbn [app]. rewrite split_on_line by assumption.
    f_equal. apply IH. discriminate.
Qed.

Lemma flatten_loop_items (lines items : list str) :
  Forall2 item_line lines items ->
  forall st,
    lines <> [] ->
    fold_m flatten_step lines st
    = Ok {| result_lines := result_lines st;
            list_items := list_items st ++ items;
            in_list := true |}.
Proof.
  induction 1 as [|line item lines items Hl Hls IH]; intros st Hne;
    [exfalso; now apply Hne|].
  cbn [fold_m]. unfold flatten_step at 1.
  rewrite (item_line_item _ _ Hl). cbn [bind].
  destruct Hls as [|line2 item2 lines items Hl2 Hls].
  - reflexivity.
  - rewrite IH by discriminate. cbn [result_lines list_items].
    now rewrite <- app_assoc.
Qed.

(** X21.  A text that is one list (every line a list line) becomes the prose
    of the items, each item being what stands behind the marker of its line
    and the whitespace after it. *)
Theorem flatten_lists_items (lines items : list str) :
  lines <> [] -> Forall2 item_line lines items ->
  flatten_lists (join [LF] lines) = _list_to_prose items.
Proof.
  intros Hne H. unfold flatten_lists.
  rewrite split_on_join; [|assumption|].
  - rewrite (flatten_loop_items lines items H) by assumption.
    cbn [bind list_items result_lines app].
    destruct items as [|item items];
      [inversion H; subst; exfalso; now apply Hne|].
    cbn [nonempty]. destruct (_list_to_prose (item :: items)); reflexivity.
  - clear Hne. induction H as [|line item lines items Hl _ IH];
      constructor; [|assumption].
    destruct Hl as (_ & _ & _ & _ & _ & _ & _ & _ & _ & _ & Hlf).
    exact Hlf.
Qed.

End FlattenProofs.

Lemma flatten_lists_plain_witness :
  Forall (fun line =>
            Forall (fun c => is_bullet c = false
                             /\ @is_digit basic_db c = false)
                   (firstn (S (span_len isspace line)) line))
         (split_on LF
            (lit "Dear all," ++ [LF] ++ lit "  see below - and reply."))
  /\ @flatten_lists basic_db
       (lit "Dear all," ++ [LF] ++ lit "  see below - and reply.")
     = Ok (lit "Dear all," ++ [LF] ++ lit "  see below - and reply.").
Proof.
  assert (H : Forall (fun line =>
            Forall (fun c => is_bullet c = false
                             /\ @is_digit basic_db c = false)
                   (firstn (S (span_len isspace line)) line))
         (split_on LF
            (lit "Dear all," ++ [LF] ++ lit "  see below - and reply."))).
  { vm_compute. repeat constructor. }
  split; [exact H|]. exact (@flatten_lists_plain basic_db _ H).
Defined.

Lemma flatten_lists_items_witness :
  [lit "- Buy milk"; lit "  2) call Ann"] <> []
  /\ Forall2 item_line [lit "- Buy milk"; lit "  2) call Ann"]
                       [lit "Buy milk"; lit "call Ann"]
  /\ @flatten_lists basic_db
       (join [LF] [lit "- Buy milk"; lit "  2) call Ann"])
     = Ok (lit "Firstly, buy milk Secondly, call Ann").
Proof.
  assert (Hne : [lit "- Buy milk"; lit "  2) call Ann"] <> [])
    by discriminate.
  assert (H : Forall2 item_line [lit "- Buy milk"; lit "  2) call Ann"]
                                [lit "Buy milk"; lit "call Ann"]).
  { constructor; [|constructor; [|constructor]].
    - exists [], (lit "-"), (lit " ").
      split; [reflexivity|]. split; [constructor|].
      split; [left; exists 45; split; reflexivity|].
      split; [discriminate|]. split; [repeat constructor|].
      split; [discriminate|].
      split; [intros c [= <-]; reflexivity|].
      vm_compute. intuition discriminate.
    - exists (lit "  "), (lit "2)"), (lit " ").
      split; [reflexivity|]. split; [repeat constructor|].
      split.
      { right. exists (lit "2"), 41.
        split; [reflexivity|]. split; [discriminate|].
        split; [repeat constructor|]. now right. }
      split; [discriminate|]. split; [repeat constructor|].
      split; [discriminate|].
      split; [intros c [= <-]; reflexivity|].
      vm_compute. intuition discriminate. }
  split; [exact Hne|]. split; [exact H|].
  rewrite (@flatten_lists_items basic_db _ _ Hne H). vm_compute. reflexivity.
Defined.
